(** * draw-arch: the layout and rendering pipeline

    A shallow embedding of [lib/core/schema.js], [lib/core/layout.js],
    [lib/core/renderer.js] and [lib/semantic/generator.js], and the
    properties of the pipeline

      Architecture --validate--> --layout--> --render--> Document.

    Conventions of the embedding.
    - JavaScript numbers are rationals ([Q]); a double that is neither NaN
      nor infinite is one, and the pipeline only adds, subtracts, multiplies,
      halves and compares.  Rounding is not modelled.  Where the code reads
      a coordinate off a value that has none, the result is [Undefined] or
      [NaN] ([JsNumber]).
    - Plain objects used as dictionaries ([graph], [nodeMap], [templates])
      are finite maps over strings that hold what the code stored; a read
      [obj[k]] goes through [member], which also finds what the object
      inherits from [Object.prototype].  A [Set] is a finite set.
    - The tables [NODE_STYLES] and [CONNECTION_STYLES] are read under the
      type of a node or of a connection, which validation restricts to the
      names of the schema, and the [mapping] of [getExcalidrawShapeType]
      under the shape of a style of [NODE_STYLES]; none of these names is a
      member name of [Object.prototype].  The tables are finite maps read
      by their own keys, and what is proved of a style is proved for the
      types of the schema.
    - A string is the UTF-8 encoding of the JavaScript string, which is
      taken to be well formed (no lone surrogate).
    - [console.warn] is a list of messages returned next to the value.
    - [Date.now()] reads a clock that is part of the renderer's world, next
      to the instance field [idCounter].
    - A thrown exception is the [Throw] outcome; the one loop of the
      pipeline ([while (queue.length > 0)]) runs on fuel. *)

From Stdlib Require Import QArith Qabs Qround Qminmax Lqa ZArith Lia.
From Stdlib Require Import Ascii String.
From stdpp Require Import gmap strings list pretty.

Local Open Scope Q_scope.

(** ** Outcomes *)

Inductive JsError :=
  | ZodError (path : string)
  | TypeError (msg : string).

Inductive result (A : Type) :=
  | Ok (a : A)
  | Throw (e : JsError)
  | OutOfFuel.
Arguments Ok {A} a.
Arguments Throw {A} e.
Arguments OutOfFuel {A}.

#[global] Instance result_ret : MRet result := fun A a => Ok a.
#[global] Instance result_bind : MBind result := fun A B f m =>
  match m with
  | Ok a => f a
  | Throw e => Throw e
  | OutOfFuel => OutOfFuel
  end.

(** ** Numbers *)

Definition Qltb (a b : Q) : bool :=
  match a ?= b with Lt => true | _ => false end.

Definition ofNat (n : nat) : Q := inject_Z (Z.of_nat n).

(** [Math.min(x, ...xs)] and [Math.max(x, ...xs)] on a non-empty argument
    list. *)
Definition Math_min (x : Q) (xs : list Q) : Q := foldl Qmin x xs.
Definition Math_max (x : Q) (xs : list Q) : Q := foldl Qmax x xs.

(** What the code holds where it computes with a coordinate: a number,
    [NaN], or [undefined], the value of a property that the object read does
    not have. *)
Inductive JsNumber :=
  | Num (q : Q)
  | NaN
  | Undefined.

Coercion Num : Q >-> JsNumber.

(** The arithmetic operators, [Math.min], [Math.abs] and the like convert
    [undefined] to [NaN], and return [NaN] when an operand is [NaN]. *)
Definition jsLift1 (f : Q → Q) (a : JsNumber) : JsNumber :=
  match a with
  | Num x => Num (f x)
  | _ => NaN
  end.

Definition jsLift2 (f : Q → Q → Q) (a b : JsNumber) : JsNumber :=
  match a, b with
  | Num x, Num y => Num (f x y)
  | _, _ => NaN
  end.

Declare Scope js_scope.
Delimit Scope js_scope with js.
Infix "+" := (jsLift2 Qplus) : js_scope.
Infix "-" := (jsLift2 Qminus) : js_scope.
Infix "*" := (jsLift2 Qmult) : js_scope.
Infix "/" := (jsLift2 Qdiv) : js_scope.
Notation "- a" := (jsLift1 Qopp a) : js_scope.

(** [Math.min(a, b)] and [Math.abs(a)] *)
Definition Math_min2 (a b : JsNumber) : JsNumber := jsLift2 Qmin a b.
Definition Math_abs (a : JsNumber) : JsNumber := jsLift1 Qabs a.

(** ** Plain objects used as dictionaries

    [graph = {}], [nodeMap = {}] and the object literal [templates] are
    plain objects: their prototype is [Object.prototype].  The model keeps
    what the code stores in a finite map and reads it through [member].

    - [obj[k] = v] is [<[k := v]> obj].  For [k = "__proto__"] the
      assignment creates no property: it installs [v], an object, as the
      prototype of [obj], and [obj["__proto__"]] returns it; the map keeps
      it under that key.  No dictionary of the pipeline is enumerated.
    - [obj[k]] is the own property [k] when there is one; otherwise the
      property [k] of the installed prototype when it has one; otherwise the
      member [k] of [Object.prototype] when [k] is one of its names;
      otherwise [undefined]. *)

(** [Object.getOwnPropertyNames(Object.prototype)]: eleven functions and the
    accessor [__proto__], which returns the prototype.  All are truthy. *)
Definition objectPrototype : list string :=
  ["constructor"; "__defineGetter__"; "__defineSetter__"; "hasOwnProperty";
   "__lookupGetter__"; "__lookupSetter__"; "isPrototypeOf";
   "propertyIsEnumerable"; "toString"; "valueOf"; "__proto__";
   "toLocaleString"].

(** What a read returns, as far as the pipeline can tell the values apart:
    a value the code stored, some other truthy value, or a falsy one
    ([undefined], or an inherited [0] or empty string). *)
Inductive Member (A : Type) :=
  | Entry (a : A)
  | Inherited
  | Falsy.
Arguments Entry {A} a.
Arguments Inherited {A}.
Arguments Falsy {A}.

(** The own properties of a stored object, by name, with the truthiness
    of their values: they are inherited once the object is installed as a
    prototype. *)
Class JsObject (A : Type) := ownProperties : A → list (string * bool).

Definition member {A} `{JsObject A} (obj : gmap string A) (k : string)
  : Member A :=
  match obj !! k with
  | Some a => Entry a
  | None =>
      match obj !! "__proto__"
            ≫= (fun proto => (list_to_map (ownProperties proto)
                               : gmap string bool) !! k) with
      | Some true => Inherited
      | Some false => Falsy
      | None => if bool_decide (k ∈ objectPrototype) then Inherited else Falsy
      end
  end.

(** ** schema.js: the data model *)

Record NodeStyle := {
  shape : string;
  fillColor : string;
  strokeColor : string;
  width : Q;
  height : Q
}.

Record Node := {
  node_id : string;
  node_type : string;
  node_label : string
}.

Record Connection := {
  conn_id : option string;
  conn_from : string;
  conn_to : string;
  conn_type : string;
  conn_label : option string;
  conn_bidirectional : option bool
}.

Record Group := {
  group_id : string;
  group_label : string;
  group_contains : list string;
  group_type : option string
}.

Record Spacing := {
  sp_node : Q;
  sp_rank : Q
}.

Record LayoutConfig := {
  lc_type : option string;
  lc_direction : option string;
  lc_spacing : option Spacing
}.

Record Architecture := {
  nodes : list Node;
  connections : list Connection;
  groups : list Group;
  layout : option LayoutConfig
}.

(** What the producer hands in: optional keys may be absent. *)
Record RawSpacing := {
  raw_node : option Q;
  raw_rank : option Q
}.

Record RawLayout := {
  raw_type : option string;
  raw_direction : option string;
  raw_spacing : option RawSpacing
}.

Record RawArchitecture := {
  raw_nodes : list Node;
  raw_connections : list Connection;
  raw_groups : option (list Group);
  raw_layout : option RawLayout
}.

Definition NodeTypeSchema : list string :=
  ["actor"; "service"; "database"; "queue"; "cache"; "gateway"; "ui";
   "external"].

Definition ConnectionTypeSchema : list string :=
  ["http"; "async"; "query"; "sync"; "data_flow"; "none"].

Definition GroupTypeSchema : list string := ["layer"; "boundary"; "cluster"].

Definition LayoutTypeSchema : list string :=
  ["hierarchical"; "grid"; "force"; "layered"].

Definition DirectionSchema : list string := ["TB"; "BT"; "LR"; "RL"].

Definition z_enum (allowed : list string) (path : string) (v : string)
  : result string :=
  if bool_decide (v ∈ allowed) then Ok v else Throw (ZodError path).

(** [z.enum(...).optional().default(d)] *)
Definition z_enum_default (allowed : list string) (path d : string)
  (v : option string) : result string :=
  match v with
  | None => Ok d
  | Some s => z_enum allowed path s
  end.

Fixpoint z_array {A B} (f : A → result B) (l : list A) : result (list B) :=
  match l with
  | [] => Ok []
  | a :: r => b ← f a; bs ← z_array f r; mret (b :: bs)
  end.

Definition NodeSchema (n : Node) : result Node :=
  t ← z_enum NodeTypeSchema "nodes.type" (node_type n);
  mret {| node_id := node_id n; node_type := t; node_label := node_label n |}.

Definition ConnectionSchema (c : Connection) : result Connection :=
  t ← z_enum ConnectionTypeSchema "connections.type" (conn_type c);
  mret {| conn_id := conn_id c; conn_from := conn_from c;
          conn_to := conn_to c; conn_type := t; conn_label := conn_label c;
          conn_bidirectional := Some (default false (conn_bidirectional c)) |}.

Definition GroupSchema (g : Group) : result Group :=
  t ← z_enum_default GroupTypeSchema "groups.type" "boundary" (group_type g);
  mret {| group_id := group_id g; group_label := group_label g;
          group_contains := group_contains g; group_type := Some t |}.

Definition SpacingSchema (s : RawSpacing) : Spacing :=
  {| sp_node := default 80 (raw_node s); sp_rank := default 100 (raw_rank s) |}.

Definition LayoutSchema (l : RawLayout) : result LayoutConfig :=
  t ← z_enum_default LayoutTypeSchema "layout.type" "hierarchical" (raw_type l);
  d ← z_enum_default DirectionSchema "layout.direction" "TB" (raw_direction l);
  mret {| lc_type := Some t; lc_direction := Some d;
          lc_spacing := SpacingSchema <$> raw_spacing l |}.

(** [ArchitectureSchema.parse] *)
Definition ArchitectureSchema_parse (a : RawArchitecture) : result Architecture :=
  ns ← z_array NodeSchema (raw_nodes a);
  cs ← z_array ConnectionSchema (raw_connections a);
  gs ← z_array GroupSchema (default [] (raw_groups a));
  lo ← match raw_layout a with
       | None => Ok None
       | Some l => l' ← LayoutSchema l; mret (Some l')
       end;
  mret {| nodes := ns; connections := cs; groups := gs; layout := lo |}.

(** [NODE_STYLES]: node type to visual style. *)
Definition mkStyle (sh fill stroke : string) (w h : Q) : NodeStyle :=
  {| shape := sh; fillColor := fill; strokeColor := stroke;
     width := w; height := h |}.

Definition NODE_STYLES : gmap string NodeStyle :=
  list_to_map
    [ ("actor", mkStyle "ellipse" "#e1f5fe" "#0277bd" 120 80);
      ("service", mkStyle "rectangle" "#f3e5f5" "#7b1fa2" 140 80);
      ("database", mkStyle "rectangle" "#e8f5e8" "#388e3c" 120 80);
      ("queue", mkStyle "rectangle" "#fff3e0" "#f57c00" 130 70);
      ("cache", mkStyle "rectangle" "#fce4ec" "#c2185b" 110 70);
      ("gateway", mkStyle "diamond" "#f1f8e9" "#689f38" 100 100);
      ("ui", mkStyle "rectangle" "#e3f2fd" "#1976d2" 130 80);
      ("external", mkStyle "rectangle" "#fafafa" "#616161" 120 80) ].

Definition NODE_STYLES_service : NodeStyle :=
  mkStyle "rectangle" "#f3e5f5" "#7b1fa2" 140 80.

(** [NODE_STYLES[node.type] || NODE_STYLES.service] *)
Definition styleOf (t : string) : NodeStyle :=
  default NODE_STYLES_service (NODE_STYLES !! t).

(** ** layout.js: the layout engine *)

Record Canvas := {
  canvas_width : Q;
  canvas_height : Q;
  canvas_padding : Q
}.

Definition canvas : Canvas :=
  {| canvas_width := 1200; canvas_height := 800; canvas_padding := 50 |}.

Record PositionedNode := {
  pn_node : Node;
  pn_x : Q;
  pn_y : Q;
  pn_width : Q;
  pn_height : Q;
  pn_style : NodeStyle
}.

Definition pn_id (p : PositionedNode) : string := node_id (pn_node p).

Record Point := {
  pt_x : Q;
  pt_y : Q
}.

Record ConnectionPoints := {
  fromPoint : Point;
  toPoint : Point;
  path : list Point
}.

(** The same where a coordinate need not be a number. *)
Record JsPoint := {
  js_x : JsNumber;
  js_y : JsNumber
}.

Record JsConnectionPoints := {
  jsFromPoint : JsPoint;
  jsToPoint : JsPoint;
  jsPath : list JsPoint
}.

Definition ofPoint (p : Point) : JsPoint :=
  {| js_x := pt_x p; js_y := pt_y p |}.

Definition ofConnectionPoints (cp : ConnectionPoints) : JsConnectionPoints :=
  {| jsFromPoint := ofPoint (fromPoint cp);
     jsToPoint := ofPoint (toPoint cp);
     jsPath := ofPoint <$> path cp |}.

Record PositionedConnection := {
  pc_conn : Connection;
  pc_points : JsConnectionPoints;
  pc_id : string
}.

Record PositionedGroup := {
  pg_group : Group;
  pg_x : JsNumber;
  pg_y : JsNumber;
  pg_width : JsNumber;
  pg_height : JsNumber
}.

Record Bounds := {
  minX : Q;
  minY : Q;
  maxX : Q;
  maxY : Q;
  bounds_width : Q;
  bounds_height : Q
}.

Record Layout := {
  l_nodes : list PositionedNode;
  l_connections : list PositionedConnection;
  l_groups : list PositionedGroup;
  l_bounds : Bounds
}.

(** [calculateBounds] *)
Definition calculateBounds (ns : list PositionedNode) : Bounds :=
  match ns with
  | [] => {| minX := 0; minY := 0; maxX := 0; maxY := 0;
             bounds_width := 0; bounds_height := 0 |}
  | n :: rest =>
      let minX := Math_min (pn_x n) (pn_x <$> rest) in
      let minY := Math_min (pn_y n) (pn_y <$> rest) in
      let maxX := Math_max (pn_x n + pn_width n)
                    ((fun m => pn_x m + pn_width m) <$> rest) in
      let maxY := Math_max (pn_y n + pn_height n)
                    ((fun m => pn_y m + pn_height m) <$> rest) in
      {| minX := minX; minY := minY; maxX := maxX; maxY := maxY;
         bounds_width := maxX - minX; bounds_height := maxY - minY |}
  end.

(** The properties of a positioned node, [{ ...node, x, y, width, height,
    style }]: a string is truthy when it is not empty, a number when it is
    not zero, an object always.  (A node of the model has none of the
    optional keys [description] and [metadata].) *)
Definition nonEmpty (s : string) : bool := negb (bool_decide (s = "")).
Definition nonZero (q : Q) : bool := negb (Qeq_bool q 0).

#[global] Instance PositionedNode_object : JsObject PositionedNode := fun p =>
  [ ("id", nonEmpty (pn_id p));
    ("type", nonEmpty (node_type (pn_node p)));
    ("label", nonEmpty (node_label (pn_node p)));
    ("x", nonZero (pn_x p));
    ("y", nonZero (pn_y p));
    ("width", nonZero (pn_width p));
    ("height", nonZero (pn_height p));
    ("style", true) ].

(** [nodeMap[node.id] = node] for every positioned node, in order: a later
    node with the same id replaces an earlier one. *)
Definition buildNodeMap (ps : list PositionedNode) : gmap string PositionedNode :=
  foldl (fun m p => <[pn_id p := p]> m) ∅ ps.

(** [Boolean(value)] *)
Definition isTruthy {A} (m : Member A) : bool :=
  match m with
  | Falsy => false
  | _ => true
  end.

(** [group.contains.map(nodeId => nodeMap[nodeId]).filter(Boolean)] *)
Definition containedNodes (nodeMap : gmap string PositionedNode) (g : Group)
  : list (Member PositionedNode) :=
  filter (fun m => isTruthy m = true)
         ((fun nodeId => member nodeMap nodeId) <$> group_contains g).

(** The contained values when every one of them is a positioned node. *)
Fixpoint positionedOnly (ms : list (Member PositionedNode))
  : option (list PositionedNode) :=
  match ms with
  | [] => Some []
  | Entry p :: rest => ps ← positionedOnly rest; Some (p :: ps)
  | _ :: _ => None
  end.

Definition group_padding : Q := 20.

(** The callback of [groups.map] in [positionGroups].  [calculateBounds]
    reads [x], [y], [width] and [height] off every contained value; a value
    that is not a positioned node has no [x] and no [y], which makes each of
    the four [Math.min] and [Math.max] calls [NaN], and with them the box. *)
Definition positionGroup (nodeMap : gmap string PositionedNode) (g : Group)
  : option PositionedGroup :=
  let contained := containedNodes nodeMap g in
  match contained with
  | [] => None
  | _ =>
      match positionedOnly contained with
      | Some nodes =>
          let bounds := calculateBounds nodes in
          Some {| pg_group := g;
                  pg_x := minX bounds - group_padding;
                  pg_y := minY bounds - group_padding;
                  pg_width := bounds_width bounds + 2 * group_padding;
                  pg_height := bounds_height bounds + 2 * group_padding |}
      | None =>
          Some {| pg_group := g;
                  pg_x := (NaN - group_padding)%js;
                  pg_y := (NaN - group_padding)%js;
                  pg_width := (NaN + 2 * group_padding)%js;
                  pg_height := (NaN + 2 * group_padding)%js |}
      end
  end.

(** [positionGroups] *)
Definition positionGroups (gs : list Group) (positionedNodes : list PositionedNode)
  : list PositionedGroup :=
  let nodeMap := buildNodeMap positionedNodes in
  omap (positionGroup nodeMap) gs.

(** [calculateOptimalConnectionPoints] *)
Definition calculateOptimalConnectionPoints (fromNode toNode : PositionedNode)
  : ConnectionPoints :=
  let fromCenter := {| pt_x := pn_x fromNode + pn_width fromNode / 2;
                       pt_y := pn_y fromNode + pn_height fromNode / 2 |} in
  let toCenter := {| pt_x := pn_x toNode + pn_width toNode / 2;
                     pt_y := pn_y toNode + pn_height toNode / 2 |} in
  let dx := pt_x toCenter - pt_x fromCenter in
  let dy := pt_y toCenter - pt_y fromCenter in
  let '(fromPoint, toPoint) :=
    if Qltb (Qabs dy) (Qabs dx) then
      if Qltb 0 dx then
        ({| pt_x := pn_x fromNode + pn_width fromNode; pt_y := pt_y fromCenter |},
         {| pt_x := pn_x toNode; pt_y := pt_y toCenter |})
      else
        ({| pt_x := pn_x fromNode; pt_y := pt_y fromCenter |},
         {| pt_x := pn_x toNode + pn_width toNode; pt_y := pt_y toCenter |})
    else
      if Qltb 0 dy then
        ({| pt_x := pt_x fromCenter; pt_y := pn_y fromNode + pn_height fromNode |},
         {| pt_x := pt_x toCenter; pt_y := pn_y toNode |})
      else
        ({| pt_x := pt_x fromCenter; pt_y := pn_y fromNode |},
         {| pt_x := pt_x toCenter; pt_y := pn_y toNode + pn_height toNode |})
  in
  {| fromPoint := fromPoint; toPoint := toPoint; path := [fromPoint; toPoint] |}.

(** [conn.id || `conn_${conn.from}_${conn.to}`]: the empty string is falsy. *)
Definition connectionId (c : Connection) : string :=
  match conn_id c with
  | Some i => if bool_decide (i = "") then "conn_" +:+ conn_from c +:+ "_" +:+ conn_to c
              else i
  | None => "conn_" +:+ conn_from c +:+ "_" +:+ conn_to c
  end.

Definition missingNodeWarning (c : Connection) : string :=
  "Connection references missing node: " +:+ conn_from c +:+ " -> " +:+ conn_to c.

(** [calculateOptimalConnectionPoints] on what [nodeMap] returned.  A
    value that is not a positioned node has no [x] and no [y]: its centre is
    [NaN], so are [dx] and [dy], both comparisons are false and the last
    branch is taken, [fromPoint = { x: fromCenter.x, y: fromNode.y }] and
    [toPoint = { x: toCenter.x, y: toNode.y + toNode.height }]. *)
Definition connectionPointsOf (fromNode toNode : Member PositionedNode)
  : JsConnectionPoints :=
  match fromNode, toNode with
  | Entry f, Entry t => ofConnectionPoints (calculateOptimalConnectionPoints f t)
  | _, _ =>
      let fromPoint :=
        match fromNode with
        | Entry f => {| js_x := pn_x f + pn_width f / 2; js_y := pn_y f |}
        | _ => {| js_x := NaN; js_y := Undefined |}
        end in
      let toPoint :=
        match toNode with
        | Entry t => {| js_x := pn_x t + pn_width t / 2;
                        js_y := pn_y t + pn_height t |}
        | _ => {| js_x := NaN; js_y := NaN |}
        end in
      {| jsFromPoint := fromPoint; jsToPoint := toPoint;
         jsPath := [fromPoint; toPoint] |}
  end.

(** One step of the [connections.map] of [calculateConnectionPaths]: the
    positioned connection, or the warning written before [null] is returned. *)
Definition routeConnection (nodeMap : gmap string PositionedNode) (c : Connection)
  : PositionedConnection + string :=
  let fromNode := member nodeMap (conn_from c) in
  let toNode := member nodeMap (conn_to c) in
  if negb (isTruthy fromNode) || negb (isTruthy toNode) then
    inr (missingNodeWarning c)
  else
    inl {| pc_conn := c;
           pc_points := connectionPointsOf fromNode toNode;
           pc_id := connectionId c |}.

Definition lefts {A B} (l : list (A + B)) : list A :=
  omap (fun s => match s with inl a => Some a | inr _ => None end) l.
Definition rights {A B} (l : list (A + B)) : list B :=
  omap (fun s => match s with inl _ => None | inr b => Some b end) l.

(** [calculateConnectionPaths]: the connections that survive
    [.filter(Boolean)], and what was written to [console.warn]. *)
Definition calculateConnectionPaths (cs : list Connection)
  (positionedNodes : list PositionedNode)
  : list PositionedConnection * list string :=
  let nodeMap := buildNodeMap positionedNodes in
  let routed := routeConnection nodeMap <$> cs in
  (lefts routed, rights routed).

(** [layoutConfig.spacing || { node: 80, rank: 100 }] and the like. *)
Definition spacingOr (dflt : Spacing) (cfg : LayoutConfig) : Spacing :=
  default dflt (lc_spacing cfg).

(** [layoutConfig.direction || 'TB']: the empty string is falsy. *)
Definition directionOf (cfg : LayoutConfig) : string :=
  match lc_direction cfg with
  | Some d => if bool_decide (d = "") then "TB" else d
  | None => "TB"
  end.

(** [Math.ceil(Math.sqrt(n))] for an array length [n]. *)
Definition ceil_sqrt (n : nat) : nat := Nat.sqrt_up n.

(** [Math.ceil(n / cols)]; [0 / 0] is [NaN], which is [None] here. *)
Definition ceil_div (n cols : nat) : option nat :=
  match cols with
  | O => None
  | S _ => Some (Z.to_nat (Qceiling (ofNat n / ofNat cols)))
  end.

Definition gridCols (ns : list Node) : nat := ceil_sqrt (length ns).
Definition gridRows (ns : list Node) : option nat :=
  ceil_div (length ns) (gridCols ns).

(** The callback of [nodes.map] in [generateGridLayout]; [row] is
    [Math.floor(index / cols)] and [col] is [index % cols]. *)
Definition gridNode (cols : nat) (spacing : Spacing) (index : nat) (node : Node)
  : PositionedNode :=
  let row := (index / cols)%nat in
  let col := (index mod cols)%nat in
  let style := styleOf (node_type node) in
  {| pn_node := node;
     pn_x := canvas_padding canvas + ofNat col * (width style + sp_node spacing);
     pn_y := canvas_padding canvas + ofNat row * (height style + sp_rank spacing);
     pn_width := width style;
     pn_height := height style;
     pn_style := style |}.

Definition finishLayout (cs : list Connection) (gs : list Group)
  (positionedNodes : list PositionedNode) : Layout * list string :=
  let '(positionedConnections, warnings) :=
    calculateConnectionPaths cs positionedNodes in
  ({| l_nodes := positionedNodes;
      l_connections := positionedConnections;
      l_groups := positionGroups gs positionedNodes;
      l_bounds := calculateBounds positionedNodes |}, warnings).

(** [generateGridLayout] *)
Definition generateGridLayout (ns : list Node) (cs : list Connection)
  (gs : list Group) (cfg : LayoutConfig) : Layout * list string :=
  let spacing := spacingOr {| sp_node := 80; sp_rank := 100 |} cfg in
  let cols := gridCols ns in
  let positionedNodes := imap (gridNode cols spacing) ns in
  finishLayout cs gs positionedNodes.

Definition typeOrder : list string :=
  ["actor"; "ui"; "gateway"; "service"; "queue"; "cache"; "database";
   "external"].

Definition nodesOfType (ns : list Node) (t : string) : list Node :=
  filter (fun n => node_type n = t) ns.

(** [groupNodesByType] *)
Definition groupNodesByType (ns : list Node) : list (list Node) :=
  let layers :=
    foldl (fun layers t =>
             match nodesOfType ns t with
             | [] => layers
             | ofType => layers ++ [ofType]
             end) [] typeOrder in
  match filter (fun n => node_type n ∉ typeOrder) ns with
  | [] => layers
  | remainingNodes => layers ++ [remainingNodes]
  end.

(** The callback of [layer.map] in [positionNodesInLayers]. *)
Definition positionNode (direction : string) (spacing : Spacing)
  (layerLength layerIndex nodeIndex : nat) (node : Node) : PositionedNode :=
  let style := styleOf (node_type node) in
  let isVertical := bool_decide (direction = "TB") || bool_decide (direction = "BT") in
  let '(x, y) :=
    if isVertical then
      let totalWidth := ofNat layerLength * width style
                        + (ofNat layerLength - 1) * sp_node spacing in
      let startX := (canvas_width canvas - totalWidth) / 2 in
      (startX + ofNat nodeIndex * (width style + sp_node spacing),
       if bool_decide (direction = "TB")
       then canvas_padding canvas + ofNat layerIndex * (height style + sp_rank spacing)
       else canvas_height canvas - canvas_padding canvas
            - (ofNat layerIndex + 1) * (height style + sp_rank spacing))
    else
      let totalHeight := ofNat layerLength * height style
                         + (ofNat layerLength - 1) * sp_node spacing in
      let startY := (canvas_height canvas - totalHeight) / 2 in
      (if bool_decide (direction = "LR")
       then canvas_padding canvas + ofNat layerIndex * (width style + sp_rank spacing)
       else canvas_width canvas - canvas_padding canvas
            - (ofNat layerIndex + 1) * (width style + sp_rank spacing),
       startY + ofNat nodeIndex * (height style + sp_node spacing))
  in
  {| pn_node := node; pn_x := x; pn_y := y;
     pn_width := width style; pn_height := height style; pn_style := style |}.

(** [positionNodesInLayers] *)
Definition positionNodesInLayers (layers : list (list Node)) (direction : string)
  (spacing : Spacing) : list PositionedNode :=
  concat (imap (fun layerIndex layer =>
                  imap (positionNode direction spacing (length layer) layerIndex) layer)
               layers).

(** [positionLayeredNodes] *)
Definition positionLayeredNodes (layers : list (list Node)) (direction : string)
  (spacing : Spacing) : list PositionedNode :=
  positionNodesInLayers layers direction spacing.

Record GraphEntry := {
  incoming : list string;
  outgoing : list string
}.

(** [{ incoming: [], outgoing: [] }]: two arrays, which are truthy. *)
#[global] Instance GraphEntry_object : JsObject GraphEntry := fun _ =>
  [ ("incoming", true); ("outgoing", true) ].

(** The two pushes of [buildDependencyGraph] on the entries of the two
    ends. *)
Definition pushEdge (graph : gmap string GraphEntry) (conn : Connection)
  : gmap string GraphEntry :=
  let graph1 :=
    alter (fun e => {| incoming := incoming e;
                       outgoing := outgoing e ++ [conn_to conn] |})
          (conn_from conn) graph in
  alter (fun e => {| incoming := incoming e ++ [conn_from conn];
                     outgoing := outgoing e |})
        (conn_to conn) graph1.

(** The callback of [connections.forEach] in [buildDependencyGraph].  When
    both reads are truthy and one of them is not an entry, that value has
    neither [outgoing] nor [incoming], and [.push] on [undefined] throws. *)
Definition addEdge (graph : gmap string GraphEntry) (conn : Connection)
  : result (gmap string GraphEntry) :=
  let fromEntry := member graph (conn_from conn) in
  let toEntry := member graph (conn_to conn) in
  if isTruthy fromEntry && isTruthy toEntry then
    match fromEntry, toEntry with
    | Entry _, Entry _ => Ok (pushEdge graph conn)
    | _, _ => Throw (TypeError "Cannot read properties of undefined (reading 'push')")
    end
  else Ok graph.

(** The first loop of [buildDependencyGraph]: an empty entry per node. *)
Definition initialGraph (ns : list Node) : gmap string GraphEntry :=
  foldl (fun g n => <[node_id n := {| incoming := []; outgoing := [] |}]> g) ∅ ns.

Fixpoint addEdges (graph : gmap string GraphEntry) (cs : list Connection)
  : result (gmap string GraphEntry) :=
  match cs with
  | [] => Ok graph
  | conn :: rest => graph' ← addEdge graph conn; addEdges graph' rest
  end.

(** [buildDependencyGraph] *)
Definition buildDependencyGraph (ns : list Node) (cs : list Connection)
  : result (gmap string GraphEntry) :=
  addEdges (initialGraph ns) cs.

(** [dependencyGraph[node.id]] followed by the read of [incoming] or
    [outgoing] and of a property of that: a [TypeError] unless the value is
    an entry. *)
Definition graphEntry (graph : gmap string GraphEntry) (i : string)
  : result GraphEntry :=
  match member graph i with
  | Entry e => Ok e
  | _ => Throw (TypeError "Cannot read properties of undefined")
  end.

Fixpoint rootNodesOf (graph : gmap string GraphEntry) (ns : list Node)
  : result (list Node) :=
  match ns with
  | [] => Ok []
  | node :: rest =>
      e ← graphEntry graph (node_id node);
      roots ← rootNodesOf graph rest;
      mret (if bool_decide (length (incoming e) = 0%nat) then node :: roots else roots)
  end.

Record BfsState := {
  visited : gset string;
  layer : list Node;
  nextQueue : list Node
}.

(** The callback of [dependencyGraph[node.id].outgoing.forEach]. *)
Definition pushDependent (ns : list Node) (visited : gset string)
  (nextQueue : list Node) (depId : string) : list Node :=
  match List.find (fun n => bool_decide (node_id n = depId)) ns with
  | Some depNode =>
      if bool_decide (depId ∈ visited) then nextQueue else nextQueue ++ [depNode]
  | None => nextQueue
  end.

(** The callback of [queue.forEach]. *)
Definition visitNode (ns : list Node) (graph : gmap string GraphEntry)
  (st : BfsState) (node : Node) : result BfsState :=
  if bool_decide (node_id node ∈ visited st) then Ok st
  else
    let visited' := visited st ∪ {[node_id node]} in
    e ← graphEntry graph (node_id node);
    mret {| visited := visited';
            layer := layer st ++ [node];
            nextQueue := foldl (pushDependent ns visited') (nextQueue st) (outgoing e) |}.

Fixpoint processQueue (ns : list Node) (graph : gmap string GraphEntry)
  (st : BfsState) (queue : list Node) : result BfsState :=
  match queue with
  | [] => Ok st
  | node :: rest => st' ← visitNode ns graph st node; processQueue ns graph st' rest
  end.

(** The [while (queue.length > 0)] loop.  On entry [currentLayer] is
    [layers.length], so [layers[currentLayer] = []] appends a layer, the
    pushes fill it, and [currentLayer++] restores the equation. *)
Fixpoint bfsLoop (fuel : nat) (ns : list Node) (graph : gmap string GraphEntry)
  (queue : list Node) (seen : gset string) (layers : list (list Node))
  : result (gset string * list (list Node)) :=
  match queue with
  | [] => Ok (seen, layers)
  | _ :: _ =>
      match fuel with
      | O => OutOfFuel
      | S fuel' =>
          st ← processQueue ns graph
                 {| visited := seen; layer := []; nextQueue := [] |} queue;
          bfsLoop fuel' ns graph (nextQueue st) (visited st) (layers ++ [layer st])
      end
  end.

(** [assignLayers], the loop given [fuel] rounds. *)
Definition assignLayersFuel (fuel : nat) (ns : list Node)
  (dependencyGraph : gmap string GraphEntry) : result (list (list Node)) :=
  rootNodes ← rootNodesOf dependencyGraph ns;
  match rootNodes with
  | [] => Ok (groupNodesByType ns)
  | _ :: _ =>
      '(seen, layers) ← bfsLoop fuel ns dependencyGraph rootNodes ∅ [];
      mret (match filter (fun n => node_id n ∉ seen) ns with
            | [] => layers
            | unvisited => layers ++ [unvisited]
            end)
  end.

(** Every round but the last visits a node id not seen before, so the loop
    makes at most one round more than there are nodes. *)
Definition assignLayers (ns : list Node) (dependencyGraph : gmap string GraphEntry)
  : result (list (list Node)) :=
  assignLayersFuel (S (length ns)) ns dependencyGraph.

(** [generateHierarchicalLayout] *)
Definition generateHierarchicalLayout (ns : list Node) (cs : list Connection)
  (gs : list Group) (cfg : LayoutConfig) : result (Layout * list string) :=
  let direction := directionOf cfg in
  let spacing := spacingOr {| sp_node := 80; sp_rank := 100 |} cfg in
  dependencyGraph ← buildDependencyGraph ns cs;
  layers ← assignLayers ns dependencyGraph;
  let positionedNodes := positionNodesInLayers layers direction spacing in
  mret (finishLayout cs gs positionedNodes).

(** [generateLayeredLayout] *)
Definition generateLayeredLayout (ns : list Node) (cs : list Connection)
  (gs : list Group) (cfg : LayoutConfig) : result (Layout * list string) :=
  let direction := directionOf cfg in
  let spacing := spacingOr {| sp_node := 80; sp_rank := 120 |} cfg in
  let layers := groupNodesByType ns in
  let positionedNodes := positionLayeredNodes layers direction spacing in
  mret (finishLayout cs gs positionedNodes).

(** [layout = {}] when the architecture has none. *)
Definition emptyLayoutConfig : LayoutConfig :=
  {| lc_type := None; lc_direction := None; lc_spacing := None |}.

(** [layout.type || 'hierarchical'] *)
Definition layoutTypeOf (cfg : LayoutConfig) : string :=
  match lc_type cfg with
  | Some t => if bool_decide (t = "") then "hierarchical" else t
  | None => "hierarchical"
  end.

(** [generateLayout] *)
Definition generateLayout (a : Architecture) : result (Layout * list string) :=
  let cfg := default emptyLayoutConfig (layout a) in
  let layoutType := layoutTypeOf cfg in
  if bool_decide (layoutType = "hierarchical") then
    generateHierarchicalLayout (nodes a) (connections a) (groups a) cfg
  else if bool_decide (layoutType = "grid") then
    mret (generateGridLayout (nodes a) (connections a) (groups a) cfg)
  else if bool_decide (layoutType = "layered") then
    generateLayeredLayout (nodes a) (connections a) (groups a) cfg
  else
    generateHierarchicalLayout (nodes a) (connections a) (groups a) cfg.

(** ** renderer.js: the element synthesizer *)

Record BoundElement := {
  bound_type : string;
  bound_id : string
}.

Record Binding := {
  elementId : string;
  focus : Q;
  gap : Q
}.

(** An Excalidraw element.  Absent keys and [null] are [None].  The
    format's constant attributes ([roughness], [opacity], [angle], ...) and
    the two [Math.random()] draws ([seed], [versionNonce]) are left out: no
    later stage of the pipeline reads them. *)
Record Element := {
  el_id : string;
  el_type : string;
  el_x : JsNumber;
  el_y : JsNumber;
  el_width : JsNumber;
  el_height : JsNumber;
  el_backgroundColor : string;
  el_strokeColor : string;
  el_strokeStyle : string;
  el_text : option string;
  el_containerId : option string;
  el_boundElements : option (list BoundElement);
  el_points : list (JsNumber * JsNumber);
  el_startBinding : option Binding;
  el_endBinding : option Binding;
  el_endArrowhead : option string;
  el_updated : N
}.

Record AppState := {
  viewBackgroundColor : string;
  gridSize : Q;
  zoom : Q;
  scrollX : Q;
  scrollY : Q
}.

Record Document := {
  doc_type : string;
  doc_version : nat;
  doc_source : string;
  elements : list Element;
  appState : AppState
}.

Record ConnectionStyle := {
  cs_strokeColor : string;
  cs_strokeStyle : string;
  cs_arrowType : option string
}.

(** What the renderer takes from its host: the clock behind [Date.now()],
    as the reading of each successive call, and the three [Math] functions
    of the label placement, which have no rational values. *)
Record Runtime := {
  clock : nat → N;
  Math_atan2 : Q → Q → Q;
  Math_sin : Q → Q;
  Math_cos : Q → Q
}.

(** The mutable part: [this.idCounter] and the number of clock readings
    taken so far. *)
Record World := {
  idCounter : nat;
  clockReads : nat
}.

Definition State (A : Type) : Type := World → A * World.

#[global] Instance state_ret : MRet State := fun A a w => (a, w).
#[global] Instance state_bind : MBind State := fun A B f m w =>
  let '(a, w') := m w in f a w'.

(** [forEach] with [elements.push(...f(item))]. *)
Fixpoint forEachPush {A B} (f : A → State (list B)) (l : list A)
  : State (list B) :=
  match l with
  | [] => mret []
  | a :: r => bs ← f a; rest ← forEachPush f r; mret (bs ++ rest)
  end.

Definition EXCALIDRAW_RECTANGLE : string := "rectangle".
Definition EXCALIDRAW_ELLIPSE : string := "ellipse".
Definition EXCALIDRAW_DIAMOND : string := "diamond".
Definition EXCALIDRAW_ARROW : string := "arrow".
Definition EXCALIDRAW_TEXT : string := "text".

(** [getExcalidrawShapeType]: [mapping[shapeType] || 'rectangle'], for the
    shapes of [NODE_STYLES]. *)
Definition getExcalidrawShapeType (shapeType : string) : string :=
  if bool_decide (shapeType = "rectangle") then EXCALIDRAW_RECTANGLE
  else if bool_decide (shapeType = "ellipse") then EXCALIDRAW_ELLIPSE
  else if bool_decide (shapeType = "diamond") then EXCALIDRAW_DIAMOND
  else EXCALIDRAW_RECTANGLE.

Definition truthy (s : option string) : bool :=
  match s with
  | Some l => negb (bool_decide (l = ""))
  | None => false
  end.

(** [label.length]: the number of UTF-16 code units of the string.  In
    its UTF-8 encoding a code point below U+10000 takes one to three bytes
    and is one unit, any other takes four bytes and is two units; the
    continuation bytes [10xxxxxx] count nothing. *)
Definition utf16Units (c : ascii) : nat :=
  let n := nat_of_ascii c in
  if (n <? 128)%nat then 1%nat
  else if (n <? 192)%nat then 0%nat
  else if (n <? 240)%nat then 1%nat
  else 2%nat.

Definition strLen (s : string) : Q :=
  ofNat (foldr (fun c n => (utf16Units c + n)%nat) 0%nat (list_ascii_of_string s)).

Definition defaultAppState : AppState :=
  {| viewBackgroundColor := "#ffffff"; gridSize := 20; zoom := 1;
     scrollX := 0; scrollY := 0 |}.

Definition envelope (els : list Element) : Document :=
  {| doc_type := "excalidraw"; doc_version := 2;
     doc_source := "draw-arch-dsl-renderer"; elements := els;
     appState := defaultAppState |}.

Section Renderer.
Context (rt : Runtime).

(** [Date.now()] *)
Definition Date_now : State N := fun w =>
  (clock rt (clockReads w),
   {| idCounter := idCounter w; clockReads := S (clockReads w) |}).

(** [++this.idCounter] *)
Definition nextCounter : State nat := fun w =>
  (S (idCounter w),
   {| idCounter := S (idCounter w); clockReads := clockReads w |}).

(** [generateId]: [`${Date.now()}_${++this.idCounter}`] *)
Definition generateId : State string :=
  t ← Date_now;
  c ← nextCounter;
  mret (pretty t +:+ "_" +:+ pretty c).

(** [renderGroup], the same in both renderers. *)
Definition renderGroup (group : PositionedGroup) : State (list Element) :=
  timestamp ← Date_now;
  g ← generateId;
  let groupId := "group_" +:+ g in
  let groupElement :=
    {| el_id := groupId; el_type := EXCALIDRAW_RECTANGLE;
       el_x := pg_x group; el_y := pg_y group;
       el_width := pg_width group; el_height := pg_height group;
       el_backgroundColor := "transparent"; el_strokeColor := "#cccccc";
       el_strokeStyle := "dashed";
       el_text := None; el_containerId := None;
       el_boundElements := Some [];
       el_points := []; el_startBinding := None; el_endBinding := None;
       el_endArrowhead := None; el_updated := timestamp |} in
  l ← generateId;
  let labelId := "group_label_" +:+ l in
  let labelElement :=
    {| el_id := labelId; el_type := EXCALIDRAW_TEXT;
       el_x := (pg_x group + 10)%js; el_y := (pg_y group - 25)%js;
       el_width := 100; el_height := 20;
       el_backgroundColor := "transparent"; el_strokeColor := "#666666";
       el_strokeStyle := "solid";
       el_text := Some (group_label (pg_group group));
       el_containerId := None;
       el_boundElements := None;
       el_points := []; el_startBinding := None; el_endBinding := None;
       el_endArrowhead := None; el_updated := timestamp |} in
  mret [groupElement; labelElement].

(** [renderNode] of the first renderer.  [shapeElement] is pushed before
    its [boundElements] array receives the text reference; the array is
    shared, so the element of the result carries the reference. *)
Definition renderNode (node : PositionedNode) : State (list Element) :=
  timestamp ← Date_now;
  let style := pn_style node in
  g ← generateId;
  let shapeId := "node_" +:+ g in
  t ← generateId;
  let textId := "text_" +:+ t in
  let textWidth := Qmin (strLen (node_label (pn_node node)) * 9) (pn_width node - 20) in
  let textHeight := 20 in
  let textElement :=
    {| el_id := textId; el_type := EXCALIDRAW_TEXT;
       el_x := pn_x node + (pn_width node - textWidth) / 2;
       el_y := pn_y node + (pn_height node - textHeight) / 2;
       el_width := textWidth; el_height := textHeight;
       el_backgroundColor := "transparent"; el_strokeColor := "#000000";
       el_strokeStyle := "solid";
       el_text := Some (node_label (pn_node node));
       el_containerId := Some shapeId;
       el_boundElements := None;
       el_points := []; el_startBinding := None; el_endBinding := None;
       el_endArrowhead := None; el_updated := timestamp |} in
  let shapeElement :=
    {| el_id := shapeId; el_type := getExcalidrawShapeType (shape style);
       el_x := pn_x node; el_y := pn_y node;
       el_width := pn_width node; el_height := pn_height node;
       el_backgroundColor := fillColor style; el_strokeColor := strokeColor style;
       el_strokeStyle := "solid";
       el_text := None; el_containerId := None;
       el_boundElements := Some [{| bound_type := "text"; bound_id := textId |}];
       el_points := []; el_startBinding := None; el_endBinding := None;
       el_endArrowhead := None; el_updated := timestamp |} in
  mret [shapeElement; textElement].

(** [CONNECTION_STYLES] of the first schema, which has no entry for
    ['none']. *)
Definition CONNECTION_STYLES : gmap string ConnectionStyle :=
  list_to_map
    [ ("http", {| cs_strokeColor := "#1976d2"; cs_strokeStyle := "solid";
                  cs_arrowType := Some "arrow" |});
      ("async", {| cs_strokeColor := "#f57c00"; cs_strokeStyle := "dashed";
                   cs_arrowType := Some "arrow" |});
      ("query", {| cs_strokeColor := "#388e3c"; cs_strokeStyle := "solid";
                   cs_arrowType := Some "arrow" |});
      ("sync", {| cs_strokeColor := "#7b1fa2"; cs_strokeStyle := "solid";
                  cs_arrowType := Some "arrow" |});
      ("data_flow", {| cs_strokeColor := "#616161"; cs_strokeStyle := "dotted";
                       cs_arrowType := Some "arrow" |}) ].

Definition CONNECTION_STYLES_sync : ConnectionStyle :=
  {| cs_strokeColor := "#7b1fa2"; cs_strokeStyle := "solid";
     cs_arrowType := Some "arrow" |}.

(** The label of a connection in the first renderer: the midpoint of the
    segment, moved 15 units along its normal.  [Math.atan2], [Math.sin]
    and [Math.cos] return [NaN] for a [NaN] argument. *)
Definition connectionLabel (timestamp : N) (labelId label : string)
  (fromPoint toPoint : JsPoint) : Element :=
  let dx := (js_x toPoint - js_x fromPoint)%js in
  let dy := (js_y toPoint - js_y fromPoint)%js in
  let angle := jsLift2 (Math_atan2 rt) dy dx in
  let distance := 15 in
  let midX := ((js_x fromPoint + js_x toPoint) / 2)%js in
  let midY := ((js_y fromPoint + js_y toPoint) / 2)%js in
  let offsetX := (- jsLift1 (Math_sin rt) angle * distance)%js in
  let offsetY := (jsLift1 (Math_cos rt) angle * distance)%js in
  let labelX := (midX + offsetX)%js in
  let labelY := (midY + offsetY)%js in
  let estimatedWidth := Qmin (strLen label * 7) 150 in
  let estimatedHeight := 16 in
  {| el_id := labelId; el_type := EXCALIDRAW_TEXT;
     el_x := (labelX - estimatedWidth / 2)%js;
     el_y := (labelY - estimatedHeight / 2)%js;
     el_width := estimatedWidth; el_height := estimatedHeight;
     el_backgroundColor := "#ffffff"; el_strokeColor := "#000000";
     el_strokeStyle := "solid";
     el_text := Some label; el_containerId := None;
     el_boundElements := None;
     el_points := []; el_startBinding := None; el_endBinding := None;
     el_endArrowhead := None; el_updated := timestamp |}.

(** [renderConnection] of the first renderer. *)
Definition renderConnection (connection : PositionedConnection)
  : State (list Element) :=
  timestamp ← Date_now;
  let connectionStyle :=
    default CONNECTION_STYLES_sync
            (CONNECTION_STYLES !! conn_type (pc_conn connection)) in
  g ← generateId;
  let arrowId := "conn_" +:+ g in
  let fromPoint := jsFromPoint (pc_points connection) in
  let toPoint := jsToPoint (pc_points connection) in
  let arrowElement :=
    {| el_id := arrowId; el_type := EXCALIDRAW_ARROW;
       el_x := Math_min2 (js_x fromPoint) (js_x toPoint);
       el_y := Math_min2 (js_y fromPoint) (js_y toPoint);
       el_width := Math_abs (js_x toPoint - js_x fromPoint)%js;
       el_height := Math_abs (js_y toPoint - js_y fromPoint)%js;
       el_backgroundColor := "transparent";
       el_strokeColor := cs_strokeColor connectionStyle;
       el_strokeStyle := cs_strokeStyle connectionStyle;
       el_text := None; el_containerId := None;
       el_boundElements := Some [];
       el_points :=
         [(Num 0, Num 0);
          ((js_x toPoint - Math_min2 (js_x fromPoint) (js_x toPoint))%js,
           (js_y toPoint - Math_min2 (js_y fromPoint) (js_y toPoint))%js)];
       el_startBinding :=
         Some {| elementId := conn_from (pc_conn connection);
                 focus := 0; gap := 0 |};
       el_endBinding :=
         Some {| elementId := conn_to (pc_conn connection);
                 focus := 0; gap := 0 |};
       el_endArrowhead :=
         if bool_decide (cs_arrowType connectionStyle = Some "arrow")
         then Some "arrow" else None;
       el_updated := timestamp |} in
  if truthy (conn_label (pc_conn connection)) then
    l ← generateId;
    let labelId := "label_" +:+ l in
    mret [arrowElement;
         connectionLabel timestamp labelId
           (default "" (conn_label (pc_conn connection))) fromPoint toPoint]
  else mret [arrowElement].

(** [render]: groups first, then nodes, then connections. *)
Definition render (layout : Layout) : State Document :=
  groupElements ← forEachPush renderGroup (l_groups layout);
  nodeElements ← forEachPush renderNode (l_nodes layout);
  connectionElements ← forEachPush renderConnection (l_connections layout);
  mret (envelope (groupElements ++ nodeElements ++ connectionElements)).

(** [CONNECTION_STYLES] of the second schema. *)
Definition CONNECTION_STYLES_2 : gmap string ConnectionStyle :=
  list_to_map
    [ ("http", {| cs_strokeColor := "#424242"; cs_strokeStyle := "solid";
                  cs_arrowType := None |});
      ("async", {| cs_strokeColor := "#0277bd"; cs_strokeStyle := "dashed";
                   cs_arrowType := None |});
      ("query", {| cs_strokeColor := "#388e3c"; cs_strokeStyle := "dotted";
                   cs_arrowType := None |});
      ("sync", {| cs_strokeColor := "#7b1fa2"; cs_strokeStyle := "solid";
                  cs_arrowType := None |});
      ("data_flow", {| cs_strokeColor := "#f57c00"; cs_strokeStyle := "solid";
                       cs_arrowType := None |});
      ("none", {| cs_strokeColor := "#9e9e9e"; cs_strokeStyle := "solid";
                  cs_arrowType := None |}) ].

Definition CONNECTION_STYLES_2_none : ConnectionStyle :=
  {| cs_strokeColor := "#9e9e9e"; cs_strokeStyle := "solid";
     cs_arrowType := None |}.

(** ASCII white space; [label.trim() !== ''] holds when some character
    of the label is none of it. *)
Definition isWhiteSpace (c : ascii) : bool :=
  let n := nat_of_ascii c in
  bool_decide (n = 32 ∨ (9 ≤ n ∧ n ≤ 13))%nat.

Definition trimNonEmpty (s : string) : bool :=
  existsb (fun c => negb (isWhiteSpace c)) (list_ascii_of_string s).

(** [renderConnection] of the second renderer (the file holds two): the
    arrow starts at [fromPoint], carries no binding, and its label sits on
    the midpoint. *)
Definition renderConnection_2 (connection : PositionedConnection)
  : State (list Element) :=
  timestamp ← Date_now;
  let style :=
    default CONNECTION_STYLES_2_none
            (CONNECTION_STYLES_2 !! conn_type (pc_conn connection)) in
  g ← generateId;
  let arrowId := "arrow_" +:+ g in
  let fromPoint := jsFromPoint (pc_points connection) in
  let toPoint := jsToPoint (pc_points connection) in
  let arrowElement :=
    {| el_id := arrowId; el_type := EXCALIDRAW_ARROW;
       el_x := js_x fromPoint;
       el_y := js_y fromPoint;
       el_width := (js_x toPoint - js_x fromPoint)%js;
       el_height := (js_y toPoint - js_y fromPoint)%js;
       el_backgroundColor := "transparent";
       el_strokeColor := cs_strokeColor style;
       el_strokeStyle := cs_strokeStyle style;
       el_text := None; el_containerId := None;
       el_boundElements := None;
       el_points :=
         [(Num 0, Num 0);
          ((js_x toPoint - js_x fromPoint)%js,
           (js_y toPoint - js_y fromPoint)%js)];
       el_startBinding := None;
       el_endBinding := None;
       el_endArrowhead := Some "arrow";
       el_updated := timestamp |} in
  if truthy (conn_label (pc_conn connection))
     && trimNonEmpty (default "" (conn_label (pc_conn connection))) then
    l ← generateId;
    let labelId := "label_" +:+ l in
    let label := default "" (conn_label (pc_conn connection)) in
    let labelX := (js_x fromPoint + (js_x toPoint - js_x fromPoint) / 2)%js in
    let labelY := (js_y fromPoint + (js_y toPoint - js_y fromPoint) / 2)%js in
    let estimatedWidth := Qmin (strLen label * 7) 150 in
    let estimatedHeight := 16 in
    mret [arrowElement;
         {| el_id := labelId; el_type := EXCALIDRAW_TEXT;
            el_x := (labelX - estimatedWidth / 2)%js;
            el_y := (labelY - estimatedHeight / 2)%js;
            el_width := estimatedWidth; el_height := estimatedHeight;
            el_backgroundColor := "#ffffff"; el_strokeColor := "#000000";
            el_strokeStyle := "solid";
            el_text := Some label; el_containerId := None;
            el_boundElements := None;
            el_points := []; el_startBinding := None; el_endBinding := None;
            el_endArrowhead := None; el_updated := timestamp |}]
  else mret [arrowElement].

(** ** generator.js *)

(** [generateDiagram]: validate, lay out, render.  The [catch] logs and
    rethrows, so an exception of any step is the outcome.  The result
    carries the warnings of the layout and the renderer's world after the
    call. *)
Definition generateDiagram (architectureDescription : RawArchitecture)
  (w : World) : result (Document * list string * World) :=
  validatedArchitecture ← ArchitectureSchema_parse architectureDescription;
  '(layout, warnings) ← generateLayout validatedArchitecture;
  let '(excalidrawData, w') := render layout w in
  mret (excalidrawData, warnings, w').

End Renderer.


(** ** Vocabulary of the statements *)

Definition centerX (r : PositionedNode) : Q := pn_x r + pn_width r / 2.
Definition centerY (r : PositionedNode) : Q := pn_y r + pn_height r / 2.



(** An id resolves when a positioned node carries it; the node it resolves
    to is the last one that does.  The member rectangles a group resolves
    to, and what it means for a rectangle [(x, y, w, h)] to be their union
    bounding box. *)
Definition resolves (positionedNodes : list PositionedNode) (i : string) : Prop :=
  ∃ p, p ∈ positionedNodes ∧ pn_id p = i.

Definition resolvesTo (positionedNodes : list PositionedNode) (i : string)
  : option PositionedNode :=
  last (filter (fun p => pn_id p = i) positionedNodes).

Definition resolvedMembers (positionedNodes : list PositionedNode) (g : Group)
  : list PositionedNode :=
  omap (resolvesTo positionedNodes) (group_contains g).

(** A name that a dictionary of the pipeline finds although nothing was
    stored under it: a member name of [Object.prototype] that is no id. *)
Definition inheritedName (positionedNodes : list PositionedNode) (i : string)
  : Prop :=
  i ∈ objectPrototype ∧ ¬ resolves positionedNodes i.

(** The names a read on the node map of these positioned nodes finds when
    none of them is called [__proto__]: their ids and the member names of
    [Object.prototype].  A connection is routed when both its ends are
    found. *)
Definition foundInNodeMap (positionedNodes : list PositionedNode) (k : string)
  : Prop :=
  k ∈ (pn_id <$> positionedNodes) ∨ k ∈ objectPrototype.

Definition routable (positionedNodes : list PositionedNode) (c : Connection)
  : Prop :=
  foundInNodeMap positionedNodes (conn_from c) ∧
  foundInNodeMap positionedNodes (conn_to c).

(** A value that is a number, and the number. *)
Definition isNumber (v : JsNumber) (q : Q) : Prop :=
  match v with
  | Num x => x == q
  | _ => False
  end.

Definition unionBox (members : list PositionedNode) (x y w h : Q) : Prop :=
  (∀ m, m ∈ members →
        x <= pn_x m ∧ pn_x m + pn_width m <= x + w ∧
        y <= pn_y m ∧ pn_y m + pn_height m <= y + h) ∧
  (∃ m, m ∈ members ∧ pn_x m == x) ∧
  (∃ m, m ∈ members ∧ pn_x m + pn_width m == x + w) ∧
  (∃ m, m ∈ members ∧ pn_y m == y) ∧
  (∃ m, m ∈ members ∧ pn_y m + pn_height m == y + h).


(** The graph of an architecture, read off its connections: a connection
    is an edge when both its endpoints are node ids. *)
Definition nodeIds (ns : list Node) : gset string := list_to_set (node_id <$> ns).

Definition isEdge (ns : list Node) (c : Connection) : Prop :=
  conn_from c ∈ nodeIds ns ∧ conn_to c ∈ nodeIds ns.

Definition edgesInto (ns : list Node) (cs : list Connection) (i : string)
  : list Connection :=
  filter (fun c => conn_to c = i ∧ isEdge ns c) cs.

Definition edgesOutOf (ns : list Node) (cs : list Connection) (i : string)
  : list Connection :=
  filter (fun c => conn_from c = i ∧ isEdge ns c) cs.

Definition hasEdge (ns : list Node) (cs : list Connection) (i d : string) : Prop :=
  ∃ c, c ∈ cs ∧ conn_from c = i ∧ conn_to c = d ∧ isEdge ns c.

(** The names a read on the dependency graph of these nodes finds: the
    node ids, the member names of [Object.prototype] and, when a node is
    called [__proto__], the two keys of its entry.  A connection breaks the
    graph when both its ends are found and it is no edge. *)
Definition foundInGraph (ns : list Node) (k : string) : Prop :=
  k ∈ nodeIds ns ∨ k ∈ objectPrototype ∨
  ("__proto__" ∈ nodeIds ns ∧ (k = "incoming" ∨ k = "outgoing")).

Definition breaksGraph (ns : list Node) (c : Connection) : Prop :=
  foundInGraph ns (conn_from c) ∧ foundInGraph ns (conn_to c) ∧ ¬ isEdge ns c.

(** A connection each of whose ends is a node id or a member name of
    [Object.prototype]. *)
Definition drawn (ns : list Node) (c : Connection) : Prop :=
  (conn_from c ∈ nodeIds ns ∨ conn_from c ∈ objectPrototype) ∧
  (conn_to c ∈ nodeIds ns ∨ conn_to c ∈ objectPrototype).

(** The nodes with zero incoming edges, in input order. *)
Definition zeroInDegreeNodes (ns : list Node) (cs : list Connection) : list Node :=
  filter (fun n => edgesInto ns cs (node_id n) = []) ns.

(** The nodes of a frontier whose id was not visited yet, each id once. *)
Fixpoint unvisitedOf (seen : gset string) (frontier : list Node) : list Node :=
  match frontier with
  | [] => []
  | n :: rest =>
      if bool_decide (node_id n ∈ seen) then unvisitedOf seen rest
      else n :: unvisitedOf (seen ∪ {[node_id n]}) rest
  end.

(** The final overflow rank: the nodes whose id is in none of the ranks. *)
Definition overflowRank (ns : list Node) (ranks : list (list Node))
  : list (list Node) :=
  match filter (fun n => node_id n ∉ nodeIds (concat ranks)) ns with
  | [] => []
  | unvisited => [unvisited]
  end.

(** The rank at which a type is placed by [groupNodesByType]. *)
Definition rankedAt (layers : list (list Node)) (k : nat) (n : Node) : Prop :=
  ∃ l, layers !! k = Some l ∧ n ∈ l.

(** What holds of the ranks each time the loop of [assignLayers] tests its
    queue: the visited set is the set of ranked ids, no id is ranked twice,
    every ranked node but those of rank 0 has an edge from the rank before,
    and the target of every edge out of a ranked node is ranked no more than
    one rank later or waits in the queue. *)
Definition bfsInvariant (ns : list Node) (cs : list Connection)
  (roots queue : list Node) (seen : gset string) (layers : list (list Node))
  : Prop :=
  seen = nodeIds (concat layers) ∧
  NoDup (node_id <$> concat layers) ∧
  (∀ n, n ∈ queue → n ∈ ns) ∧
  (∀ k n, rankedAt layers k n → n ∈ ns) ∧
  (∀ k n, rankedAt layers (S k) n →
          ∃ m, rankedAt layers k m ∧ hasEdge ns cs (node_id m) (node_id n)) ∧
  (∀ n l, n ∈ queue → last layers = Some l →
          ∃ m, m ∈ l ∧ hasEdge ns cs (node_id m) (node_id n)) ∧
  (∀ k m d, rankedAt layers k m → hasEdge ns cs (node_id m) d →
            (∃ j n, j ≤ S k ∧ rankedAt layers j n ∧ node_id n = d) ∨
            (S k = length layers ∧ ∃ n, n ∈ queue ∧ node_id n = d)) ∧
  ((layers = [] ∧ queue = roots) ∨ layers !! 0%nat = Some (unvisitedOf ∅ roots)).

(** The ranks of a breadth-first layering seeded with [roots]. *)
Definition bfsRanks (ns : list Node) (cs : list Connection) (roots : list Node)
  (ranks : list (list Node)) : Prop :=
  ranks !! 0%nat = Some (unvisitedOf ∅ roots) ∧
  NoDup (node_id <$> concat ranks) ∧
  (∀ k n, rankedAt ranks k n → n ∈ ns) ∧
  (∀ k n, rankedAt ranks (S k) n →
          ∃ m, rankedAt ranks k m ∧ hasEdge ns cs (node_id m) (node_id n)) ∧
  (∀ k m d, rankedAt ranks k m → hasEdge ns cs (node_id m) d →
            ∃ j n, j ≤ S k ∧ rankedAt ranks j n ∧ node_id n = d).

(** The canonical order of the node types. *)
Definition canonicalOrder : list string :=
  ["actor"; "ui"; "gateway"; "service"; "queue"; "cache"; "database";
   "external"].

(** The rank of one type when nodes are grouped by type: the nodes of the
    type in input order, or no rank when there is none; and the rank of the
    nodes whose type is not in the canonical order. *)
Definition typeRank (ns : list Node) (t : string) : option (list Node) :=
  match filter (fun n => node_type n = t) ns with
  | [] => None
  | ofType => Some ofType
  end.

Definition remainingRank (ns : list Node) : list (list Node) :=
  match filter (fun n => node_type n ∉ canonicalOrder) ns with
  | [] => []
  | remainingNodes => [remainingNodes]
  end.


(** An identifier minted by [generateId] while the counter went from [lo]
    to [hi]: a prefix, the clock reading, an underscore and the counter. *)
Definition genId (lo hi : nat) (s : string) : Prop :=
  ∃ (prefix : string) (t : N) (c : nat),
    s = prefix +:+ pretty t +:+ "_" +:+ pretty c ∧ (lo < c)%nat ∧ (c ≤ hi)%nat.

Fixpoint noUnderscore (s : string) : Prop :=
  match s with
  | EmptyString => True
  | String c r => c ≠ "_"%char ∧ noUnderscore r
  end.

(** Shapes, texts and the two halves of a binding. *)
Definition isShape (e : Element) : Prop :=
  el_type e = EXCALIDRAW_RECTANGLE ∨ el_type e = EXCALIDRAW_ELLIPSE ∨
  el_type e = EXCALIDRAW_DIAMOND.

Definition isText (e : Element) : Prop := el_type e = EXCALIDRAW_TEXT.

Definition isArrow (e : Element) : Prop := el_type e = EXCALIDRAW_ARROW.

(** The text stores the shape's id as its container and the shape records
    the text's id as its one bound element. *)
Definition mutuallyBound (s t : Element) : Prop :=
  el_containerId t = Some (el_id s) ∧
  el_boundElements s = Some [{| bound_type := "text"; bound_id := el_id t |}].

(** The elements of a document whose id is [i]. *)
Definition withId (els : list Element) (i : string) : list Element :=
  filter (fun e => el_id e = i) els.

(** The texts bound to a shape: those that name it as their container. *)
Definition boundTexts (els : list Element) (s : Element) : list Element :=
  filter (fun t => isText t ∧ el_containerId t = Some (el_id s)) els.

(** The shapes a binding of an arrow refers to. *)
Definition bindsToShape (els : list Element) (b : option Binding) : Prop :=
  ∃ bd s, b = Some bd ∧ s ∈ els ∧ isShape s ∧ el_id s = elementId bd.

(** What each call of the renderer contributes to the element list. *)
Definition groupChunk (group : PositionedGroup) (chunk : list Element) : Prop :=
  ∃ box label,
    chunk = [box; label] ∧
    el_type box = EXCALIDRAW_RECTANGLE ∧ el_strokeStyle box = "dashed" ∧
    el_x box = pg_x group ∧ el_y box = pg_y group ∧
    el_width box = pg_width group ∧ el_height box = pg_height group ∧
    el_boundElements box = Some [] ∧ el_containerId box = None ∧
    isText label ∧ el_text label = Some (group_label (pg_group group)) ∧
    el_containerId label = None.

Definition nodeChunk (node : PositionedNode) (chunk : list Element) : Prop :=
  ∃ shapeEl textEl,
    chunk = [shapeEl; textEl] ∧
    isShape shapeEl ∧ el_strokeStyle shapeEl = "solid" ∧
    el_x shapeEl = pn_x node ∧ el_y shapeEl = pn_y node ∧
    el_width shapeEl = pn_width node ∧ el_height shapeEl = pn_height node ∧
    el_containerId shapeEl = None ∧
    isText textEl ∧ el_text textEl = Some (node_label (pn_node node)) ∧
    mutuallyBound shapeEl textEl.

Definition connectionChunk (connection : PositionedConnection)
  (chunk : list Element) : Prop :=
  ∃ arrowEl rest,
    chunk = arrowEl :: rest ∧
    isArrow arrowEl ∧ el_containerId arrowEl = None ∧
    el_startBinding arrowEl
    = Some {| elementId := conn_from (pc_conn connection); focus := 0; gap := 0 |} ∧
    el_endBinding arrowEl
    = Some {| elementId := conn_to (pc_conn connection); focus := 0; gap := 0 |} ∧
    (rest = [] ∨
     ∃ labelEl, rest = [labelEl] ∧ isText labelEl ∧
                el_text labelEl = conn_label (pc_conn connection) ∧
                el_containerId labelEl = None).

(** A run of the renderer from one world: the ids it mints lie in the span
    of its counter, differ from each other, and its output is one chunk per
    item. *)
Definition emitsChunks {A} (Q : A → list Element → Prop) (items : list A)
  (w : World) (out : list Element * World) : Prop :=
  (idCounter w ≤ idCounter out.2)%nat ∧
  Forall (fun e => genId (idCounter w) (idCounter out.2) (el_id e)) out.1 ∧
  NoDup (el_id <$> out.1) ∧
  ∃ chunks, out.1 = concat chunks ∧ Forall2 Q items chunks.

(** The two statements about bindings, as properties of an element list:
    every shape has exactly one text bound to it, and every arrow is bound,
    at both ends, to a shape of the list. *)
Definition everyShapeHasOneText (els : list Element) : Prop :=
  ∀ s, s ∈ els → isShape s → ∃ t, boundTexts els s = [t] ∧ mutuallyBound s t.

Definition everyBoundTextHasOneShape (els : list Element) : Prop :=
  ∀ t c, t ∈ els → el_containerId t = Some c →
         isText t ∧ ∃ s, isShape s ∧ withId els c = [s] ∧ mutuallyBound s t.

Definition arrowsBindToShapes (els : list Element) : Prop :=
  ∀ a, a ∈ els → isArrow a →
       bindsToShape els (el_startBinding a) ∧ bindsToShape els (el_endBinding a).

(** ** Sample inputs *)

(** A clock that advances one millisecond per reading; the three [Math]
    functions are stand-ins, used only to place the label of a connection. *)
Definition sampleRuntime : Runtime :=
  {| clock := fun k => (1700000000000 + N.of_nat k)%N;
     Math_atan2 := fun _ _ => 0;
     Math_sin := fun _ => 0;
     Math_cos := fun _ => 1 |}.

Definition freshWorld : World := {| idCounter := 0; clockReads := 0 |}.

Definition userNode : Node :=
  {| node_id := "u"; node_type := "actor"; node_label := "User" |}.
Definition serviceNode : Node :=
  {| node_id := "s"; node_type := "service"; node_label := "API" |}.
Definition userToService : Connection :=
  {| conn_id := None; conn_from := "u"; conn_to := "s"; conn_type := "http";
     conn_label := None; conn_bidirectional := None |}.

(** The scenario of two nodes and one connection, hierarchical, top to
    bottom. *)
Definition twoNodes : RawArchitecture :=
  {| raw_nodes := [userNode; serviceNode];
     raw_connections := [userToService];
     raw_groups := None;
     raw_layout := Some {| raw_type := Some "hierarchical";
                           raw_direction := Some "TB";
                           raw_spacing := None |} |}.

(** The same with a group around the service. *)
Definition twoNodesGrouped : RawArchitecture :=
  {| raw_nodes := [userNode; serviceNode];
     raw_connections := [userToService];
     raw_groups := Some [ {| group_id := "backend"; group_label := "Backend";
                             group_contains := ["s"]; group_type := None |} ];
     raw_layout := Some {| raw_type := Some "hierarchical";
                           raw_direction := Some "TB";
                           raw_spacing := None |} |}.

(** Names that are no node ids but member names of [Object.prototype]:
    as the source of a connection to the service, as both ends of a second
    connection, and as the one member of a group. *)
Definition inheritedSource : Connection :=
  {| conn_id := None; conn_from := "constructor"; conn_to := "s";
     conn_type := "http"; conn_label := None; conn_bidirectional := None |}.

Definition withInheritedSource : RawArchitecture :=
  {| raw_nodes := [userNode; serviceNode];
     raw_connections := [inheritedSource];
     raw_groups := None;
     raw_layout := Some {| raw_type := Some "hierarchical";
                           raw_direction := Some "TB";
                           raw_spacing := None |} |}.

Definition inheritedEnds : Connection :=
  {| conn_id := None; conn_from := "constructor"; conn_to := "toString";
     conn_type := "http"; conn_label := None; conn_bidirectional := None |}.

Definition withInheritedEnds : RawArchitecture :=
  {| raw_nodes := [userNode; serviceNode];
     raw_connections := [userToService; inheritedEnds];
     raw_groups := None;
     raw_layout := Some {| raw_type := Some "grid";
                           raw_direction := None;
                           raw_spacing := None |} |}.

Definition inheritedMember : Group :=
  {| group_id := "g"; group_label := "Ghosts"; group_contains := ["valueOf"];
     group_type := None |}.

Definition withInheritedMember : RawArchitecture :=
  {| raw_nodes := [userNode; serviceNode];
     raw_connections := [userToService];
     raw_groups := Some [inheritedMember];
     raw_layout := Some {| raw_type := Some "hierarchical";
                           raw_direction := Some "TB";
                           raw_spacing := None |} |}.

(** The outcomes of schema validation: a value or a [ZodError]. *)
Definition zodOutcome {A} (r : result A) : Prop :=
  match r with
  | Ok _ => True
  | Throw (ZodError _) => True
  | _ => False
  end.

(** An architecture with its [layout.type] set. *)
Definition withLayoutType (t : string) (a : Architecture) : Architecture :=
  let cfg := default emptyLayoutConfig (layout a) in
  {| nodes := nodes a; connections := connections a; groups := groups a;
     layout := Some {| lc_type := Some t; lc_direction := lc_direction cfg;
                       lc_spacing := lc_spacing cfg |} |}.

Definition withRawLayoutType (t : string) (a : RawArchitecture) : RawArchitecture :=
  {| raw_nodes := raw_nodes a; raw_connections := raw_connections a;
     raw_groups := raw_groups a;
     raw_layout :=
       Some {| raw_type := Some t;
               raw_direction := raw_layout a ≫= raw_direction;
               raw_spacing := raw_layout a ≫= raw_spacing |} |}.

(** An architecture without the connection at one position. *)
Definition withConnections (cs : list Connection) (a : Architecture) : Architecture :=
  {| nodes := nodes a; connections := cs; groups := groups a; layout := layout a |}.

(** A connection to a node that does not exist, and the two-node
    architecture with it after the connection between the two nodes. *)
Definition danglingConnection : Connection :=
  {| conn_id := None; conn_from := "u"; conn_to := "ghost"; conn_type := "http";
     conn_label := None; conn_bidirectional := None |}.

Definition withDangling : Architecture :=
  {| nodes := [userNode; serviceNode];
     connections := [userToService; danglingConnection];
     groups := []; layout := None |}.

(** Two nodes of different widths and no connection: one rank. *)
Definition unconnectedPair : Architecture :=
  {| nodes := [userNode; serviceNode]; connections := []; groups := [];
     layout := None |}.

(** The width of a rank laid out along the cross axis: the own extent of
    every member and the spacing between neighbours; and where a rank of that
    width starts when it is centred on an axis of the given length. *)
Definition rankExtent (extent : PositionedNode → Q) (spacing : Spacing)
  (rank : list PositionedNode) : Q :=
  foldr (fun p acc => extent p + acc) 0 rank
  + (ofNat (length rank) - 1) * sp_node spacing.

Definition centredStart (axis : Q) (extent : PositionedNode → Q)
  (spacing : Spacing) (rank : list PositionedNode) : Q :=
  (axis - rankExtent extent spacing rank) / 2.


(** ** Vocabulary of the further properties *)

(** A rank laid out along an axis: its first member starts where a rank of
    its extent is centred on the axis, and each next member starts one node
    spacing after the end of the member before it. *)
Definition centredRank (axis : Q) (extent start : PositionedNode → Q)
  (spacing : Spacing) (rank : list PositionedNode) : Prop :=
  (∀ p, rank !! 0%nat = Some p →
        start p == centredStart axis extent spacing rank) ∧
  (∀ k p q, rank !! k = Some p → rank !! S k = Some q →
            start q == start p + extent p + sp_node spacing).

(** Two rectangles that share no interior point. *)
Definition apart (p q : PositionedNode) : Prop :=
  pn_x p + pn_width p <= pn_x q ∨ pn_x q + pn_width q <= pn_x p ∨
  pn_y p + pn_height p <= pn_y q ∨ pn_y q + pn_height q <= pn_y p.

(** The layout of an architecture without nodes. *)
Definition emptyLayout : Layout :=
  {| l_nodes := []; l_connections := []; l_groups := [];
     l_bounds := {| minX := 0; minY := 0; maxX := 0; maxY := 0;
                    bounds_width := 0; bounds_height := 0 |} |}.

(** Two rectangles side by side. *)
Definition leftBox : PositionedNode :=
  {| pn_node := userNode; pn_x := 100; pn_y := 100; pn_width := 120;
     pn_height := 80; pn_style := styleOf "actor" |}.

Definition rightBox : PositionedNode :=
  {| pn_node := serviceNode; pn_x := 400; pn_y := 120; pn_width := 140;
     pn_height := 80; pn_style := styleOf "service" |}.

(** [direction === 'TB' || direction === 'BT'] *)
Definition isVertical (direction : string) : Prop :=
  direction = "TB" ∨ direction = "BT".

(** The positioned rank of one layer in [positionNodesInLayers]. *)
Definition positionedRank (direction : string) (spacing : Spacing)
  (layerIndex : nat) (layer : list Node) : list PositionedNode :=
  imap (positionNode direction spacing (length layer) layerIndex) layer.

(** The two unconnected nodes and a second service, laid out by type. *)
Definition layeredTrio : Architecture :=
  {| nodes := [userNode; serviceNode;
               {| node_id := "t"; node_type := "service"; node_label := "Jobs" |}];
     connections := []; groups := [];
     layout := Some {| lc_type := Some "layered"; lc_direction := Some "TB";
                       lc_spacing := None |} |}.

(** Five services, for a grid of three columns. *)
Definition fiveServices : list Node :=
  (fun i => {| node_id := i; node_type := "service"; node_label := i |})
    <$> ["a"; "b"; "c"; "d"; "e"].

(** The connections that are drawn with a label: [if (connection.label)]. *)
Definition labelled (cs : list PositionedConnection) : list PositionedConnection :=
  filter (fun c => truthy (conn_label (pc_conn c)) = true) cs.

(** Where [renderNode] puts the text of a node: a box 20 high and as wide
    as the label at 9 units a character, but no wider than the node less
    20, centred on the node. *)
Definition nodeTextGeometry (node : PositionedNode) (chunk : list Element) : Prop :=
  ∃ shapeEl textEl textWidth,
    chunk = [shapeEl; textEl] ∧
    textWidth
    = Qmin (strLen (node_label (pn_node node)) * 9) (pn_width node - 20) ∧
    el_text textEl = Some (node_label (pn_node node)) ∧
    el_width textEl = textWidth ∧
    el_height textEl = 20 ∧
    el_x textEl = pn_x node + (pn_width node - textWidth) / 2 ∧
    el_y textEl = pn_y node + (pn_height node - 20) / 2.

(** Where [renderConnection] puts the arrow of a connection: the corner of
    its box is the least x and the least y of the two anchors, its two
    points are the corner and the target anchor relative to the corner. *)
Definition arrowGeometry (connection : PositionedConnection)
  (chunk : list Element) : Prop :=
  let f := jsFromPoint (pc_points connection) in
  let t := jsToPoint (pc_points connection) in
  ∃ arrowEl rest,
    chunk = arrowEl :: rest ∧
    el_x arrowEl = Math_min2 (js_x f) (js_x t) ∧
    el_y arrowEl = Math_min2 (js_y f) (js_y t) ∧
    el_width arrowEl = Math_abs (js_x t - js_x f)%js ∧
    el_height arrowEl = Math_abs (js_y t - js_y f)%js ∧
    el_points arrowEl
    = [(Num 0, Num 0);
       ((js_x t - Math_min2 (js_x f) (js_x t))%js,
        (js_y t - Math_min2 (js_y f) (js_y t))%js)] ∧
    el_endArrowhead arrowEl = Some "arrow".

(** The absolute position of a point of an element, and what it means for
    it to be a point with numbers for coordinates. *)
Definition absolutePoint (e : Element) (p : JsNumber * JsNumber) : JsPoint :=
  {| js_x := (el_x e + p.1)%js; js_y := (el_y e + p.2)%js |}.

Definition samePoint (p : JsPoint) (q : Point) : Prop :=
  isNumber (js_x p) (pt_x q) ∧ isNumber (js_y p) (pt_y q).

(** The layout of the two unconnected nodes, and the document rendered
    from it by a fresh renderer. *)
Definition pairLayout : Layout :=
  match generateLayout unconnectedPair with
  | Ok (l, _) => l
  | _ => emptyLayout
  end.

Definition pairElements : list Element :=
  elements (render sampleRuntime pairLayout freshWorld).1.

(** The same for the two nodes and the connection between them. *)
Definition linkedPair : Architecture :=
  {| nodes := [userNode; serviceNode]; connections := [userToService];
     groups := []; layout := None |}.

Definition linkedLayout : Layout :=
  match generateLayout linkedPair with
  | Ok (l, _) => l
  | _ => emptyLayout
  end.

Definition linkedElements : list Element :=
  elements (render sampleRuntime linkedLayout freshWorld).1.

(** ** The schema, read as a whole *)

(** The values the schema fills in for the optional keys. *)
Definition connectionDefaults (c : Connection) : Connection :=
  {| conn_id := conn_id c; conn_from := conn_from c; conn_to := conn_to c;
     conn_type := conn_type c; conn_label := conn_label c;
     conn_bidirectional := Some (default false (conn_bidirectional c)) |}.

Definition groupDefaults (g : Group) : Group :=
  {| group_id := group_id g; group_label := group_label g;
     group_contains := group_contains g;
     group_type := Some (default "boundary" (group_type g)) |}.

Definition layoutDefaults (l : RawLayout) : LayoutConfig :=
  {| lc_type := Some (default "hierarchical" (raw_type l));
     lc_direction := Some (default "TB" (raw_direction l));
     lc_spacing := SpacingSchema <$> raw_spacing l |}.

Definition filledIn (raw : RawArchitecture) : Architecture :=
  {| nodes := raw_nodes raw;
     connections := connectionDefaults <$> raw_connections raw;
     groups := groupDefaults <$> default [] (raw_groups raw);
     layout := layoutDefaults <$> raw_layout raw |}.

(** Every enumerated key that is present holds one of its values. *)
Definition validEnums (raw : RawArchitecture) : Prop :=
  Forall (fun n => node_type n ∈ NodeTypeSchema) (raw_nodes raw) ∧
  Forall (fun c => conn_type c ∈ ConnectionTypeSchema) (raw_connections raw) ∧
  Forall (fun g => default "boundary" (group_type g) ∈ GroupTypeSchema)
         (default [] (raw_groups raw)) ∧
  (∀ l, raw_layout raw = Some l →
        default "hierarchical" (raw_type l) ∈ LayoutTypeSchema ∧
        default "TB" (raw_direction l) ∈ DirectionSchema).

(** A validated architecture handed in again. *)
Definition toRaw (a : Architecture) : RawArchitecture :=
  {| raw_nodes := nodes a;
     raw_connections := connections a;
     raw_groups := Some (groups a);
     raw_layout :=
       (fun l => {| raw_type := lc_type l; raw_direction := lc_direction l;
                    raw_spacing :=
                      (fun s => {| raw_node := Some (sp_node s);
                                   raw_rank := Some (sp_rank s) |})
                        <$> lc_spacing l |})
         <$> layout a |}.

(** Two nodes with one id and a connection to a node that does not exist:
    no enumerated key is wrong. *)
Definition duplicateIds : RawArchitecture :=
  {| raw_nodes := [userNode; userNode];
     raw_connections := [danglingConnection];
     raw_groups := None; raw_layout := None |}.

(** ** generator.js: the templates *)

(** The [params] of a template: labels by name. *)
Definition Params : Type := gmap string string.

(** [params.key || dflt]: an absent or empty label gives the default. *)
Definition paramOr (params : Params) (key dflt : string) : string :=
  match params !! key with
  | Some v => if bool_decide (v = "") then dflt else v
  | None => dflt
  end.

Definition mkNode (i t l : string) : Node :=
  {| node_id := i; node_type := t; node_label := l |}.

Definition mkConnection (f t ty : string) (l : option string) : Connection :=
  {| conn_id := None; conn_from := f; conn_to := t; conn_type := ty;
     conn_label := l; conn_bidirectional := None |}.

Definition mkGroup (i l : string) (members : list string) : Group :=
  {| group_id := i; group_label := l; group_contains := members;
     group_type := None |}.

Definition mkLayout (t d : string) : RawLayout :=
  {| raw_type := Some t; raw_direction := Some d; raw_spacing := None |}.

(** ['three-tier'] with its three labels. *)
Definition threeTierOf (frontend backend database : string) : RawArchitecture :=
  {| raw_nodes :=
       [ mkNode "user" "actor" "User";
         mkNode "web" "ui" frontend;
         mkNode "api" "service" backend;
         mkNode "db" "database" database ];
     raw_connections :=
       [ mkConnection "user" "web" "http" (Some "Browse");
         mkConnection "web" "api" "http" (Some "API Calls");
         mkConnection "api" "db" "query" (Some "SQL") ];
     raw_groups :=
       Some [ mkGroup "frontend" "Frontend" ["web"];
              mkGroup "backend" "Backend" ["api"; "db"] ];
     raw_layout := Some (mkLayout "hierarchical" "TB") |}.

Definition threeTier (params : Params) : RawArchitecture :=
  threeTierOf (paramOr params "frontend" "Web App")
              (paramOr params "backend" "API Server")
              (paramOr params "database" "Database").

(** ['microservices'] *)
Definition microservices (params : Params) : RawArchitecture :=
  {| raw_nodes :=
       [ mkNode "user" "actor" "User";
         mkNode "gateway" "gateway" "API Gateway";
         mkNode "auth" "service" "Auth Service";
         mkNode "user-service" "service" "User Service";
         mkNode "order-service" "service" "Order Service";
         mkNode "queue" "queue" "Message Queue";
         mkNode "cache" "cache" "Redis";
         mkNode "db1" "database" "User DB";
         mkNode "db2" "database" "Order DB" ];
     raw_connections :=
       [ mkConnection "user" "gateway" "http" None;
         mkConnection "gateway" "auth" "http" None;
         mkConnection "gateway" "user-service" "http" None;
         mkConnection "gateway" "order-service" "http" None;
         mkConnection "user-service" "cache" "query" None;
         mkConnection "user-service" "db1" "query" None;
         mkConnection "order-service" "queue" "async" None;
         mkConnection "order-service" "db2" "query" None ];
     raw_groups :=
       Some [ mkGroup "services" "Microservices"
                ["auth"; "user-service"; "order-service"];
              mkGroup "data" "Data Layer" ["cache"; "db1"; "db2"] ];
     raw_layout := Some (mkLayout "layered" "TB") |}.

(** ['event-driven'] *)
Definition eventDriven (params : Params) : RawArchitecture :=
  {| raw_nodes :=
       [ mkNode "producer" "service" "Event Producer";
         mkNode "broker" "queue" "Event Broker";
         mkNode "consumer1" "service" "Consumer A";
         mkNode "consumer2" "service" "Consumer B";
         mkNode "store" "database" "Event Store" ];
     raw_connections :=
       [ mkConnection "producer" "broker" "async" (Some "Publish");
         mkConnection "broker" "consumer1" "async" (Some "Subscribe");
         mkConnection "broker" "consumer2" "async" (Some "Subscribe");
         mkConnection "broker" "store" "data_flow" (Some "Persist") ];
     raw_groups := None;
     raw_layout := Some (mkLayout "hierarchical" "LR") |}.

(** The object literal [templates] of [getTemplate]. *)
Definition templates : gmap string (Params → RawArchitecture) :=
  list_to_map [ ("three-tier", threeTier); ("microservices", microservices);
                ("event-driven", eventDriven) ].

(** A template is a function and is never installed as a prototype. *)
#[global] Instance template_object : JsObject (Params → RawArchitecture) :=
  fun _ => [].

(** [getTemplate]: [templates[templateName]] *)
Definition getTemplate (templateName : string)
  : Member (Params → RawArchitecture) :=
  member templates templateName.

(** [getAvailableTemplates] *)
Definition getAvailableTemplates : list string :=
  ["three-tier"; "microservices"; "event-driven"].

(** [template(params)] followed by [generateDiagram] when [template] is
    a member of [Object.prototype], called without a receiver.
    [constructor] is [Object], and [Object(params)] is [params], an object
    of labels without an array [nodes]; [toString] returns the string
    ["[object Undefined]"], which is no object; both fail validation.
    [__proto__] is no function, and each of the other members converts its
    receiver to an object first: a [TypeError]. *)
Definition callInherited (templateName : string) : JsError :=
  if bool_decide (templateName = "constructor") then ZodError "nodes"
  else if bool_decide (templateName = "toString") then ZodError EmptyString
  else if bool_decide (templateName = "__proto__")
       then TypeError "template is not a function"
  else TypeError "Cannot convert undefined or null to object".

(** [generateFromTemplate]: the message of the [Error] thrown for a name
    without a template, or the outcome of [generateDiagram]. *)
Definition generateFromTemplate (rt : Runtime) (templateName : string)
  (params : Params) (w : World)
  : string + result (Document * list string * World) :=
  match getTemplate templateName with
  | Falsy => inl ("Template '" +:+ templateName +:+ "' not found")
  | Entry template => inr (generateDiagram rt (template params) w)
  | Inherited => inr (Throw (callInherited templateName))
  end.

(** ** workflow/nodes.js: from the analysed components to the diagram *)

(** The [spacing] of a layout configuration: [selectLayout] writes a
    number in one branch and an object in the others. *)
Inductive SpacingValue :=
  | SpacingNumber (n : Q)
  | SpacingObject (node rank layer : option Q).

(** [layoutConfig] with the keys [selectLayout] uses. *)
Record WorkflowLayoutConfig := {
  wl_direction : option string;
  wl_columns : option nat;
  wl_layers : option string;
  wl_spacing : option SpacingValue
}.

(** [semanticDSL]; its layout is [{ type, ...layoutConfig }]. *)
Record SemanticDSL := {
  dsl_nodes : list Node;
  dsl_connections : list Connection;
  dsl_groups : option (list Group);
  dsl_type : option string;
  dsl_layout : WorkflowLayoutConfig
}.

(** The workflow state once components and relationships are identified. *)
Record WorkflowState := {
  ws_architectureType : option string;
  ws_nodes : list Node;
  ws_connections : list Connection;
  ws_layoutStrategy : option string;
  ws_layoutConfig : option WorkflowLayoutConfig;
  ws_semanticDSL : option SemanticDSL;
  ws_excalidrawData : option Document;
  ws_currentStep : string;
  ws_errors : list string;
  ws_retryCount : nat
}.

(** [selectLayout]: the rule-based choice of a strategy. *)
Definition selectLayout (state : WorkflowState) : WorkflowState :=
  let nodeCount := length (ws_nodes state) in
  let connectionCount := length (ws_connections state) in
  let '(layoutStrategy, layoutConfig) :=
    if bool_decide (ws_architectureType state = Some "microservices")
       && bool_decide (8 < nodeCount)%nat then
      ("grid",
       {| wl_direction := None; wl_columns := Some (ceil_sqrt nodeCount);
          wl_layers := None; wl_spacing := Some (SpacingNumber 120) |})
    else if bool_decide (ws_architectureType state = Some "layered") then
      ("layered",
       {| wl_direction := Some "TB"; wl_columns := None;
          wl_layers := Some "auto";
          wl_spacing := Some (SpacingObject (Some 100) None (Some 150)) |})
    else if Qltb (ofNat nodeCount * (3 # 2)) (ofNat connectionCount) then
      ("grid",
       {| wl_direction := None; wl_columns := ceil_div nodeCount 3;
          wl_layers := None;
          wl_spacing := Some (SpacingObject (Some 100) (Some 100) None) |})
    else
      ("hierarchical",
       {| wl_direction := Some "TB"; wl_columns := None; wl_layers := None;
          wl_spacing := Some (SpacingObject (Some 100) (Some 120) None) |})
  in
  {| ws_architectureType := ws_architectureType state;
     ws_nodes := ws_nodes state;
     ws_connections := ws_connections state;
     ws_layoutStrategy := Some layoutStrategy;
     ws_layoutConfig := Some layoutConfig;
     ws_semanticDSL := ws_semanticDSL state;
     ws_excalidrawData := ws_excalidrawData state;
     ws_currentStep := "generate_dsl";
     ws_errors := [];
     ws_retryCount := 0 |}.

(** [{ ...undefined }] is [{}]. *)
Definition emptyWorkflowLayoutConfig : WorkflowLayoutConfig :=
  {| wl_direction := None; wl_columns := None; wl_layers := None;
     wl_spacing := None |}.

(** [generateDSL] *)
Definition generateDSL (state : WorkflowState) : WorkflowState :=
  let serviceNodes :=
    node_id <$> filter (fun n => node_type n = "service") (ws_nodes state) in
  let groups :=
    if bool_decide (ws_architectureType state = Some "microservices")
       && bool_decide (2 < length serviceNodes)%nat
    then Some [ {| group_id := "services"; group_label := "Microservices";
                   group_contains := serviceNodes;
                   group_type := Some "cluster" |} ]
    else None in
  let semanticDSL :=
    {| dsl_nodes := ws_nodes state;
       dsl_connections := ws_connections state;
       dsl_groups := groups;
       dsl_type := ws_layoutStrategy state;
       dsl_layout := default emptyWorkflowLayoutConfig (ws_layoutConfig state) |} in
  {| ws_architectureType := ws_architectureType state;
     ws_nodes := ws_nodes state;
     ws_connections := ws_connections state;
     ws_layoutStrategy := ws_layoutStrategy state;
     ws_layoutConfig := ws_layoutConfig state;
     ws_semanticDSL := Some semanticDSL;
     ws_excalidrawData := ws_excalidrawData state;
     ws_currentStep := "render_diagram";
     ws_errors := [];
     ws_retryCount := 0 |}.

(** What [ArchitectureSchema] makes of the keys of the DSL before it looks
    at their values: [columns], [layers] and [spacing.layer] are not keys
    of the schema and are stripped; [spacing] must be an object, so a number
    is a violation. *)
Definition describeDSL (d : SemanticDSL) : JsError + RawArchitecture :=
  let describe (sp : option RawSpacing) :=
    {| raw_nodes := dsl_nodes d;
       raw_connections := dsl_connections d;
       raw_groups := dsl_groups d;
       raw_layout := Some {| raw_type := dsl_type d;
                             raw_direction := wl_direction (dsl_layout d);
                             raw_spacing := sp |} |} in
  match wl_spacing (dsl_layout d) with
  | Some (SpacingNumber _) => inl (ZodError "layout.spacing")
  | Some (SpacingObject n r _) =>
      inr (describe (Some {| raw_node := n; raw_rank := r |}))
  | None => inr (describe None)
  end.

Section Workflow.
Context (rt : Runtime).
(** [error.message] *)
Context (message : JsError → string).

Definition renderingFailed (state : WorkflowState) (error : JsError)
  : WorkflowState :=
  {| ws_architectureType := ws_architectureType state;
     ws_nodes := ws_nodes state;
     ws_connections := ws_connections state;
     ws_layoutStrategy := ws_layoutStrategy state;
     ws_layoutConfig := ws_layoutConfig state;
     ws_semanticDSL := ws_semanticDSL state;
     ws_excalidrawData := ws_excalidrawData state;
     ws_currentStep := ws_currentStep state;
     ws_errors := ws_errors state
                  ++ ["Diagram rendering failed: " +:+ message error];
     ws_retryCount := ws_retryCount state + 1 |}.

Definition rendered (state : WorkflowState) (excalidrawData : Document)
  : WorkflowState :=
  {| ws_architectureType := ws_architectureType state;
     ws_nodes := ws_nodes state;
     ws_connections := ws_connections state;
     ws_layoutStrategy := ws_layoutStrategy state;
     ws_layoutConfig := ws_layoutConfig state;
     ws_semanticDSL := ws_semanticDSL state;
     ws_excalidrawData := Some excalidrawData;
     ws_currentStep := "completed";
     ws_errors := [];
     ws_retryCount := 0 |}.

(** [renderDiagram]: a new generator, hence a renderer whose counter
    starts at 0, on the clock as it stands; an exception of
    [generateDiagram] becomes an entry of [errors]. *)
Definition renderDiagram (state : WorkflowState) (reads : nat)
  : option (WorkflowState * nat) :=
  match ws_semanticDSL state with
  | None => Some (renderingFailed state (ZodError EmptyString), reads)
  | Some dsl =>
      match describeDSL dsl with
      | inl error => Some (renderingFailed state error, reads)
      | inr description =>
          match generateDiagram rt description
                  {| idCounter := 0; clockReads := reads |} with
          | Ok (excalidrawData, _, w') =>
              Some (rendered state excalidrawData, clockReads w')
          | Throw error => Some (renderingFailed state error, reads)
          | OutOfFuel => None
          end
      end
  end.
End Workflow.

(** Nine services in a microservices architecture, and the two linked
    nodes as a workflow state. *)
Definition nineServices : WorkflowState :=
  {| ws_architectureType := Some "microservices";
     ws_nodes := (fun i => mkNode i "service" i)
                   <$> ["a"; "b"; "c"; "d"; "e"; "f"; "g"; "h"; "i"];
     ws_connections := [];
     ws_layoutStrategy := None; ws_layoutConfig := None;
     ws_semanticDSL := None; ws_excalidrawData := None;
     ws_currentStep := "select_layout"; ws_errors := []; ws_retryCount := 0 |}.

Definition linkedPairState : WorkflowState :=
  {| ws_architectureType := Some "layered";
     ws_nodes := [userNode; serviceNode];
     ws_connections := [userToService];
     ws_layoutStrategy := None; ws_layoutConfig := None;
     ws_semanticDSL := None; ws_excalidrawData := None;
     ws_currentStep := "select_layout"; ws_errors := []; ws_retryCount := 0 |}.


(** * Properties *)

(** ** Numbers *)

Lemma Qltb_lt a b : Qltb a b = true ↔ a < b.
Proof. unfold Qltb. rewrite Qlt_alt. destruct (a ?= b); intuition congruence. Qed.

Lemma Qltb_ge a b : Qltb a b = false ↔ b <= a.
Proof.
  rewrite <- not_true_iff_false, Qltb_lt. split.
  - apply Qnot_lt_le.
  - intros H1 H2. exact (Qle_not_lt _ _ H1 H2).
Qed.

Lemma half_mult (a : Q) : a / 2 = a * (1 # 2).
Proof. reflexivity. Qed.


(** ** The connection router *)

Section Router.
Variables f t : PositionedNode.
Hypothesis Hwf : 0 <= pn_width f.
Hypothesis Hhf : 0 <= pn_height f.
Hypothesis Hwt : 0 <= pn_width t.
Hypothesis Hht : 0 <= pn_height t.

Let cp := calculateOptimalConnectionPoints f t.
Let dx := centerX t - centerX f.
Let dy := centerY t - centerY f.




End Router.





(** ** Bounding boxes and groups *)

Lemma Math_min_lower x xs :
  Math_min x xs <= x ∧ ∀ y, y ∈ xs → Math_min x xs <= y.
Proof.
  unfold Math_min. revert x. induction xs as [|z zs IH]; intros x; cbn.
  - split; [apply Qle_refl|]. intros y Hy. by apply elem_of_nil in Hy.
  - destruct (IH (Qmin x z)) as [H1 H2]. split.
    + eapply Qle_trans; [exact H1|apply Q.le_min_l].
    + intros y [->|Hy]%elem_of_cons; [|by apply H2].
      eapply Qle_trans; [exact H1|apply Q.le_min_r].
Qed.

Lemma Math_min_attained x xs :
  Math_min x xs == x ∨ ∃ y, y ∈ xs ∧ Math_min x xs == y.
Proof.
  unfold Math_min. revert x. induction xs as [|z zs IH]; intros x; cbn.
  - left. reflexivity.
  - destruct (IH (Qmin x z)) as [H|(y & Hy & H)].
    + destruct (Q.min_spec x z) as [[_ Hm]|[_ Hm]].
      * left. by rewrite H, Hm.
      * right. exists z. split; [by left|]. by rewrite H, Hm.
    + right. exists y. split; [by right|done].
Qed.

Lemma Math_max_upper x xs :
  x <= Math_max x xs ∧ ∀ y, y ∈ xs → y <= Math_max x xs.
Proof.
  unfold Math_max. revert x. induction xs as [|z zs IH]; intros x; cbn.
  - split; [apply Qle_refl|]. intros y Hy. by apply elem_of_nil in Hy.
  - destruct (IH (Qmax x z)) as [H1 H2]. split.
    + eapply Qle_trans; [apply Q.le_max_l|exact H1].
    + intros y [->|Hy]%elem_of_cons; [|by apply H2].
      eapply Qle_trans; [apply Q.le_max_r|exact H1].
Qed.

Lemma Math_max_attained x xs :
  Math_max x xs == x ∨ ∃ y, y ∈ xs ∧ Math_max x xs == y.
Proof.
  unfold Math_max. revert x. induction xs as [|z zs IH]; intros x; cbn.
  - left. reflexivity.
  - destruct (IH (Qmax x z)) as [H|(y & Hy & H)].
    + destruct (Q.max_spec x z) as [[_ Hm]|[_ Hm]].
      * right. exists z. split; [by left|]. by rewrite H, Hm.
      * left. by rewrite H, Hm.
    + right. exists y. split; [by right|done].
Qed.

(** The bounds of a non-empty list are attained and enclose every member. *)
Lemma calculateBounds_union (ns : list PositionedNode) :
  ns ≠ [] →
  let b := calculateBounds ns in
  unionBox ns (minX b) (minY b) (maxX b - minX b) (maxY b - minY b) ∧
  bounds_width b = maxX b - minX b ∧ bounds_height b = maxY b - minY b.
Proof.
  destruct ns as [|n rest]; [done|]. intros _ b.
  split; [|done]. subst b. unfold unionBox. cbn.
  set (fr := fun m : PositionedNode => pn_x m + pn_width m).
  set (fb := fun m : PositionedNode => pn_y m + pn_height m).
  destruct (Math_min_lower (pn_x n) (pn_x <$> rest)) as [HxL HxR].
  destruct (Math_min_lower (pn_y n) (pn_y <$> rest)) as [HyL HyR].
  destruct (Math_max_upper (fr n) (fr <$> rest)) as [HrL HrR].
  destruct (Math_max_upper (fb n) (fb <$> rest)) as [HbL HbR].
  split; [|split; [|split; [|split]]].
  - intros m [->|Hm]%elem_of_cons.
    + subst fr fb; cbn in *. repeat split; lra.
    + specialize (HxR (pn_x m) ltac:(by apply list_elem_of_fmap_2)).
      specialize (HyR (pn_y m) ltac:(by apply list_elem_of_fmap_2)).
      specialize (HrR (fr m) ltac:(by apply (list_elem_of_fmap_2 fr))).
      specialize (HbR (fb m) ltac:(by apply (list_elem_of_fmap_2 fb))).
      subst fr fb; cbn in *. repeat split; lra.
  - destruct (Math_min_attained (pn_x n) (pn_x <$> rest)) as [H|(y & Hy & H)].
    + exists n. split; [by left|by symmetry].
    + apply list_elem_of_fmap in Hy as (m & -> & Hm).
      exists m. split; [by right|by symmetry].
  - destruct (Math_max_attained (fr n) (fr <$> rest)) as [H|(y & Hy & H)].
    + exists n. split; [by left|]. subst fr; cbn in *. lra.
    + apply list_elem_of_fmap in Hy as (m & -> & Hm).
      exists m. split; [by right|]. subst fr; cbn in *. lra.
  - destruct (Math_min_attained (pn_y n) (pn_y <$> rest)) as [H|(y & Hy & H)].
    + exists n. split; [by left|by symmetry].
    + apply list_elem_of_fmap in Hy as (m & -> & Hm).
      exists m. split; [by right|by symmetry].
  - destruct (Math_max_attained (fb n) (fb <$> rest)) as [H|(y & Hy & H)].
    + exists n. split; [by left|]. subst fb; cbn in *. lra.
    + apply list_elem_of_fmap in Hy as (m & -> & Hm).
      exists m. split; [by right|]. subst fb; cbn in *. lra.
Qed.

(** ** Reads on plain objects *)

Lemma member_Entry {A} `{JsObject A} (obj : gmap string A) k a :
  member obj k = Entry a ↔ obj !! k = Some a.
Proof.
  unfold member. destruct (obj !! k) as [b|]; [split; congruence|].
  split; [|done].
  destruct (obj !! "__proto__" ≫= _) as [[]|]; [done..|]. by case_bool_decide.
Qed.

Lemma member_own {A} `{JsObject A} (obj : gmap string A) k a :
  obj !! k = Some a → member obj k = Entry a.
Proof. apply member_Entry. Qed.

(** Without an installed prototype, a key under which nothing is stored
    is found exactly when it names a member of [Object.prototype]. *)
Lemma member_None {A} `{JsObject A} (obj : gmap string A) k :
  obj !! "__proto__" = None → obj !! k = None →
  member obj k = if bool_decide (k ∈ objectPrototype) then Inherited else Falsy.
Proof. unfold member. by intros -> ->. Qed.

Lemma member_truthy {A} `{JsObject A} (obj : gmap string A) k :
  obj !! "__proto__" = None →
  isTruthy (member obj k) = true ↔ is_Some (obj !! k) ∨ k ∈ objectPrototype.
Proof.
  intros Hp. destruct (obj !! k) as [a|] eqn:E.
  - rewrite (member_own _ _ _ E). split; [by left; eexists|done].
  - rewrite (member_None _ _ Hp E). case_bool_decide; cbn.
    + split; [by right|done].
    + split; [done|]. by intros [[]|].
Qed.

(** [nodeMap[i]] is the last positioned node whose id is [i]. *)
Lemma buildNodeMap_snoc ps p :
  buildNodeMap (ps ++ [p]) = <[pn_id p := p]> (buildNodeMap ps).
Proof. unfold buildNodeMap. by rewrite foldl_app. Qed.

Lemma buildNodeMap_resolvesTo ps i :
  buildNodeMap ps !! i = resolvesTo ps i.
Proof.
  unfold resolvesTo. induction ps as [|q ps IH] using rev_ind; [done|].
  rewrite buildNodeMap_snoc, filter_app, lookup_insert.
  rewrite filter_cons, filter_nil. case_decide as Hq.
  - by rewrite last_snoc.
  - by rewrite app_nil_r.
Qed.

Lemma buildNodeMap_Some ps i p :
  buildNodeMap ps !! i = Some p → p ∈ ps ∧ pn_id p = i.
Proof.
  induction ps as [|q ps IH] using rev_ind.
  - unfold buildNodeMap; cbn. by rewrite lookup_empty.
  - rewrite buildNodeMap_snoc, lookup_insert. case_decide as Hi.
    + intros [= <-]. split; [|done]. apply elem_of_app. right. by left.
    + intros [H1 H2]%IH. split; [|done]. apply elem_of_app. by left.
Qed.

Lemma buildNodeMap_resolves ps i :
  resolves ps i ↔ is_Some (buildNodeMap ps !! i).
Proof.
  split.
  - intros (p & Hp & <-).
    induction ps as [|q ps IH] using rev_ind; [by apply elem_of_nil in Hp|].
    rewrite buildNodeMap_snoc, lookup_insert. case_decide; [by eexists|].
    apply IH. apply elem_of_app in Hp as [Hp|Hp]; [done|].
    apply list_elem_of_singleton in Hp. by subst.
  - intros [p Hp]. apply buildNodeMap_Some in Hp as [? ?]. by exists p.
Qed.

Lemma resolvesTo_Some ps i p :
  resolvesTo ps i = Some p → p ∈ ps ∧ pn_id p = i.
Proof. rewrite <- buildNodeMap_resolvesTo. apply buildNodeMap_Some. Qed.

Lemma resolvesTo_resolves ps i :
  resolves ps i ↔ is_Some (resolvesTo ps i).
Proof. rewrite <- buildNodeMap_resolvesTo. apply buildNodeMap_resolves. Qed.

(** What a read on the node map returns. *)
Lemma nodeMap_member_Entry ps i p :
  member (buildNodeMap ps) i = Entry p ↔ resolvesTo ps i = Some p.
Proof. by rewrite member_Entry, buildNodeMap_resolvesTo. Qed.

Lemma nodeMap_member_other ps i :
  ¬ resolves ps "__proto__" → ¬ resolves ps i →
  member (buildNodeMap ps) i
  = if bool_decide (i ∈ objectPrototype) then Inherited else Falsy.
Proof.
  intros Hp Hi. apply member_None.
  - apply eq_None_not_Some. by rewrite <- buildNodeMap_resolves.
  - apply eq_None_not_Some. by rewrite <- buildNodeMap_resolves.
Qed.

Lemma nodeMap_member_truthy ps i :
  ¬ resolves ps "__proto__" →
  isTruthy (member (buildNodeMap ps) i) = true ↔
  resolves ps i ∨ i ∈ objectPrototype.
Proof.
  intros Hp. rewrite member_truthy, <- buildNodeMap_resolves; [done|].
  apply eq_None_not_Some. by rewrite <- buildNodeMap_resolves.
Qed.

Lemma resolvedMembers_spec ps g m :
  m ∈ resolvedMembers ps g ↔
  ∃ i, i ∈ group_contains g ∧ resolvesTo ps i = Some m.
Proof. unfold resolvedMembers. apply list_elem_of_omap. Qed.

Lemma resolvedMembers_nil ps g :
  resolvedMembers ps g = [] ↔ ∀ i, i ∈ group_contains g → ¬ resolves ps i.
Proof.
  split.
  - intros Hnil i Hi [m Hm]%resolvesTo_resolves.
    assert (m ∈ resolvedMembers ps g) as Hin by (apply resolvedMembers_spec; eauto).
    rewrite Hnil in Hin. by apply elem_of_nil in Hin.
  - intros Hno. destruct (resolvedMembers ps g) as [|m ms] eqn:E; [done|].
    assert (m ∈ resolvedMembers ps g) as Hin by (rewrite E; by left).
    apply resolvedMembers_spec in Hin as (i & Hi & Hm).
    destruct (Hno i Hi). apply resolvesTo_resolves. by eexists.
Qed.

Lemma positionedOnly_entries ps :
  positionedOnly (Entry <$> ps) = Some ps.
Proof. induction ps as [|p ps IH]; [done|]. cbn. by rewrite IH. Qed.

Lemma positionedOnly_Some ms ps :
  positionedOnly ms = Some ps → ms = Entry <$> ps.
Proof.
  revert ps. induction ms as [|[p| |] ms IH]; intros ps; cbn; [by intros [= <-]| |done..].
  destruct (positionedOnly ms) as [qs|]; [|done]. cbn. intros [= <-].
  by rewrite (IH qs).
Qed.

(** When no member of the group is an inherited name, the values the group
    contains are the positioned nodes its member ids resolve to. *)
Lemma containedNodes_plain ps g :
  ¬ resolves ps "__proto__" →
  (∀ i, i ∈ group_contains g → ¬ inheritedName ps i) →
  containedNodes (buildNodeMap ps) g = Entry <$> resolvedMembers ps g.
Proof.
  intros Hp. unfold containedNodes, resolvedMembers.
  induction (group_contains g) as [|i rest IH]; intros Hplain; [done|].
  rewrite fmap_cons, filter_cons. cbn [omap list_omap].
  rewrite IH by (intros j Hj; apply Hplain; by right). clear IH.
  destruct (resolvesTo ps i) as [p|] eqn:E.
  - rewrite (proj2 (nodeMap_member_Entry ps i p) E). by rewrite decide_True.
  - assert (¬ resolves ps i) as Hno.
    { rewrite resolvesTo_resolves, E. by intros []. }
    rewrite (nodeMap_member_other _ _ Hp Hno).
    rewrite bool_decide_eq_false_2; [by rewrite decide_False|].
    intros Hin. apply (Hplain i); [by left|]. by split.
Qed.

(** The values a group contains are the nodes and the inherited members
    its member names find, in order. *)
Lemma containedNodes_nil ps g :
  ¬ resolves ps "__proto__" →
  containedNodes (buildNodeMap ps) g = [] ↔
  ∀ i, i ∈ group_contains g → ¬ resolves ps i ∧ i ∉ objectPrototype.
Proof.
  intros Hp. unfold containedNodes. split.
  - intros Hnil i Hi.
    assert (¬ (resolves ps i ∨ i ∈ objectPrototype)) as Hno; [|tauto].
    rewrite <- (nodeMap_member_truthy _ _ Hp). intros Ht.
    assert (member (buildNodeMap ps) i ∈ ([] : list (Member PositionedNode))) as Hin;
      [|by apply elem_of_nil in Hin].
    rewrite <- Hnil. apply list_elem_of_filter. split; [done|].
    by apply list_elem_of_fmap_2.
  - intros Hno.
    destruct (filter _ _) as [|m ms] eqn:E; [done|].
    assert (m ∈ m :: ms) as Hin by (by left). rewrite <- E in Hin.
    apply list_elem_of_filter in Hin as [Ht (i & -> & Hi)%list_elem_of_fmap].
    apply (nodeMap_member_truthy _ _ Hp) in Ht. destruct (Hno i Hi). tauto.
Qed.

Lemma positionGroup_plain ps g :
  ¬ resolves ps "__proto__" →
  (∀ i, i ∈ group_contains g → ¬ inheritedName ps i) →
  positionGroup (buildNodeMap ps) g
  = match resolvedMembers ps g with
    | [] => None
    | members =>
        let bounds := calculateBounds members in
        Some {| pg_group := g;
                pg_x := minX bounds - group_padding;
                pg_y := minY bounds - group_padding;
                pg_width := bounds_width bounds + 2 * group_padding;
                pg_height := bounds_height bounds + 2 * group_padding |}
    end.
Proof.
  intros Hp Hplain. unfold positionGroup.
  rewrite (containedNodes_plain _ _ Hp Hplain).
  destruct (resolvedMembers ps g) as [|m ms]; [done|].
  rewrite positionedOnly_entries. by rewrite fmap_cons.
Qed.

(** The box of a group without inherited members: its rectangle shrunk by
    20 on each side is the union bounding box of the member rectangles. *)
Lemma positionGroup_Some_box ps g pg :
  ¬ resolves ps "__proto__" →
  (∀ i, i ∈ group_contains g → ¬ inheritedName ps i) →
  positionGroup (buildNodeMap ps) g = Some pg →
  pg_group pg = g ∧ resolvedMembers ps g ≠ [] ∧
  ∃ x y w h,
    pg_x pg = Num x ∧ pg_y pg = Num y ∧
    pg_width pg = Num w ∧ pg_height pg = Num h ∧
    unionBox (resolvedMembers ps g) (x + 20) (y + 20) (w - 40) (h - 40).
Proof.
  intros Hp Hplain. rewrite (positionGroup_plain _ _ Hp Hplain).
  destruct (resolvedMembers ps g) as [|m ms] eqn:E; [done|].
  intros [= <-]. split; [done|]. split; [done|].
  destruct (calculateBounds_union (m :: ms) ltac:(done)) as [Hbox _].
  cbn [pg_x pg_y pg_width pg_height]. unfold group_padding.
  eexists _, _, _, _. split_and!; [reflexivity..|].
  cbn in Hbox.
  destruct Hbox as (Hall & (m1 & ? & H1) & (m2 & ? & H2) & (m3 & ? & H3) & (m4 & ? & H4)).
  cbn. split; [|split; [|split; [|split]]].
  - intros m' Hm'. destruct (Hall m' Hm') as (? & ? & ? & ?). repeat split; lra.
  - exists m1. split; [done|lra].
  - exists m2. split; [done|lra].
  - exists m3. split; [done|lra].
  - exists m4. split; [done|lra].
Qed.

(** A group is omitted exactly when none of its member names is found. *)
Lemma positionGroup_None ps g :
  ¬ resolves ps "__proto__" →
  positionGroup (buildNodeMap ps) g = None ↔
  ∀ i, i ∈ group_contains g → ¬ resolves ps i ∧ i ∉ objectPrototype.
Proof.
  intros Hp. rewrite <- (containedNodes_nil _ _ Hp). unfold positionGroup.
  destruct (containedNodes (buildNodeMap ps) g) as [|m ms]; [done|].
  split; [|done]. by destruct (positionedOnly (m :: ms)).
Qed.

(** C9, on the code.  In the two-node scenario with a group whose one
    member is ["valueOf"], no member of the group resolves to a positioned
    node, yet the group is positioned: the read [nodeMap["valueOf"]] returns
    the function that every object inherits, [filter(Boolean)] keeps it, and
    the bounds computed from it are not numbers.  The document holds the
    dashed rectangle of the group, whose position and size are [NaN]. *)
Theorem inherited_member_positions_the_group :
  ∃ a l warnings pg doc w' box,
    ArchitectureSchema_parse withInheritedMember = Ok a ∧
    generateLayout a = Ok (l, warnings) ∧
    l_groups l = [pg] ∧
    group_contains (pg_group pg) = ["valueOf"] ∧
    resolvedMembers (l_nodes l) (pg_group pg) = [] ∧
    pg_x pg = NaN ∧ pg_y pg = NaN ∧ pg_width pg = NaN ∧ pg_height pg = NaN ∧
    generateDiagram sampleRuntime withInheritedMember freshWorld
    = Ok (doc, warnings, w') ∧
    box ∈ elements doc ∧
    el_type box = EXCALIDRAW_RECTANGLE ∧ el_strokeStyle box = "dashed" ∧
    el_x box = NaN ∧ el_y box = NaN ∧ el_width box = NaN ∧ el_height box = NaN.
Proof.
  eexists _, _, _, _, _, _, _.
  split; [by vm_compute|]. split; [by vm_compute|]. split; [reflexivity|].
  split; [reflexivity|]. split; [by vm_compute|].
  do 4 (split; [reflexivity|]).
  split; [by vm_compute|]. split; [cbn [elements]; left|].
  by split_and!.
Qed.

(** ** Grid layout *)

Lemma inject_Z_lt_iff a b : (a < b)%Z ↔ inject_Z a < inject_Z b.
Proof. unfold Qlt; cbn. by rewrite !Z.mul_1_r. Qed.

Lemma inject_Z_le_iff a b : (a ≤ b)%Z ↔ inject_Z a <= inject_Z b.
Proof. unfold Qle; cbn. by rewrite !Z.mul_1_r. Qed.

Lemma ofNat_pos n : (0 < n)%nat → 0 < ofNat n.
Proof. intros H. apply (proj1 (inject_Z_lt_iff 0 (Z.of_nat n))). lia. Qed.

Lemma ofNat_le n m : (n ≤ m)%nat ↔ ofNat n <= ofNat m.
Proof. unfold ofNat. rewrite <- inject_Z_le_iff. lia. Qed.

Lemma ceil_sqrt_spec n :
  let c := ceil_sqrt n in
  (n ≤ c * c)%nat ∧ ((0 < n)%nat → ((c - 1) * (c - 1) < n)%nat).
Proof.
  intros c. subst c. unfold ceil_sqrt.
  destruct n as [|n]; [cbn; split; [done|lia]|].
  pose proof (Nat.sqrt_up_spec (S n) ltac:(lia)) as [H1 H2].
  rewrite <- Nat.sub_1_r in H1. split; [exact H2|]. intros _. exact H1.
Qed.

Lemma ceil_div_spec n cols :
  (0 < cols)%nat →
  ∃ r, ceil_div n cols = Some r ∧ (n ≤ r * cols)%nat ∧
       ((0 < n)%nat → ((r - 1) * cols < n)%nat).
Proof.
  intros Hc. unfold ceil_div. destruct cols as [|k]; [lia|].
  set (c := S k) in *. eexists; split; [reflexivity|].
  set (q := ofNat n / ofNat c). set (z := Qceiling q).
  assert (Hcpos : 0 < ofNat c) by (by apply ofNat_pos).
  assert (Hq : q * ofNat c == ofNat n).
  { subst q. field. intros E. rewrite E in Hcpos. by apply Qlt_irrefl in Hcpos. }
  assert (Hup : q <= inject_Z z) by apply Qle_ceiling.
  assert (Hlo : inject_Z (z - 1) < q) by apply Qceiling_lt.
  assert (Hqnn : 0 <= q).
  { subst q. apply Qle_shift_div_l; [done|]. rewrite Qmult_0_l.
    change 0 with (ofNat 0). apply ofNat_le. lia. }
  assert (Hz : (0 ≤ z)%Z).
  { apply (proj2 (inject_Z_le_iff 0 z)). eapply Qle_trans; [exact Hqnn|exact Hup]. }
  assert (H1 : (Z.of_nat n ≤ z * Z.of_nat c)%Z).
  { apply (proj2 (inject_Z_le_iff _ _)). rewrite inject_Z_mult. fold (ofNat n) (ofNat c).
    rewrite <- Hq. apply Qmult_le_compat_r; [done|by apply Qlt_le_weak]. }
  assert (H2 : ((z - 1) * Z.of_nat c < Z.of_nat n)%Z).
  { apply (proj2 (inject_Z_lt_iff _ _)). rewrite inject_Z_mult. fold (ofNat n) (ofNat c).
    rewrite <- Hq. by apply Qmult_lt_compat_r. }
  split; [nia|]. intros Hn. nia.
Qed.

Lemma gridNode_lookup ns cols spacing i node :
  ns !! i = Some node →
  imap (gridNode cols spacing) ns !! i = Some (gridNode cols spacing i node).
Proof. intros H. by rewrite list_lookup_imap, H. Qed.

(** C8.  Under grid layout of [n] nodes the number of columns is the
    ceiling of the square root of [n] (the least [c] with [n <= c * c]) and,
    for [n > 0], the number of rows is the ceiling of [n / columns] (the
    least [r] with [n <= r * columns]).  The node at input index [i] is the
    [i]-th positioned node and sits in row [i / columns], column
    [i mod columns]: its row is below the number of rows, its column below
    the number of columns, and its corner is the canvas padding plus the
    column (row) times its own width (height) plus the node (rank) spacing.
    For [n = 9] the grid is 3 by 3, for [n = 10] it is 4 columns by 3
    rows. *)
Theorem grid_dimensions_and_placement (ns : list Node) (cs : list Connection)
  (gs : list Group) (cfg : LayoutConfig) :
  let n := length ns in
  let cols := gridCols ns in
  let spacing := spacingOr {| sp_node := 80; sp_rank := 100 |} cfg in
  let positioned := l_nodes (generateGridLayout ns cs gs cfg).1 in
  ((n ≤ cols * cols)%nat ∧ ((0 < n)%nat → ((cols - 1) * (cols - 1) < n)%nat)) ∧
  ((0 < n)%nat →
     ∃ rows, gridRows ns = Some rows ∧
             (n ≤ rows * cols)%nat ∧ ((rows - 1) * cols < n)%nat ∧
             ∀ i, (i < n)%nat → (i / cols < rows)%nat ∧ (i mod cols < cols)%nat) ∧
  length positioned = n ∧
  (∀ i node, ns !! i = Some node →
     ∃ p, positioned !! i = Some p ∧ pn_node p = node ∧
          let row := (i / cols)%nat in
          let col := (i mod cols)%nat in
          let style := styleOf (node_type node) in
          i = (row * cols + col)%nat ∧
          pn_x p = canvas_padding canvas + ofNat col * (width style + sp_node spacing) ∧
          pn_y p = canvas_padding canvas + ofNat row * (height style + sp_rank spacing) ∧
          pn_width p = width style ∧ pn_height p = height style) ∧
  (n = 9%nat → cols = 3%nat ∧ gridRows ns = Some 3%nat) ∧
  (n = 10%nat → cols = 4%nat ∧ gridRows ns = Some 3%nat).
Proof.
  intros n cols spacing positioned.
  assert (Hpos : positioned = imap (gridNode cols spacing) ns).
  { subst positioned. unfold generateGridLayout, finishLayout.
    by destruct (calculateConnectionPaths _ _). }
  pose proof (ceil_sqrt_spec n) as Hc. cbn zeta in Hc.
  change (ceil_sqrt n) with cols in Hc.
  assert (Hcols : (0 < n)%nat → (0 < cols)%nat).
  { intros Hn. destruct Hc as [Hc _]. destruct cols; [lia|lia]. }
  split; [exact Hc|]. split; [|split; [|split; [|split]]].
  - intros Hn.
    destruct (ceil_div_spec n cols (Hcols Hn)) as (r & Hr & H1 & H2).
    exists r. split; [exact Hr|]. split; [exact H1|]. split; [by apply H2|].
    intros i Hi. split.
    + apply Nat.Div0.div_lt_upper_bound. lia.
    + apply Nat.mod_upper_bound. specialize (Hcols Hn). lia.
  - rewrite Hpos. apply length_imap.
  - intros i node Hi. exists (gridNode cols spacing i node).
    rewrite Hpos. split; [by apply gridNode_lookup|]. split; [done|].
    cbn zeta. split; [|done].
    rewrite (Nat.div_mod_eq i cols) at 1. lia.
  - intros Hn. unfold cols, gridRows, gridCols. fold n. by rewrite Hn.
  - intros Hn. unfold cols, gridRows, gridCols. fold n. by rewrite Hn.
Qed.

Lemma grid_dimensions_witness :
  let n := {| node_id := "n"; node_type := "service"; node_label := "N" |} in
  gridCols (replicate 10 n) = 4%nat ∧ gridRows (replicate 10 n) = Some 3%nat.
Proof.
  intros n.
  exact (proj2 (proj2 (proj2 (proj2 (proj2
    (grid_dimensions_and_placement (replicate 10 n) [] [] emptyLayoutConfig)))))
    eq_refl).
Defined.


(** ** The dependency graph *)

Local Close Scope Q_scope.

Lemma initialGraph_lookup ns i :
  initialGraph ns !! i
  = if bool_decide (i ∈ nodeIds ns)
    then Some {| incoming := []; outgoing := [] |} else None.
Proof.
  unfold initialGraph. induction ns as [|n ns IH] using rev_ind.
  - cbn. rewrite lookup_empty. by rewrite bool_decide_eq_false_2 by set_solver.
  - rewrite foldl_app. cbn. rewrite lookup_insert, IH. unfold nodeIds.
    rewrite fmap_app, list_to_set_app_L. cbn.
    destruct (decide (node_id n = i)); repeat case_bool_decide; try done; set_solver.
Qed.

Lemma addEdges_app g cs1 cs2 :
  addEdges g (cs1 ++ cs2) = g' ← addEdges g cs1; addEdges g' cs2.
Proof.
  revert g. induction cs1 as [|c cs1 IH]; intros g; [done|].
  cbn [app addEdges]. destruct (addEdge g c) as [g1| |]; [|done..].
  apply IH.
Qed.

Lemma buildDependencyGraph_snoc ns cs c :
  buildDependencyGraph ns (cs ++ [c])
  = G ← buildDependencyGraph ns cs; addEdge G c.
Proof.
  unfold buildDependencyGraph. rewrite addEdges_app.
  destruct (addEdges (initialGraph ns) cs) as [g| |]; [|done..].
  cbn. by destruct (addEdge g c).
Qed.

(** What a read on a graph with an entry per node id finds. *)
Lemma graph_member_truthy ns (g : gmap string GraphEntry) k :
  (∀ i, is_Some (g !! i) ↔ i ∈ nodeIds ns) →
  isTruthy (member g k) = true ↔ foundInGraph ns k.
Proof.
  intros Hdom. unfold foundInGraph, member.
  destruct (g !! k) as [e|] eqn:Ek.
  { split; [|done]. intros _. left. apply Hdom. by eexists. }
  assert (k ∉ nodeIds ns) as Hk.
  { rewrite <- Hdom, Ek. by intros []. }
  destruct (g !! "__proto__") as [e|] eqn:Ep.
  - assert ("__proto__" ∈ nodeIds ns) as Hp by (apply Hdom; by eexists).
    cbn. unfold ownProperties, GraphEntry_object.
    destruct (decide (k = "incoming")) as [->|Hi]; [split; [tauto|done]|].
    destruct (decide (k = "outgoing")) as [->|Ho]; [split; [tauto|done]|].
    rewrite !lookup_insert_ne, lookup_empty by done.
    case_bool_decide; cbn; [split; [tauto|done]|].
    split; [done|]. tauto.
  - assert ("__proto__" ∉ nodeIds ns) as Hp.
    { rewrite <- Hdom, Ep. by intros []. }
    cbn. case_bool_decide; cbn; [split; [tauto|done]|].
    split; [done|]. tauto.
Qed.

Lemma graph_member_Entry ns (g : gmap string GraphEntry) k :
  (∀ i, is_Some (g !! i) ↔ i ∈ nodeIds ns) →
  (∃ e, member g k = Entry e) ↔ k ∈ nodeIds ns.
Proof.
  intros Hdom. rewrite <- Hdom. split.
  - intros [e He%member_Entry]. by eexists.
  - intros [e He]. exists e. by apply member_Entry.
Qed.

(** The three outcomes of one connection. *)
Lemma addEdge_cases ns (g : gmap string GraphEntry) c :
  (∀ i, is_Some (g !! i) ↔ i ∈ nodeIds ns) →
  (isEdge ns c ∧ addEdge g c = Ok (pushEdge g c)) ∨
  (¬ isEdge ns c ∧ ¬ breaksGraph ns c ∧ addEdge g c = Ok g) ∨
  (breaksGraph ns c ∧ ∃ msg, addEdge g c = Throw (TypeError msg)).
Proof.
  intros Hdom. unfold addEdge, breaksGraph, isEdge.
  pose proof (graph_member_truthy ns g (conn_from c) Hdom) as Hf.
  pose proof (graph_member_truthy ns g (conn_to c) Hdom) as Ht.
  pose proof (graph_member_Entry ns g (conn_from c) Hdom) as Ef.
  pose proof (graph_member_Entry ns g (conn_to c) Hdom) as Et.
  destruct (member g (conn_from c)) as [ef| |] eqn:Mf;
    destruct (member g (conn_to c)) as [et| |] eqn:Mt; cbn in *.
  - left. split; [|done]. split; [apply Ef|apply Et]; by eexists.
  - right. right. split; [|by eexists]. naive_solver.
  - right. left. naive_solver.
  - right. right. split; [|by eexists]. naive_solver.
  - right. right. split; [|by eexists]. naive_solver.
  - right. left. naive_solver.
  - right. left. naive_solver.
  - right. left. naive_solver.
  - right. left. naive_solver.
Qed.

Lemma edgesInto_snoc ns cs c i :
  edgesInto ns (cs ++ [c]) i
  = edgesInto ns cs i ++ (if decide (conn_to c = i ∧ isEdge ns c) then [c] else []).
Proof.
  unfold edgesInto. rewrite filter_app, filter_cons, filter_nil.
  by destruct (decide _).
Qed.

Lemma edgesOutOf_snoc ns cs c i :
  edgesOutOf ns (cs ++ [c]) i
  = edgesOutOf ns cs i ++ (if decide (conn_from c = i ∧ isEdge ns c) then [c] else []).
Proof.
  unfold edgesOutOf. rewrite filter_app, filter_cons, filter_nil.
  by destruct (decide _).
Qed.

(** The entry of a node id lists the sources of the edges into it and the
    targets of the edges out of it, in connection order; other keys have no
    entry. *)
Lemma buildDependencyGraph_lookup ns cs G i :
  buildDependencyGraph ns cs = Ok G →
  G !! i
  = if bool_decide (i ∈ nodeIds ns)
    then Some {| incoming := conn_from <$> edgesInto ns cs i;
                 outgoing := conn_to <$> edgesOutOf ns cs i |}
    else None.
Proof.
  revert G i. induction cs as [|c cs IH] using rev_ind; intros G i.
  - unfold buildDependencyGraph. cbn. intros [= <-]. apply initialGraph_lookup.
  - rewrite buildDependencyGraph_snoc, edgesInto_snoc, edgesOutOf_snoc.
    destruct (buildDependencyGraph ns cs) as [G'| |]; [|done..].
    pose proof (fun j => IH G' j eq_refl) as IH'. clear IH. rename IH' into IH.
    cbn. intros HG.
    assert (Hdom : ∀ i, is_Some (G' !! i) ↔ i ∈ nodeIds ns).
    { intros j. rewrite (IH j). case_bool_decide; [by split; [|eexists]|].
      split; [by intros []|done]. }
    destruct (addEdge_cases ns G' c Hdom)
      as [[He Hadd]|[(He & _ & Hadd)|(_ & msg & Hadd)]];
      rewrite Hadd in HG; [| |done]; injection HG as <-.
    + unfold pushEdge. destruct He as [Hf Ht].
      rewrite !lookup_alter.
      destruct (decide (conn_to c = i)) as [E1|E1],
               (decide (conn_from c = i)) as [E2|E2];
        rewrite ?IH;
        repeat (case_decide; try (unfold isEdge in *; tauto); try congruence);
        subst;
        rewrite ?(bool_decide_eq_true_2 _ Hf), ?(bool_decide_eq_true_2 _ Ht);
        cbn; rewrite ?fmap_app, ?app_nil_r; try done.
      cbn. congruence.
    + rewrite !(decide_False (P := _ ∧ isEdge ns c)) by tauto.
      rewrite !app_nil_r. apply IH.
Qed.

Lemma buildDependencyGraph_dom ns cs G :
  buildDependencyGraph ns cs = Ok G →
  ∀ i, is_Some (G !! i) ↔ i ∈ nodeIds ns.
Proof.
  intros HG i. rewrite (buildDependencyGraph_lookup _ _ _ i HG).
  case_bool_decide; [by split; [|eexists]|]. split; [by intros []|done].
Qed.

(** The graph is built unless a connection breaks it; then the exception
    is a [TypeError]. *)
Lemma buildDependencyGraph_Ok ns cs :
  Forall (fun c => ¬ breaksGraph ns c) cs →
  ∃ G, buildDependencyGraph ns cs = Ok G.
Proof.
  induction cs as [|c cs IH] using rev_ind; [by eexists|].
  intros [Hcs [Hc _]%Forall_cons]%Forall_app.
  destruct (IH Hcs) as [G' HG']. rewrite buildDependencyGraph_snoc, HG'. cbn.
  destruct (addEdge_cases ns G' c (buildDependencyGraph_dom _ _ _ HG'))
    as [[_ ->]|[(_ & _ & ->)|(? & _)]]; [by eexists..|by destruct Hc].
Qed.

Lemma buildDependencyGraph_Throw ns cs :
  Exists (breaksGraph ns) cs →
  ∃ msg, buildDependencyGraph ns cs = Throw (TypeError msg).
Proof.
  induction cs as [|c cs IH] using rev_ind; [by intros ?%Exists_nil|].
  intros Hex. rewrite buildDependencyGraph_snoc.
  destruct (buildDependencyGraph ns cs) as [G'| |] eqn:HG'.
  - cbn. apply Exists_app in Hex as [Hex|Hex%Exists_cons].
    + destruct (IH Hex) as [? ?]. done.
    + destruct Hex as [Hc|?%Exists_nil]; [|done].
      destruct (addEdge_cases ns G' c (buildDependencyGraph_dom _ _ _ HG'))
        as [[He _]|[(_ & ? & _)|(_ & Hm)]]; [|done..].
      destruct Hc as (_ & _ & ?). done.
  - cbn. destruct (decide (Exists (breaksGraph ns) cs)) as [H|H].
    + destruct (IH H) as [msg Hm]. exists msg. congruence.
    + apply not_Exists_Forall in H; [|intros ?; apply _].
      destruct (buildDependencyGraph_Ok ns cs) as [? ?]; [|congruence].
      eapply Forall_impl; [exact H|]. by intros ? ?.
  - exfalso. clear -HG'. unfold buildDependencyGraph in HG'.
    revert HG'. generalize (initialGraph ns).
    induction cs as [|c cs IH]; intros g; [done|]. cbn.
    destruct (addEdge g c) as [g'| |] eqn:E; cbn; [by apply IH| done|].
    unfold addEdge in E. by repeat case_match.
Qed.

Lemma graph_incoming ns cs G i e :
  buildDependencyGraph ns cs = Ok G →
  G !! i = Some e →
  i ∈ nodeIds ns ∧ incoming e = conn_from <$> edgesInto ns cs i ∧
  outgoing e = conn_to <$> edgesOutOf ns cs i.
Proof.
  intros HG. rewrite (buildDependencyGraph_lookup _ _ _ _ HG).
  case_bool_decide; [|done]. by intros [= <-].
Qed.

Lemma graph_defined ns cs G n :
  buildDependencyGraph ns cs = Ok G →
  n ∈ ns → is_Some (G !! node_id n).
Proof.
  intros HG Hn. rewrite (buildDependencyGraph_lookup _ _ _ _ HG).
  rewrite bool_decide_eq_true_2; [by eexists|].
  unfold nodeIds. apply elem_of_list_to_set, list_elem_of_fmap. eauto.
Qed.

Lemma outgoing_hasEdge ns cs G i e d :
  buildDependencyGraph ns cs = Ok G →
  G !! i = Some e →
  d ∈ outgoing e ↔ hasEdge ns cs i d.
Proof.
  intros HG (_ & _ & ->)%(graph_incoming _ _ _ _ _ HG). unfold hasEdge, edgesOutOf.
  rewrite list_elem_of_fmap. split.
  - intros (c & -> & ((? & ?) & Hc)%list_elem_of_filter). by exists c.
  - intros (c & ? & ? & ? & ?). exists c. split; [done|].
    apply list_elem_of_filter. by split_and!.
Qed.


(** ** Layer assignment *)

Lemma elem_of_nodeIds ns i : i ∈ nodeIds ns ↔ ∃ n, n ∈ ns ∧ node_id n = i.
Proof.
  unfold nodeIds. rewrite elem_of_list_to_set, list_elem_of_fmap. naive_solver.
Qed.

Lemma nodeIds_app a b : nodeIds (a ++ b) = nodeIds a ∪ nodeIds b.
Proof. unfold nodeIds. by rewrite fmap_app, list_to_set_app_L. Qed.

Lemma unvisitedOf_elem seen q n :
  n ∈ unvisitedOf seen q → n ∈ q ∧ node_id n ∉ seen.
Proof.
  revert seen. induction q as [|m q IH]; intros seen; cbn.
  - by intros ?%elem_of_nil.
  - case_bool_decide as Hm.
    + intros [? ?]%IH. split; [by right|done].
    + intros [->|[? ?]%IH]%elem_of_cons.
      * split; [by left|done].
      * split; [by right|set_solver].
Qed.

Lemma unvisitedOf_NoDup seen q : NoDup (node_id <$> unvisitedOf seen q).
Proof.
  revert seen. induction q as [|m q IH]; intros seen; cbn.
  - constructor.
  - case_bool_decide as Hm; [apply IH|].
    cbn. constructor; [|apply IH].
    intros (n & Hid & [_ Hn]%unvisitedOf_elem)%list_elem_of_fmap. set_solver.
Qed.

Lemma unvisitedOf_covers seen q n :
  n ∈ q → node_id n ∉ seen →
  ∃ n', n' ∈ unvisitedOf seen q ∧ node_id n' = node_id n.
Proof.
  revert seen. induction q as [|m q IH]; intros seen; cbn.
  - by intros ?%elem_of_nil.
  - intros [->|Hn]%elem_of_cons Hns.
    + rewrite bool_decide_eq_false_2 by done. exists m. split; [by left|done].
    + case_bool_decide as Hm; [by apply IH|].
      destruct (decide (node_id n = node_id m)) as [E|E].
      * exists m. split; [by left|done].
      * destruct (IH (seen ∪ {[node_id m]}) Hn) as (n' & ? & ?); [set_solver|].
        exists n'. split; [by right|done].
Qed.

Lemma unvisitedOf_ids seen q :
  seen ∪ nodeIds (unvisitedOf seen q) = seen ∪ nodeIds q.
Proof.
  apply set_eq. intros i. rewrite !elem_of_union, !elem_of_nodeIds. split.
  - intros [?|(n & [? ?]%unvisitedOf_elem & <-)]; [by left|right; eauto].
  - intros [?|(n & Hn & <-)]; [by left|].
    destruct (decide (node_id n ∈ seen)); [by left|].
    destruct (unvisitedOf_covers seen q n) as (n' & ? & ?); [done..|].
    right. eauto.
Qed.

Lemma unvisitedOf_nil_iff seen q :
  unvisitedOf seen q = [] ↔ ∀ n, n ∈ q → node_id n ∈ seen.
Proof.
  split.
  - intros E n Hn. destruct (decide (node_id n ∈ seen)); [done|].
    destruct (unvisitedOf_covers seen q n) as (n' & Hn' & _); [done..|].
    rewrite E in Hn'. by apply elem_of_nil in Hn'.
  - intros Hall. destruct (unvisitedOf seen q) as [|n l] eqn:E; [done|].
    assert (n ∈ unvisitedOf seen q) as [? ?]%unvisitedOf_elem by (rewrite E; by left).
    naive_solver.
Qed.

(** With pairwise distinct ids nothing is dropped from a fresh frontier. *)
Lemma unvisitedOf_NoDup_id seen q :
  NoDup (node_id <$> q) → (∀ n, n ∈ q → node_id n ∉ seen) →
  unvisitedOf seen q = q.
Proof.
  revert seen. induction q as [|m q IH]; intros seen; cbn; [done|].
  intros [Hm Hq]%NoDup_cons Hfresh.
  rewrite bool_decide_eq_false_2 by (apply Hfresh; by left).
  f_equal. apply IH; [done|]. intros n Hn.
  specialize (Hfresh n ltac:(by right)).
  assert (node_id n ≠ node_id m).
  { intros E. apply Hm. rewrite <- E. by apply list_elem_of_fmap_2. }
  set_solver.
Qed.

Lemma find_node ns d :
  d ∈ nodeIds ns →
  ∃ n, List.find (fun n => bool_decide (node_id n = d)) ns = Some n ∧
       n ∈ ns ∧ node_id n = d.
Proof.
  intros (m & Hm & Hd)%elem_of_nodeIds.
  destruct (List.find _ ns) as [n|] eqn:E.
  - apply find_some in E as [Hn Hb]. apply bool_decide_eq_true in Hb.
    exists n. by rewrite list_elem_of_In.
  - apply list_elem_of_In in Hm. apply (find_none _ _ E m) in Hm.
    by apply bool_decide_eq_false in Hm.
Qed.

Lemma find_node_Some ns d n :
  List.find (fun n => bool_decide (node_id n = d)) ns = Some n →
  n ∈ ns ∧ node_id n = d.
Proof.
  intros [Hn Hb]%find_some. apply bool_decide_eq_true in Hb.
  by rewrite list_elem_of_In.
Qed.

(** What the inner [forEach] leaves in [nextQueue]. *)
Lemma pushDependents_spec ns V outs nq :
  let nq' := foldl (pushDependent ns V) nq outs in
  (∀ n, n ∈ nq → n ∈ nq') ∧
  (∀ n, n ∈ nq' → n ∈ nq ∨ (n ∈ ns ∧ node_id n ∈ outs)) ∧
  (∀ d, d ∈ outs → d ∈ nodeIds ns → d ∈ V ∨ ∃ n, n ∈ nq' ∧ node_id n = d) ∧
  (outs = [] → nq' = nq).
Proof.
  revert nq. induction outs as [|d outs IH]; intros nq; cbn.
  - split_and!; [done|by left| by intros ? ?%elem_of_nil|done].
  - destruct (IH (pushDependent ns V nq d)) as (H1 & H2 & H3 & _).
    assert (Hpush : ∀ n, n ∈ pushDependent ns V nq d ↔
              n ∈ nq ∨
              ((d ∉ V) ∧ (List.find (fun n => bool_decide (node_id n = d)) ns = Some n))).
    { intros n. unfold pushDependent.
      destruct (List.find _ ns) as [m|]; [|naive_solver].
      case_bool_decide; [naive_solver|].
      rewrite elem_of_app, list_elem_of_singleton. naive_solver. }
    split_and!.
    + intros n Hn. apply H1, Hpush. by left.
    + intros n [[?|[_ [? ?]%find_node_Some]]%Hpush|[? ?]]%H2.
      * by left.
      * right. split; [done|]. subst. by left.
      * right. split; [done|]. by right.
    + intros d' [->|Hd']%elem_of_cons Hids; [|by apply H3].
      destruct (decide (d ∈ V)); [by left|]. right.
      destruct (find_node ns d Hids) as (dep & Hf & _ & Hdep).
      exists dep. split; [|done]. apply H1, Hpush. by right.
    + done.
Qed.

Lemma edgesOutOf_hasEdge ns cs i d :
  d ∈ conn_to <$> edgesOutOf ns cs i ↔ hasEdge ns cs i d.
Proof.
  unfold hasEdge, edgesOutOf. rewrite list_elem_of_fmap. split.
  - intros (c & -> & ((? & ?) & Hc)%list_elem_of_filter). by exists c.
  - intros (c & ? & ? & ? & ?). exists c. split; [done|].
    apply list_elem_of_filter. by split_and!.
Qed.

Lemma hasEdge_ids ns cs i d : hasEdge ns cs i d → i ∈ nodeIds ns ∧ d ∈ nodeIds ns.
Proof. intros (c & _ & <- & <- & ? & ?). done. Qed.

Ltac result_simpl := unfold mbind, result_bind, mret, result_ret.

Section Bfs.
Variables (ns : list Node) (cs : list Connection) (G : gmap string GraphEntry).
Hypothesis HG : buildDependencyGraph ns cs = Ok G.

Lemma graphEntry_ok node :
  node ∈ ns →
  graphEntry G (node_id node)
  = Ok {| incoming := conn_from <$> edgesInto ns cs (node_id node);
          outgoing := conn_to <$> edgesOutOf ns cs (node_id node) |}.
Proof using HG.
  intros Hn. unfold graphEntry.
  erewrite member_own; [done|]. rewrite (buildDependencyGraph_lookup _ _ _ _ HG).
  rewrite bool_decide_eq_true_2; [done|]. apply elem_of_nodeIds. eauto.
Qed.

Lemma rootNodesOf_ok l :
  (∀ n, n ∈ l → n ∈ ns) →
  rootNodesOf G l
  = Ok (filter (fun n => edgesInto ns cs (node_id n) = []) l).
Proof using HG.
  induction l as [|n l IH]; intros Hl; [done|].
  cbn [rootNodesOf].
  rewrite graphEntry_ok by (apply Hl; by left).
  rewrite IH by (intros; apply Hl; by right).
  result_simpl. cbn [incoming]. rewrite filter_cons, length_fmap.
  destruct (decide (edgesInto ns cs (node_id n) = [])) as [E|E].
  - by rewrite E.
  - rewrite bool_decide_eq_false_2; [done|]. by rewrite length_zero_iff_nil.
Qed.

Lemma visitNode_seen st node :
  node_id node ∈ visited st → visitNode ns G st node = Ok st.
Proof using HG.
  intros H. unfold visitNode. by rewrite bool_decide_eq_true_2.
Qed.

Lemma visitNode_fresh st node :
  node ∈ ns → node_id node ∉ visited st →
  visitNode ns G st node
  = Ok {| visited := visited st ∪ {[node_id node]};
          layer := layer st ++ [node];
          nextQueue :=
            foldl (pushDependent ns (visited st ∪ {[node_id node]}))
                  (nextQueue st)
                  (conn_to <$> edgesOutOf ns cs (node_id node)) |}.
Proof using HG.
  intros Hn H. unfold visitNode. rewrite bool_decide_eq_false_2 by done.
  by rewrite graphEntry_ok.
Qed.

(** One round of the loop: the unvisited nodes of the frontier become the
    rank, and the next frontier holds the targets of their edges. *)
Lemma processQueue_spec queue st :
  (∀ n, n ∈ queue → n ∈ ns) →
  ∃ st', processQueue ns G st queue = Ok st' ∧
    visited st' = visited st ∪ nodeIds queue ∧
    layer st' = layer st ++ unvisitedOf (visited st) queue ∧
    (∀ n, n ∈ nextQueue st → n ∈ nextQueue st') ∧
    (∀ n, n ∈ nextQueue st' →
          n ∈ nextQueue st ∨
          (n ∈ ns ∧ ∃ m, m ∈ unvisitedOf (visited st) queue ∧
                         hasEdge ns cs (node_id m) (node_id n))) ∧
    (∀ m d, m ∈ unvisitedOf (visited st) queue → hasEdge ns cs (node_id m) d →
            d ∈ visited st' ∨ ∃ n, n ∈ nextQueue st' ∧ node_id n = d) ∧
    (unvisitedOf (visited st) queue = [] → nextQueue st' = nextQueue st).
Proof using HG.
  revert st. induction queue as [|node rest IH]; intros st Hq.
  - exists st. cbn. split_and!; try done.
    + unfold nodeIds. cbn. set_solver.
    + by rewrite app_nil_r.
    + by left.
    + by intros ? ? ?%elem_of_nil.
  - assert (Hrest : ∀ n, n ∈ rest → n ∈ ns) by (intros; apply Hq; by right).
    assert (Hnode : node ∈ ns) by (apply Hq; by left).
    cbn [processQueue unvisitedOf].
    destruct (decide (node_id node ∈ visited st)) as [Hv|Hv].
    + rewrite visitNode_seen by done. result_simpl.
      rewrite bool_decide_eq_true_2 by done.
      destruct (IH st Hrest) as (st' & -> & Hvis & Hlay & H1 & H2 & H3 & H4).
      exists st'. split_and!; try done.
      rewrite Hvis. unfold nodeIds. cbn. set_solver.
    + rewrite visitNode_fresh by done. result_simpl.
      rewrite bool_decide_eq_false_2 by done.
      set (st1 := {| visited := visited st ∪ {[node_id node]};
                     layer := layer st ++ [node];
                     nextQueue := _ |}).
      destruct (IH st1 Hrest) as (st' & -> & Hvis & Hlay & H1 & H2 & H3 & H4).
      destruct (pushDependents_spec ns (visited st ∪ {[node_id node]})
                  (conn_to <$> edgesOutOf ns cs (node_id node)) (nextQueue st))
        as (P1 & P2 & P3 & _).
      cbn zeta in P1, P2, P3. fold (nextQueue st1) in P1, P2, P3.
      exists st'. split_and!; try done.
      * rewrite Hvis. unfold nodeIds. cbn. set_solver.
      * rewrite Hlay. cbn. by rewrite <- app_assoc.
      * intros n Hn. by apply H1, P1.
      * intros n [[?|[? Hout]]%P2|(? & m & ? & ?)]%H2.
        -- by left.
        -- right. split; [done|]. exists node. split; [by left|].
           by apply edgesOutOf_hasEdge.
        -- right. split; [done|]. exists m. split; [by right|done].
      * intros m d [->|Hm]%elem_of_cons He.
        -- destruct (P3 d) as [Hd|(n & Hn & Hd)].
           ++ by apply edgesOutOf_hasEdge.
           ++ by apply hasEdge_ids in He as [_ ?].
           ++ left. rewrite Hvis. cbn. set_solver.
           ++ right. exists n. split; [by apply H1|done].
        -- by apply (H3 m d).
Qed.
End Bfs.


Lemma rankedAt_snoc layers l k n :
  rankedAt (layers ++ [l]) k n ↔
  rankedAt layers k n ∨ (k = length layers ∧ n ∈ l).
Proof.
  unfold rankedAt. split.
  - intros (l' & Hl' & Hn).
    apply lookup_app_Some in Hl' as [Hl'|[Hk Hl']]; [left; eauto|].
    apply list_lookup_singleton_Some in Hl' as [Hk' ->].
    right. split; [lia|done].
  - intros [(l' & Hl' & Hn)|[-> Hn]].
    + exists l'. split; [|done]. by apply lookup_app_l_Some.
    + exists l. split; [|done].
      rewrite lookup_app_r by lia. by rewrite Nat.sub_diag.
Qed.

Lemma rankedAt_lt layers k n : rankedAt layers k n → k < length layers.
Proof. intros (l & Hl & _). by apply lookup_lt_Some in Hl. Qed.

Lemma elem_of_concat {A} (x : A) (ls : list (list A)) :
  x ∈ concat ls ↔ ∃ l, x ∈ l ∧ l ∈ ls.
Proof.
  induction ls as [|l ls IH]; cbn.
  - split; [by intros ?%elem_of_nil|by intros (? & _ & ?%elem_of_nil)].
  - rewrite elem_of_app, IH. split.
    + intros [?|(l' & ? & ?)]; [exists l; split; [done|by left]|].
      exists l'. split; [done|by right].
    + intros (l' & ? & [->|?]%elem_of_cons); [by left|right; eauto].
Qed.

Lemma rankedAt_concat layers n : n ∈ concat layers ↔ ∃ k, rankedAt layers k n.
Proof.
  rewrite elem_of_concat. unfold rankedAt. split.
  - intros (l & Hn & (k & Hk)%list_elem_of_lookup). eauto.
  - intros (k & l & Hk & Hn). exists l. split; [done|].
    by apply list_elem_of_lookup_2 in Hk.
Qed.

Section BfsLoop.
Variables (ns : list Node) (cs : list Connection) (roots : list Node).
Variable G : gmap string GraphEntry.
Hypothesis HG : buildDependencyGraph ns cs = Ok G.

(** A round of the loop keeps the invariant. *)
Lemma bfs_round queue seen layers st :
  bfsInvariant ns cs roots queue seen layers →
  queue ≠ [] →
  processQueue ns G {| visited := seen; layer := []; nextQueue := [] |} queue = Ok st →
  bfsInvariant ns cs roots (nextQueue st) (visited st) (layers ++ [layer st]) ∧
  layer st = unvisitedOf seen queue ∧
  visited st = seen ∪ nodeIds queue ∧
  (layer st = [] → nextQueue st = []).
Proof using HG.
  intros (I1 & I2 & I3 & I4 & I5 & I6 & I7 & I8) Hne Hst.
  destruct (processQueue_spec ns cs G HG queue
              {| visited := seen; layer := []; nextQueue := [] |} I3)
    as (st' & Hst' & Hvis & Hlay & _ & Hnq & Hcov & Hnil).
  rewrite Hst in Hst'. injection Hst' as <-.
  cbn in Hvis, Hlay, Hnq, Hcov, Hnil.
  assert (Hnew : ∀ n, n ∈ layer st → n ∈ queue ∧ node_id n ∉ seen).
  { intros n. rewrite Hlay. apply unvisitedOf_elem. }
  split; [|by split_and!; [done|done|intros E; apply Hnil; by rewrite <- Hlay]].
  unfold bfsInvariant. split_and!.
  - rewrite concat_app, nodeIds_app. cbn. rewrite app_nil_r.
    rewrite Hvis, Hlay, <- I1. symmetry. apply unvisitedOf_ids.
  - rewrite concat_app, fmap_app. cbn. rewrite app_nil_r.
    apply NoDup_app. split; [done|]. split.
    + intros i Hi (n & -> & Hn)%list_elem_of_fmap.
      apply Hnew in Hn as [_ Hn]. apply Hn. rewrite I1.
      unfold nodeIds. by apply elem_of_list_to_set.
    + rewrite Hlay. apply unvisitedOf_NoDup.
  - intros n [Hn|[? _]]%Hnq; [by apply elem_of_nil in Hn|done].
  - intros k n [?|[_ Hn]]%rankedAt_snoc; [by eapply I4|].
    apply I3. by apply Hnew.
  - intros k n [Hr|[Hk Hn]]%rankedAt_snoc.
    + destruct (I5 k n Hr) as (m & ? & ?). exists m.
      split; [|done]. apply rankedAt_snoc. by left.
    + destruct layers as [|l0 layers0] using rev_ind; [cbn in Hk; lia|].
      clear IHlayers0.
      destruct (I6 n l0) as (m & Hm & He).
      * by apply Hnew.
      * by rewrite last_snoc.
      * exists m. split; [|done]. apply rankedAt_snoc. left.
        apply rankedAt_snoc. right. split; [|done].
        rewrite length_app in Hk. cbn in Hk. lia.
  - intros n l Hn Hl. rewrite last_snoc in Hl. injection Hl as <-.
    apply Hnq in Hn as [Hn|[_ ?]]; [by apply elem_of_nil in Hn|by rewrite Hlay].
  - intros k m d [Hr|[-> Hm]]%rankedAt_snoc He.
    + destruct (I7 k m d Hr He) as [(j & n & ? & ? & ?)|(Hk & n & Hn & Hd)].
      * left. exists j, n. split_and!; [done| |done]. apply rankedAt_snoc. by left.
      * left. destruct (decide (d ∈ seen)) as [Hs|Hs].
        -- rewrite I1 in Hs. apply elem_of_nodeIds in Hs as (n' & Hn' & Hd').
           apply rankedAt_concat in Hn' as (j & Hj).
           exists j, n'. split_and!; [|by apply rankedAt_snoc; left|done].
           apply rankedAt_lt in Hj. lia.
        -- subst d. destruct (unvisitedOf_covers seen queue n Hn Hs) as (n' & Hn' & Hd').
           exists (length layers), n'. split_and!; [lia| |done].
           apply rankedAt_snoc. right. split; [done|]. by rewrite Hlay.
    + rewrite Hlay in Hm. destruct (Hcov m d Hm He) as [Hd|(n & Hn & Hd)].
      * left. rewrite Hvis, <- (unvisitedOf_ids seen queue), <- Hlay in Hd.
        rewrite I1 in Hd.
        rewrite <- nodeIds_app in Hd.
        apply elem_of_nodeIds in Hd as (n' & Hn' & Hd').
        assert (n' ∈ concat (layers ++ [layer st])) as (j & Hj)%rankedAt_concat.
        { rewrite concat_app. cbn. by rewrite app_nil_r. }
        exists j, n'. split_and!; [|done|done].
        apply rankedAt_lt in Hj. rewrite length_app in Hj. cbn in Hj. lia.
      * right. split; [rewrite length_app; cbn; lia|]. eauto.
  - right. destruct I8 as [[-> ->]|I8].
    + cbn. by rewrite Hlay, I1.
    + by apply lookup_app_l_Some.
Qed.

(** The loop ends within its fuel, and the invariant holds of the result
    with an empty queue. *)
Lemma bfsLoop_spec fuel queue seen layers :
  bfsInvariant ns cs roots queue seen layers →
  (queue ≠ [] → size (nodeIds ns ∖ seen) < fuel) →
  ∃ seen' ranks,
    bfsLoop fuel ns G queue seen layers = Ok (seen', ranks) ∧
    bfsInvariant ns cs roots [] seen' ranks ∧
    (queue ≠ [] → ranks ≠ []).
Proof using HG.
  revert queue seen layers. induction fuel as [|fuel IH]; intros queue seen layers Hinv Hfuel.
  - destruct queue as [|n queue]; [|specialize (Hfuel ltac:(done)); lia].
    exists seen, layers. by split_and!.
  - destruct queue as [|n queue]; [exists seen, layers; by split_and!|].
    cbn [bfsLoop]. set (queue' := n :: queue) in *.
    pose proof Hinv as (_ & _ & I3 & _).
    destruct (processQueue_spec ns cs G HG queue'
                {| visited := seen; layer := []; nextQueue := [] |} I3)
      as (st & Hst & _). rewrite Hst. result_simpl.
    destruct (bfs_round queue' seen layers st Hinv ltac:(done) Hst)
      as (Hinv' & Hlay & Hvis & Hnil).
    destruct (IH (nextQueue st) (visited st) (layers ++ [layer st]) Hinv')
      as (seen' & ranks & Hloop & Hfin & _).
    + intros Hq.
      assert (layer st ≠ []) as Hl by (intros E; by apply Hq, Hnil).
      destruct (layer st) as [|m l] eqn:E; [done|].
      assert (m ∈ unvisitedOf seen queue') as [Hm Hms]%unvisitedOf_elem
        by (rewrite <- Hlay; by left).
      specialize (Hfuel ltac:(done)).
      assert (nodeIds ns ∖ visited st ⊂ nodeIds ns ∖ seen) as Hsub.
      { rewrite Hvis. apply strict_spec_alt. split; [set_solver|].
        intros Heq. assert (node_id m ∈ nodeIds ns ∖ seen) as Hin.
        { apply elem_of_difference. split; [|done].
          apply elem_of_nodeIds. exists m. split; [by apply I3|done]. }
        rewrite <- Heq in Hin. apply elem_of_difference in Hin as [_ Hin].
        apply Hin, elem_of_union. right. apply elem_of_nodeIds. eauto. }
      apply subset_size in Hsub. lia.
    + exists seen', ranks. split_and!; [done..|]. intros _.
      clear -Hloop. intros ->.
      revert Hloop. generalize (nextQueue st) (visited st) (layer st).
      clear. intros q s l H.
      assert (∀ f q s L, L ≠ [] → bfsLoop f ns G q s L ≠ Ok (seen', [])) as Hno.
      { clear. induction f as [|f IHf]; intros q s L HL.
        - destruct q; cbn; [by intros [= _ ?]|done].
        - destruct q as [|n q]; cbn [bfsLoop]; [by intros [= _ ?]|].
          destruct (processQueue _ _ _ _) as [st| |]; result_simpl; [|done..].
          apply IHf. by destruct L. }
      eapply Hno; [|exact H]. by destruct layers.
Qed.
End BfsLoop.


Lemma size_nodeIds ns : size (nodeIds ns) ≤ length ns.
Proof.
  unfold nodeIds. induction ns as [|n ns IH]; cbn.
  - by rewrite size_empty.
  - rewrite size_union_alt, size_singleton.
    assert (size (list_to_set (node_id <$> ns) ∖ {[node_id n]} : gset string)
            ≤ size (list_to_set (node_id <$> ns) : gset string)); [|lia].
    apply subseteq_size. set_solver.
Qed.

Lemma bfsLoop_fuel_mono ns G fuel fuel' queue seen layers r :
  bfsLoop fuel ns G queue seen layers = Ok r → fuel ≤ fuel' →
  bfsLoop fuel' ns G queue seen layers = Ok r.
Proof.
  revert fuel' queue seen layers.
  induction fuel as [|fuel IH]; intros fuel' queue seen layers.
  - destruct queue; [|done]. by destruct fuel'.
  - destruct queue as [|n queue]; [by destruct fuel'|].
    destruct fuel' as [|fuel']; [lia|]. cbn [bfsLoop].
    destruct (processQueue _ _ _ _) as [st| |]; result_simpl; [|done..].
    intros H ?. apply IH; [done|lia].
Qed.

Lemma bfsInvariant_init ns cs roots :
  (∀ n, n ∈ roots → n ∈ ns) → bfsInvariant ns cs roots roots ∅ [].
Proof.
  intros Hr. unfold bfsInvariant, rankedAt. split_and!; try done.
  - constructor.
  - by intros k n (l & Hl & _).
  - by intros k n (l & Hl & _).
  - by intros k m d (l & Hl & _).
  - by left.
Qed.

Lemma bfsInvariant_final ns cs roots seen ranks :
  roots ≠ [] → bfsInvariant ns cs roots [] seen ranks →
  bfsRanks ns cs roots ranks ∧ seen = nodeIds (concat ranks).
Proof.
  intros Hne (I1 & I2 & _ & I4 & I5 & _ & I7 & I8).
  split; [|done]. unfold bfsRanks. split_and!; try done.
  - destruct I8 as [[_ E]|?]; [by destruct Hne|done].
  - intros k m d Hr He.
    destruct (I7 k m d Hr He) as [?|(_ & n & Hn & _)]; [done|].
    by apply elem_of_nil in Hn.
Qed.

Lemma zeroInDegreeNodes_sub ns cs n : n ∈ zeroInDegreeNodes ns cs → n ∈ ns.
Proof. by intros [_ ?]%list_elem_of_filter. Qed.

(** [assignLayers] with any fuel from its own upwards. *)
Lemma assignLayersFuel_spec ns cs G fuel :
  buildDependencyGraph ns cs = Ok G →
  S (length ns) ≤ fuel →
  let roots := zeroInDegreeNodes ns cs in
  (roots = [] → assignLayersFuel fuel ns G = Ok (groupNodesByType ns)) ∧
  (roots ≠ [] →
     ∃ ranks, assignLayersFuel fuel ns G = Ok (ranks ++ overflowRank ns ranks) ∧
              bfsRanks ns cs roots ranks).
Proof.
  intros HG Hfuel roots. unfold assignLayersFuel.
  rewrite (rootNodesOf_ok ns cs G HG) by done. result_simpl.
  fold (zeroInDegreeNodes ns cs). fold roots.
  split; [by intros ->|]. intros Hne.
  destruct roots as [|r roots'] eqn:Er; [done|]. rewrite <- Er in *.
  destruct (bfsLoop_spec ns cs roots G HG (S (length ns)) roots ∅ [])
    as (seen & ranks & Hloop & Hinv & _).
  { apply bfsInvariant_init. subst roots. apply zeroInDegreeNodes_sub. }
  { intros _. pose proof (size_nodeIds ns).
    assert (size (nodeIds ns ∖ ∅) ≤ size (nodeIds ns)); [|lia].
    apply subseteq_size. set_solver. }
  apply bfsInvariant_final in Hinv as [Hranks ->]; [|done].
  exists ranks. split; [|done].
  rewrite (bfsLoop_fuel_mono _ _ _ fuel _ _ _ _ Hloop Hfuel).
  result_simpl. unfold overflowRank.
  destruct (filter _ ns); [by rewrite app_nil_r|done].
Qed.

Lemma assignLayers_total ns cs G :
  buildDependencyGraph ns cs = Ok G →
  ∃ layers, assignLayers ns G = Ok layers ∧
    ∀ fuel, S (length ns) ≤ fuel → assignLayersFuel fuel ns G = Ok layers.
Proof.
  intros HG. unfold assignLayers.
  destruct (decide (zeroInDegreeNodes ns cs = [])) as [E|E].
  - exists (groupNodesByType ns). split.
    + by apply (assignLayersFuel_spec ns cs G (S (length ns))).
    + intros fuel Hf. by apply (assignLayersFuel_spec ns cs G fuel).
  - destruct (proj2 (assignLayersFuel_spec ns cs G (S (length ns)) HG ltac:(done)) E)
      as (ranks & H1 & Hr).
    exists (ranks ++ overflowRank ns ranks). split; [done|].
    intros fuel Hf.
    destruct (proj2 (assignLayersFuel_spec ns cs G fuel HG Hf) E) as (ranks' & H2 & _).
    pose proof (bfsLoop_fuel_mono) as Hmono.
    revert H1 H2. unfold assignLayersFuel.
    rewrite (rootNodesOf_ok ns cs G HG) by done. result_simpl.
    destruct (filter _ ns) as [|r roots]; [done|].
    destruct (bfsLoop (S (length ns)) _ _ _ _ _) as [[s l]| |] eqn:E1; [|done..].
    rewrite (Hmono _ _ _ fuel _ _ _ _ E1 Hf). by intros -> ->.
Qed.

(** ** Ranking by type *)

Lemma groupNodesByType_eq ns :
  groupNodesByType ns = omap (typeRank ns) canonicalOrder ++ remainingRank ns.
Proof.
  unfold groupNodesByType, remainingRank, nodesOfType.
  change typeOrder with canonicalOrder.
  assert (Hfold : ∀ ts acc,
    foldl (fun layers t => match filter (fun n => node_type n = t) ns with
                           | [] => layers
                           | ofType => layers ++ [ofType]
                           end) acc ts
    = acc ++ omap (typeRank ns) ts).
  { induction ts as [|t ts IH]; intros acc; cbn; [by rewrite app_nil_r|].
    rewrite IH. unfold typeRank at 2.
    destruct (filter _ ns); [done|]. by rewrite <- app_assoc. }
  rewrite Hfold. cbn [app].
  destruct (filter _ ns); [by rewrite app_nil_r|done].
Qed.

Lemma rankedAt_app a b k (n : Node) :
  rankedAt (a ++ b) k n ↔
  rankedAt a k n ∨ (length a ≤ k ∧ rankedAt b (k - length a) n).
Proof.
  unfold rankedAt. split.
  - intros (l & [?|[? ?]]%lookup_app_Some & ?); [left|right]; eauto.
  - intros [(l & ? & ?)|(? & l & ? & ?)]; exists l; (split; [|done]).
    + by apply lookup_app_l_Some.
    + by rewrite lookup_app_r.
Qed.

Lemma typeRank_Some ns t l :
  typeRank ns t = Some l ↔ l = filter (fun n => node_type n = t) ns ∧ l ≠ [].
Proof.
  unfold typeRank. destruct (filter _ ns) as [|r rest].
  - split; [done|]. by intros [-> ?].
  - split; [by intros [= <-]|]. by intros [-> _].
Qed.

Lemma typeRank_types ns ts k n :
  rankedAt (omap (typeRank ns) ts) k n → node_type n ∈ ts ∧ n ∈ ns.
Proof.
  intros (l & Hl & Hn). apply list_elem_of_lookup_2 in Hl.
  apply list_elem_of_omap in Hl as (t & Ht & [-> _]%typeRank_Some).
  apply list_elem_of_filter in Hn as [<- ?]. done.
Qed.

Lemma remainingRank_types ns k n :
  rankedAt (remainingRank ns) k n → node_type n ∉ canonicalOrder ∧ n ∈ ns.
Proof.
  intros (l & Hl & Hn). unfold remainingRank in Hl.
  destruct (filter _ ns) as [|r rest] eqn:E; [done|].
  apply list_lookup_singleton_Some in Hl as [_ <-].
  rewrite <- E in Hn. by apply list_elem_of_filter in Hn.
Qed.

Lemma canonicalOrder_NoDup : NoDup canonicalOrder.
Proof. unfold canonicalOrder. repeat (constructor; [set_solver|]). constructor. Qed.

(** Nodes of a type earlier in the canonical order are ranked strictly
    before nodes of a later type. *)
Lemma canonical_order_respected ns p q t1 t2 i j n1 n2 :
  canonicalOrder !! p = Some t1 → canonicalOrder !! q = Some t2 → p < q →
  rankedAt (groupNodesByType ns) i n1 → node_type n1 = t1 →
  rankedAt (groupNodesByType ns) j n2 → node_type n2 = t2 →
  i < j.
Proof.
  intros Hp Hq Hpq H1 Ht1 H2 Ht2.
  rewrite groupNodesByType_eq in H1, H2.
  pose proof canonicalOrder_NoDup as Hnd.
  rewrite <- (take_drop q canonicalOrder) in H1, H2, Hnd.
  apply NoDup_app in Hnd as (_ & Hdisj & _).
  assert (Hin1 : t1 ∈ take q canonicalOrder).
  { apply list_elem_of_lookup. exists p. rewrite lookup_take_lt by done. done. }
  assert (Hin2 : t2 ∈ drop q canonicalOrder).
  { apply list_elem_of_lookup. exists 0. rewrite lookup_drop. by rewrite Nat.add_0_r. }
  rewrite omap_app, <- app_assoc in H1, H2.
  set (A := omap (typeRank ns) (take q canonicalOrder)) in *.
  assert (i < length A).
  { apply rankedAt_app in H1 as [?%rankedAt_lt|[_ H1]]; [done|].
    apply rankedAt_app in H1 as [[H1 _]%typeRank_types|[_ [H1 _]%remainingRank_types]].
    - rewrite Ht1 in H1. by destruct (Hdisj t1).
    - rewrite Ht1 in H1. destruct H1.
      rewrite <- (take_drop q canonicalOrder). apply elem_of_app. by left. }
  assert (length A ≤ j); [|lia].
  apply rankedAt_app in H2 as [[H2 _]%typeRank_types|[? _]]; [|done].
  rewrite Ht2 in H2. by destruct (Hdisj t2).
Qed.

(** Every node is ranked, in the rank of the nodes of its type. *)
Lemma groupNodesByType_ranks ns n :
  n ∈ ns →
  ∃ k l, groupNodesByType ns !! k = Some l ∧ n ∈ l ∧
         l = if bool_decide (node_type n ∈ canonicalOrder)
             then filter (fun m => node_type m = node_type n) ns
             else filter (fun m => node_type m ∉ canonicalOrder) ns.
Proof.
  intros Hn. rewrite groupNodesByType_eq. case_bool_decide as Ht.
  - set (l := filter (fun m => node_type m = node_type n) ns).
    assert (n ∈ l) as Hin by (by apply list_elem_of_filter).
    assert (l ∈ omap (typeRank ns) canonicalOrder) as Hl.
    { apply list_elem_of_omap. exists (node_type n). split; [done|].
      apply typeRank_Some. split; [done|]. intros E. rewrite E in Hin.
      by apply elem_of_nil in Hin. }
    apply list_elem_of_lookup in Hl as [k Hk]. exists k, l.
    split; [by apply lookup_app_l_Some|done].
  - unfold remainingRank.
    assert (n ∈ filter (fun m => node_type m ∉ canonicalOrder) ns) as Hin
      by (by apply list_elem_of_filter).
    destruct (filter _ ns) as [|r rest] eqn:E; [by apply elem_of_nil in Hin|].
    exists (length (omap (typeRank ns) canonicalOrder)), (r :: rest).
    split; [|done]. rewrite lookup_app_r by done. by rewrite Nat.sub_diag.
Qed.

(** A rank holds the nodes of one type, in input order. *)
Lemma groupNodesByType_rank ns k l n :
  groupNodesByType ns !! k = Some l → n ∈ l →
  n ∈ ns ∧
  l = if bool_decide (node_type n ∈ canonicalOrder)
      then filter (fun m => node_type m = node_type n) ns
      else filter (fun m => node_type m ∉ canonicalOrder) ns.
Proof.
  rewrite groupNodesByType_eq. intros Hl Hn.
  apply lookup_app_Some in Hl as [Hl|[_ Hl]].
  - apply list_elem_of_lookup_2, list_elem_of_omap in Hl
      as (t & Ht & [-> _]%typeRank_Some).
    apply list_elem_of_filter in Hn as [<- Hn]. split; [done|].
    by rewrite bool_decide_eq_true_2.
  - unfold remainingRank in Hl.
    destruct (filter _ ns) as [|r rest] eqn:E; [done|].
    apply list_lookup_singleton_Some in Hl as [_ <-]. rewrite <- E in Hn |- *.
    apply list_elem_of_filter in Hn as [Ht Hn]. split; [done|].
    by rewrite bool_decide_eq_false_2.
Qed.

(** C4.  For a dependency graph that [buildDependencyGraph] has built, and
    with [roots] the nodes that have no incoming edge, in input order: when
    there is one, [assignLayers] returns the ranks of a breadth-first pass
    followed by the overflow rank.  Rank 0 is [roots], each id once; no id
    is ranked twice; every node of a later rank is the target of an edge out
    of a node of the rank before (the frontier is collected from outgoing
    edges), and the target of every edge out of a ranked node is ranked at
    most one rank later; the nodes whose id was never visited form one last
    rank, in input order.  When there is no root, the result is that of
    [groupNodesByType]: one rank per type that occurs, in the order actor,
    ui, gateway, service, queue, cache, database, external, then one rank
    of the nodes of any other type.  Every node is ranked, every rank
    holds the nodes of the type of its members in input order, a node of an
    earlier type is ranked strictly before a node of a later type, and a
    database node is never ranked before, or with, a service node. *)
Theorem hierarchical_layer_assignment (ns : list Node) (cs : list Connection)
  (G : gmap string GraphEntry) :
  buildDependencyGraph ns cs = Ok G →
  let roots := zeroInDegreeNodes ns cs in
  let byType := groupNodesByType ns in
  (roots ≠ [] →
     ∃ ranks, assignLayers ns G = Ok (ranks ++ overflowRank ns ranks) ∧
              bfsRanks ns cs roots ranks) ∧
  (roots = [] → assignLayers ns G = Ok byType) ∧
  byType = omap (typeRank ns) canonicalOrder ++ remainingRank ns ∧
  (∀ n, n ∈ ns → ∃ k, rankedAt byType k n) ∧
  (∀ k l n, byType !! k = Some l → n ∈ l →
     n ∈ ns ∧
     l = if bool_decide (node_type n ∈ canonicalOrder)
         then filter (fun m => node_type m = node_type n) ns
         else filter (fun m => node_type m ∉ canonicalOrder) ns) ∧
  (∀ p q t1 t2 i j n1 n2,
     canonicalOrder !! p = Some t1 → canonicalOrder !! q = Some t2 → p < q →
     rankedAt byType i n1 → node_type n1 = t1 →
     rankedAt byType j n2 → node_type n2 = t2 →
     i < j) ∧
  (∀ i j d s,
     rankedAt byType i d → node_type d = "database" →
     rankedAt byType j s → node_type s = "service" →
     j < i).
Proof.
  intros HG roots byType.
  destruct (assignLayersFuel_spec ns cs G (S (length ns)) HG ltac:(done)) as [H0 H1].
  split_and!.
  - exact H1.
  - exact H0.
  - apply groupNodesByType_eq.
  - intros n Hn. destruct (groupNodesByType_ranks ns n Hn) as (k & l & ? & ? & _).
    exists k, l. done.
  - apply groupNodesByType_rank.
  - apply canonical_order_respected.
  - intros i j d s Hd Htd Hs Hts.
    apply (canonical_order_respected ns 3 6 "service" "database" j i s d);
      [reflexivity|reflexivity|lia|done..].
Qed.

Lemma hierarchical_layer_assignment_witness :
  let u := {| node_id := "u"; node_type := "actor"; node_label := "User" |} in
  let s := {| node_id := "s"; node_type := "service"; node_label := "API" |} in
  let c := {| conn_id := None; conn_from := "u"; conn_to := "s";
              conn_type := "http"; conn_label := None;
              conn_bidirectional := Some false |} in
  ∃ G ranks,
    buildDependencyGraph [u; s] [c] = Ok G ∧
    assignLayers [u; s] G = Ok (ranks ++ overflowRank [u; s] ranks) ∧
    bfsRanks [u; s] [c] (zeroInDegreeNodes [u; s] [c]) ranks.
Proof.
  intros u s c.
  destruct (buildDependencyGraph [u; s] [c]) as [G| |] eqn:HG;
    [|by vm_compute in HG..].
  exists G.
  destruct (proj1 (hierarchical_layer_assignment [u; s] [c] G HG))
    as (ranks & Hr & Hb); [by vm_compute|].
  by exists ranks.
Defined.


(** ** Identifiers *)

Lemma pretty_N_char_noUnderscore x : pretty_N_char x ≠ "_"%char.
Proof. unfold pretty_N_char. by repeat case_match. Qed.

Lemma pretty_N_go_noUnderscore x s :
  noUnderscore s → noUnderscore (pretty_N_go x s).
Proof.
  revert s. induction (N.lt_wf_0 x) as [x _ IH]; intros s Hs.
  destruct (decide (x = 0)%N) as [->|Hx]; [by rewrite pretty_N_go_0|].
  rewrite pretty_N_go_step by lia. apply IH.
  - apply N.div_lt; lia.
  - split; [apply pretty_N_char_noUnderscore|done].
Qed.

Lemma pretty_nat_noUnderscore (c : nat) : noUnderscore (pretty c).
Proof.
  unfold pretty, pretty_nat, pretty, pretty_N.
  case_decide; [by cbn|]. by apply pretty_N_go_noUnderscore.
Qed.

Lemma noUnderscore_not_app a b : noUnderscore (a +:+ String "_" b) → False.
Proof. induction a as [|c a IH]; cbn; [by intros [? _]|by intros [_ ?%IH]]. Qed.

(** The part after the last underscore determines itself. *)
Lemma last_segment_inj a a' d d' :
  noUnderscore d → noUnderscore d' →
  a +:+ String "_" d = a' +:+ String "_" d' → d = d'.
Proof.
  intros Hd Hd'. revert a'.
  induction a as [|c a IH]; intros [|c' a']; cbn.
  - by intros [= ->].
  - intros [= <- ->]. by apply noUnderscore_not_app in Hd.
  - intros [= -> <-]. by apply noUnderscore_not_app in Hd'.
  - intros [= _ ?]. by eapply IH.
Qed.

Lemma append_cons c (a b : string) : String c a +:+ b = String c (a +:+ b).
Proof. reflexivity. Qed.

Lemma string_app_assoc (a b c : string) : (a +:+ b) +:+ c = a +:+ (b +:+ c).
Proof.
  induction a as [|x a IH]; [reflexivity|]. by rewrite !append_cons, IH.
Qed.

Lemma genId_counter lo hi lo' hi' s :
  genId lo hi s → genId lo' hi' s → ∃ c, lo < c ≤ hi ∧ lo' < c ≤ hi'.
Proof.
  intros (p & t & c & -> & ? & ?) (p' & t' & c' & E & ? & ?).
  assert (c = c') as <-; [|exists c; lia].
  rewrite <- (string_app_assoc p (pretty t)), <- (string_app_assoc p' (pretty t')) in E.
  change ("_" +:+ pretty c) with (String "_" (pretty c)) in E.
  change ("_" +:+ pretty c') with (String "_" (pretty c')) in E.
  apply last_segment_inj in E; [|apply pretty_nat_noUnderscore..].
  by apply (inj pretty).
Qed.

Lemma genId_disjoint lo hi lo' hi' s s' :
  genId lo hi s → genId lo' hi' s' → hi ≤ lo' → s ≠ s'.
Proof.
  intros H H' Hle <-. destruct (genId_counter _ _ _ _ _ H H') as (c & ? & ?). lia.
Qed.

Lemma genId_weaken lo hi lo' hi' s :
  genId lo hi s → lo' ≤ lo → hi ≤ hi' → genId lo' hi' s.
Proof. intros (p & t & c & ? & ? & ?) ? ?. exists p, t, c. split_and!; [done|lia..]. Qed.


(** ** The renderer *)

Ltac state_simpl :=
  unfold renderGroup, renderNode, renderConnection, renderConnection_2,
    generateId, Date_now, nextCounter, mbind, state_bind, mret, state_ret;
  cbn -[pretty pretty_nat pretty_N].

Section RendererFacts.
Context (rt : Runtime).

Lemma generateId_run w :
  generateId rt w
  = (pretty (clock rt (clockReads w)) +:+ "_" +:+ pretty (S (idCounter w)),
     {| idCounter := S (idCounter w); clockReads := S (clockReads w) |}).
Proof. destruct w. by state_simpl. Qed.

Lemma genId_here lo prefix (t : N) (c : nat) :
  lo < c → genId lo c (prefix +:+ pretty t +:+ "_" +:+ pretty c).
Proof. intros. exists prefix, t, c. split_and!; [done|lia..]. Qed.

Lemma renderGroup_emits group w :
  emitsChunks groupChunk [group] w (renderGroup rt group w).
Proof.
  destruct w as [c r]. unfold emitsChunks. state_simpl. split_and!.
  - lia.
  - repeat constructor; cbn -[pretty pretty_nat pretty_N].
    + eapply genId_weaken; [apply (genId_here c "group_" _ (S c))|..]; lia.
    + eapply genId_weaken; [apply (genId_here (S c) "group_label_" _ (S (S c)))|..]; lia.
  - repeat constructor; [|set_solver].
    rewrite list_elem_of_singleton.
    eapply (genId_disjoint c (S c) (S c) (S (S c))); [| |done].
    + apply (genId_here c "group_"). lia.
    + apply (genId_here (S c) "group_label_"). lia.
  - eexists [[_; _]]. split; [reflexivity|]. repeat constructor.
    do 2 eexists. split; [reflexivity|]. by split_and!.
Qed.

Lemma renderNode_emits node w :
  emitsChunks nodeChunk [node] w (renderNode rt node w).
Proof.
  destruct w as [c r]. unfold emitsChunks. state_simpl. split_and!.
  - lia.
  - repeat constructor; cbn -[pretty pretty_nat pretty_N].
    + eapply genId_weaken; [apply (genId_here c "node_" _ (S c))|..]; lia.
    + eapply genId_weaken; [apply (genId_here (S c) "text_" _ (S (S c)))|..]; lia.
  - repeat constructor; [|set_solver].
    rewrite list_elem_of_singleton.
    eapply (genId_disjoint c (S c) (S c) (S (S c))); [| |done].
    + apply (genId_here c "node_"). lia.
    + apply (genId_here (S c) "text_"). lia.
  - eexists [[_; _]]. split; [reflexivity|]. repeat constructor.
    do 2 eexists. split; [reflexivity|]. split_and!; try done.
    unfold isShape, getExcalidrawShapeType. cbn.
    repeat case_bool_decide; tauto.
Qed.

Lemma renderConnection_emits connection w :
  emitsChunks connectionChunk [connection] w (renderConnection rt connection w).
Proof.
  destruct w as [c r]. unfold emitsChunks. state_simpl.
  destruct (truthy (conn_label (pc_conn connection))) eqn:Hl; cbn -[pretty pretty_nat pretty_N].
  - split_and!.
    + lia.
    + repeat constructor; cbn -[pretty pretty_nat pretty_N].
      * eapply genId_weaken; [apply (genId_here c "conn_" _ (S c))|..]; lia.
      * eapply genId_weaken; [apply (genId_here (S c) "label_" _ (S (S c)))|..]; lia.
    + repeat constructor; [|set_solver].
      rewrite list_elem_of_singleton.
      eapply (genId_disjoint c (S c) (S c) (S (S c))); [| |done].
      * apply (genId_here c "conn_"). lia.
      * apply (genId_here (S c) "label_"). lia.
    + eexists [[_; _]]. split; [reflexivity|]. repeat constructor.
      do 2 eexists. split; [reflexivity|]. split_and!; try done.
      right. eexists. split; [reflexivity|]. split_and!; try done.
      cbn. by destruct (conn_label (pc_conn connection)).
  - split_and!.
    + lia.
    + repeat constructor; cbn -[pretty pretty_nat pretty_N]. apply (genId_here c "conn_" _ (S c)); lia.
    + repeat constructor. set_solver.
    + eexists [[_]]. split; [reflexivity|]. repeat constructor.
      do 2 eexists. split; [reflexivity|]. split_and!; try done. by left.
Qed.

(** [forEach] concatenates the chunks and keeps the ids apart. *)
Lemma forEachPush_emits {A} (Q : A → list Element → Prop)
  (f : A → State (list Element)) (items : list A) w :
  (∀ a w, emitsChunks Q [a] w (f a w)) →
  emitsChunks Q items w (forEachPush f items w).
Proof.
  intros Hf. revert w. induction items as [|a items IH]; intros w.
  - unfold emitsChunks. cbn. split_and!; [done|constructor|constructor|].
    exists []. split; [done|constructor].
  - cbn [forEachPush]. unfold mbind, state_bind, mret, state_ret.
    specialize (Hf a w). destruct (f a w) as [els1 w1].
    specialize (IH w1). destruct (forEachPush f items w1) as [els2 w2].
    destruct Hf as (Hc1 & Hid1 & Hnd1 & chunks1 & E1 & HQ1).
    destruct IH as (Hc2 & Hid2 & Hnd2 & chunks2 & E2 & HQ2).
    cbn in *. unfold emitsChunks. cbn. split_and!.
    + lia.
    + apply Forall_app. split.
      * eapply Forall_impl; [exact Hid1|]. intros e He. cbn in He.
        eapply genId_weaken; [exact He|lia..].
      * eapply Forall_impl; [exact Hid2|]. intros e He. cbn in He.
        eapply genId_weaken; [exact He|lia..].
    + rewrite fmap_app. apply NoDup_app. split_and!; [done| |done].
      intros i (e1 & -> & He1)%list_elem_of_fmap (e2 & Hi & He2)%list_elem_of_fmap.
      rewrite Forall_forall in Hid1, Hid2.
      by eapply (genId_disjoint _ _ _ _ _ _ (Hid1 e1 He1) (Hid2 e2 He2)).
    + apply Forall2_cons_inv_l in HQ1 as (ch & rest & Hch & Hrest & ->).
      apply Forall2_nil_inv_l in Hrest as ->.
      exists (ch :: chunks2). split; [|by constructor].
      cbn in E1. rewrite app_nil_r in E1. cbn. by rewrite E1, E2.
Qed.
End RendererFacts.


(** ** Bindings in the document *)

Lemma filter_none {A} (P : A → Prop) `{!∀ x, Decision (P x)} (l : list A) :
  (∀ y, y ∈ l → ¬ P y) → filter P l = [].
Proof.
  induction l as [|a l IH]; intros Hall; [done|].
  rewrite filter_cons, decide_False by (apply Hall; by left).
  apply IH. intros y Hy. apply Hall. by right.
Qed.

Lemma filter_single {A} (P : A → Prop) `{!∀ x, Decision (P x)} (l : list A) x :
  NoDup l → x ∈ l → P x → (∀ y, y ∈ l → P y → y = x) → filter P l = [x].
Proof.
  induction l as [|a l IH]; [by intros _ ?%elem_of_nil|].
  intros [Ha Hl]%NoDup_cons Hx HP Huniq. rewrite filter_cons.
  assert (Hnone : ∀ z, z ∈ l → z ≠ a) by (intros z Hz ->; done).
  apply elem_of_cons in Hx as [->|Hx].
  - rewrite decide_True by done. f_equal.
    apply filter_none. intros y Hy HPy.
    apply (Hnone y Hy). apply Huniq; [by right|done].
  - rewrite decide_False.
    + apply IH; [done..|]. intros y Hy. apply Huniq. by right.
    + intros HPa. apply (Hnone x Hx). symmetry. apply Huniq; [by left|done].
Qed.

Lemma NoDup_fmap_eq {A B} (f : A → B) (l : list A) x y :
  NoDup (f <$> l) → x ∈ l → y ∈ l → f x = f y → x = y.
Proof.
  induction l as [|a l IH]; [by intros _ ?%elem_of_nil|].
  cbn. intros [Ha Hl]%NoDup_cons [->|Hx]%elem_of_cons [->|Hy]%elem_of_cons E; try done.
  - destruct Ha. rewrite E. by apply list_elem_of_fmap_2.
  - destruct Ha. rewrite <- E. by apply list_elem_of_fmap_2.
  - by apply IH.
Qed.

Lemma isText_not_shape e : isText e → ¬ isShape e.
Proof. unfold isText, isShape. intros -> [?|[?|?]]; discriminate. Qed.

Lemma isArrow_not_shape e : isArrow e → ¬ isShape e.
Proof. unfold isArrow, isShape. intros -> [?|[?|?]]; discriminate. Qed.

Lemma groupChunk_elems groups chunks e :
  Forall2 groupChunk groups chunks → e ∈ concat chunks →
  el_containerId e = None ∧
  (isShape e → el_boundElements e = Some [] ∧ el_strokeStyle e = "dashed").
Proof.
  intros HF (ch & He & Hch)%elem_of_concat.
  apply list_elem_of_lookup in Hch as (k & Hk).
  destruct (Forall2_lookup_r _ _ _ _ _ HF Hk) as (g & _ & Hg).
  destruct Hg as (box & label & -> & Hb).
  destruct Hb as (? & ? & ? & ? & ? & ? & ? & ? & Hlt & ? & ?).
  apply elem_of_cons in He as [->|He]; [done|].
  apply list_elem_of_singleton in He as ->.
  split; [done|]. intros Hs. by apply isText_not_shape in Hlt.
Qed.

Lemma connectionChunk_elems conns chunks e :
  Forall2 connectionChunk conns chunks → e ∈ concat chunks →
  el_containerId e = None ∧ ¬ isShape e.
Proof.
  intros HF (ch & He & Hch)%elem_of_concat.
  apply list_elem_of_lookup in Hch as (k & Hk).
  destruct (Forall2_lookup_r _ _ _ _ _ HF Hk) as (c & _ & Hc).
  destruct Hc as (arrowEl & rest & -> & Ha & ? & _ & _ & Hrest).
  apply elem_of_cons in He as [->|He].
  - split; [done|by apply isArrow_not_shape].
  - destruct Hrest as [->|(labelEl & -> & Hl & _ & ?)]; [by apply elem_of_nil in He|].
    apply list_elem_of_singleton in He as ->.
    split; [done|by apply isText_not_shape].
Qed.

Lemma nodeChunk_elems nodes chunks e :
  Forall2 nodeChunk nodes chunks → e ∈ concat chunks →
  ∃ node shapeEl textEl,
    node ∈ nodes ∧ [shapeEl; textEl] ∈ chunks ∧
    nodeChunk node [shapeEl; textEl] ∧ (e = shapeEl ∨ e = textEl).
Proof.
  intros HF (ch & He & Hch)%elem_of_concat.
  apply list_elem_of_lookup in Hch as (k & Hk).
  destruct (Forall2_lookup_r _ _ _ _ _ HF Hk) as (n & Hn & Hc).
  pose proof Hc as (shapeEl & textEl & -> & _).
  exists n, shapeEl, textEl. split_and!; [by eapply list_elem_of_lookup_2| |done|].
  - by eapply list_elem_of_lookup_2.
  - apply elem_of_cons in He as [->|He]; [by left|].
    apply list_elem_of_singleton in He. by right.
Qed.

Lemma filter_shapes_groups groups chunks :
  Forall2 groupChunk groups chunks →
  ∃ boxes, filter isShape (concat chunks) = boxes ∧
           Forall2 (fun g b => ∃ label, groupChunk g [b; label] ∧ [b; label] ∈ chunks)
                   groups boxes.
Proof.
  induction 1 as [|g ch groups chunks Hg HF (boxes & Hb & IH)].
  - exists []. split; [done|constructor].
  - pose proof Hg as (box & label & -> & Hty & _ & _ & _ & _ & _ & _ & _ & Hlt & _).
    exists (box :: boxes). split.
    + cbn [concat app]. rewrite !filter_cons.
      rewrite decide_True by (by left).
      rewrite decide_False by (by apply isText_not_shape). by rewrite Hb.
    + constructor.
      * exists label. split; [done|by left].
      * eapply Forall2_impl; [exact IH|].
        intros g' b' (l' & ? & ?). exists l'. split; [done|by right].
Qed.

Lemma filter_shapes_nodes nodes chunks :
  Forall2 nodeChunk nodes chunks →
  ∃ shapes, filter isShape (concat chunks) = shapes ∧
            Forall2 (fun n s => ∃ t, nodeChunk n [s; t] ∧ [s; t] ∈ chunks)
                    nodes shapes.
Proof.
  induction 1 as [|n ch nodes chunks Hn HF (shapes & Hs & IH)].
  - exists []. split; [done|constructor].
  - pose proof Hn as (shapeEl & textEl & -> & Hsh & _ & _ & _ & _ & _ & _ & Htx & _).
    exists (shapeEl :: shapes). split.
    + cbn [concat app]. rewrite !filter_cons.
      rewrite decide_True by done.
      rewrite decide_False by (by apply isText_not_shape). by rewrite Hs.
    + constructor.
      * exists textEl. split; [done|by left].
      * eapply Forall2_impl; [exact IH|].
        intros n' s' (t' & ? & ?). exists t'. split; [done|by right].
Qed.

Lemma filter_shapes_connections conns chunks :
  Forall2 connectionChunk conns chunks → filter isShape (concat chunks) = [].
Proof.
  intros HF. apply filter_none. intros e He.
  by destruct (connectionChunk_elems _ _ _ HF He).
Qed.


Lemma render_structure rt l w :
  ∃ gch nch cch w',
    render rt l w = (envelope (concat gch ++ concat nch ++ concat cch), w') ∧
    Forall2 groupChunk (l_groups l) gch ∧
    Forall2 nodeChunk (l_nodes l) nch ∧
    Forall2 connectionChunk (l_connections l) cch ∧
    NoDup (el_id <$> (concat gch ++ concat nch ++ concat cch)).
Proof.
  unfold render, mbind, state_bind, mret, state_ret.
  pose proof (forEachPush_emits groupChunk (renderGroup rt) (l_groups l) w
                (renderGroup_emits rt)) as HG.
  destruct (forEachPush (renderGroup rt) (l_groups l) w) as [G w1].
  pose proof (forEachPush_emits nodeChunk (renderNode rt) (l_nodes l) w1
                (renderNode_emits rt)) as HN.
  destruct (forEachPush (renderNode rt) (l_nodes l) w1) as [N w2].
  pose proof (forEachPush_emits connectionChunk (renderConnection rt)
                (l_connections l) w2 (renderConnection_emits rt)) as HC.
  destruct (forEachPush (renderConnection rt) (l_connections l) w2) as [C w3].
  unfold emitsChunks in HG, HN, HC. cbn in HG, HN, HC.
  destruct HG as (Hc1 & Hid1 & Hnd1 & gch & -> & HQ1).
  destruct HN as (Hc2 & Hid2 & Hnd2 & nch & -> & HQ2).
  destruct HC as (Hc3 & Hid3 & Hnd3 & cch & -> & HQ3).
  cbn in *. exists gch, nch, cch, w3. split_and!; try done.
  rewrite Forall_forall in Hid1, Hid2, Hid3.
  rewrite !fmap_app. apply NoDup_app. split_and!; [done| |].
  - intros i (e1 & -> & He1)%list_elem_of_fmap
             [(e2 & Hi & He2)%list_elem_of_fmap|(e2 & Hi & He2)%list_elem_of_fmap]%elem_of_app.
    + by eapply (genId_disjoint _ _ _ _ _ _ (Hid1 e1 He1) (Hid2 e2 He2)).
    + eapply (genId_disjoint _ _ _ _ _ _ (Hid1 e1 He1) (Hid3 e2 He2)); [lia|done].
  - apply NoDup_app. split_and!; [done| |done].
    intros i (e1 & -> & He1)%list_elem_of_fmap (e2 & Hi & He2)%list_elem_of_fmap.
    by eapply (genId_disjoint _ _ _ _ _ _ (Hid2 e1 He1) (Hid3 e2 He2)).
Qed.

Section Bindings.
Variables (groups : list PositionedGroup) (nodes : list PositionedNode)
          (conns : list PositionedConnection).
Variables (gch nch cch : list (list Element)).
Let els := concat gch ++ concat nch ++ concat cch.
Hypothesis HG : Forall2 groupChunk groups gch.
Hypothesis HN : Forall2 nodeChunk nodes nch.
Hypothesis HC : Forall2 connectionChunk conns cch.
Hypothesis Hids : NoDup (el_id <$> els).

Lemma els_NoDup : NoDup els.
Proof. by apply NoDup_fmap_1 in Hids. Qed.

Lemma same_id x y : x ∈ els → y ∈ els → el_id x = el_id y → x = y.
Proof. by apply NoDup_fmap_eq. Qed.

Lemma in_node_chunk s t : [s; t] ∈ nch → s ∈ els ∧ t ∈ els.
Proof.
  intros H. subst els. rewrite !elem_of_app, !elem_of_concat.
  split; right; left; exists [s; t]; (split; [|done]); set_solver.
Qed.

Lemma in_group_chunk b l : [b; l] ∈ gch → b ∈ els ∧ l ∈ els.
Proof.
  intros H. subst els. rewrite !elem_of_app, !elem_of_concat.
  split; left; exists [b; l]; (split; [|done]); set_solver.
Qed.

(** A text with a container is the text of a node, and its container is
    that node's shape. *)
Lemma bound_text_origin t c :
  t ∈ els → el_containerId t = Some c →
  ∃ node s, node ∈ nodes ∧ [s; t] ∈ nch ∧ nodeChunk node [s; t] ∧ el_id s = c.
Proof.
  subst els. rewrite !elem_of_app. intros [Ht|[Ht|Ht]] Hc.
  - destruct (groupChunk_elems _ _ _ HG Ht) as [E _]. congruence.
  - destruct (nodeChunk_elems _ _ _ HN Ht) as (n & s & t' & Hn & Hin & Hch & [->| ->]).
    + destruct Hch as (? & ? & [= <- <-] & Hch).
      destruct Hch as (_ & _ & _ & _ & _ & _ & E & _). congruence.
    + exists n, s. split_and!; [done..|].
      destruct Hch as (? & ? & [= <- <-] & Hch).
      destruct Hch as (_ & _ & _ & _ & _ & _ & _ & _ & _ & [E _]). congruence.
  - destruct (connectionChunk_elems _ _ _ HC Ht) as [E _]. congruence.
Qed.

Lemma group_box_unbound g b l :
  [b; l] ∈ gch → groupChunk g [b; l] →
  el_boundElements b = Some [] ∧ boundTexts els b = [].
Proof.
  intros Hin (? & ? & [= <- <-] & Hch).
  destruct Hch as (_ & Hdash & _ & _ & _ & _ & Hbe & _).
  split; [done|]. apply filter_none. intros y Hy [_ Hc].
  destruct (bound_text_origin y _ Hy Hc) as (n & s & _ & Hs & Hch & E).
  destruct Hch as (? & ? & [= <- <-] & Hch).
  destruct Hch as (_ & Hsolid & _).
  assert (s = b) as ->.
  { apply same_id; [by apply in_node_chunk in Hs as [? _]| |done].
    by apply in_group_chunk in Hin as [? _]. }
  congruence.
Qed.

Lemma node_shape_bound n s t :
  [s; t] ∈ nch → nodeChunk n [s; t] →
  boundTexts els s = [t] ∧ mutuallyBound s t.
Proof.
  intros Hin (? & ? & [= <- <-] & Hch).
  destruct Hch as (_ & _ & _ & _ & _ & _ & _ & Htx & _ & Hmb).
  split; [|done]. destruct (in_node_chunk s t Hin) as [Hs Ht].
  apply filter_single; [apply els_NoDup|done|by destruct Hmb|].
  intros y Hy [_ Hc].
  destruct (bound_text_origin y _ Hy Hc) as (n' & s' & _ & Hs' & Hch' & E).
  destruct Hch' as (? & ? & [= <- <-] & Hch').
  destruct Hch' as (_ & _ & _ & _ & _ & _ & _ & _ & _ & [_ Hbe']).
  assert (s' = s) as ->.
  { apply same_id; [by apply in_node_chunk in Hs' as [? _]|done..]. }
  destruct Hmb as [_ Hbe]. rewrite Hbe in Hbe'. injection Hbe' as Hid.
  apply same_id; done.
Qed.

Lemma bound_text_container t c :
  t ∈ els → el_containerId t = Some c →
  isText t ∧ ∃ s, s ∈ filter isShape (concat nch) ∧
                  withId els c = [s] ∧ mutuallyBound s t.
Proof.
  intros Ht Hc.
  destruct (bound_text_origin t c Ht Hc) as (n & s & _ & Hin & Hch & <-).
  pose proof Hch as (? & ? & [= <- <-] & Hch').
  destruct Hch' as (Hsh & _ & _ & _ & _ & _ & _ & Htx & _ & Hmb).
  split; [done|]. exists s. destruct (in_node_chunk s t Hin) as [Hs _].
  split_and!; [|apply filter_single|done].
  - apply list_elem_of_filter. split; [done|].
    apply elem_of_concat. exists [s; t]. split; [by left|done].
  - apply els_NoDup.
  - done.
  - done.
  - intros y Hy E. by apply same_id.
Qed.
End Bindings.


Local Open Scope Q_scope.

(** C2, as it holds.  In every rendered document the shapes are the group
    boxes followed by the node shapes.  Each node's shape has exactly one
    text bound to it, the node's label: that text names the shape as its
    container and the shape records it as its one bound element.  Every
    text that has a container is such a label, and its container id is the
    id of exactly one element, the node's shape.  A group's box has no
    bound text: its bound elements are empty and no text names it as its
    container (the group's label has none). *)
Theorem node_shapes_bound_group_boxes_not (rt : Runtime) (l : Layout) (w : World) :
  let els := elements (render rt l w).1 in
  ∃ boxes shapes,
    filter isShape els = boxes ++ shapes ∧
    Forall2 (fun group box =>
               el_x box = pg_x group ∧ el_y box = pg_y group ∧
               el_width box = pg_width group ∧ el_height box = pg_height group ∧
               el_boundElements box = Some [] ∧ boundTexts els box = [])
            (l_groups l) boxes ∧
    Forall2 (fun node s =>
               el_x s = pn_x node ∧ el_y s = pn_y node ∧
               el_width s = pn_width node ∧ el_height s = pn_height node ∧
               ∃ t, boundTexts els s = [t] ∧ mutuallyBound s t ∧
                    el_text t = Some (node_label (pn_node node)))
            (l_nodes l) shapes ∧
    (∀ t c, t ∈ els → el_containerId t = Some c →
            isText t ∧ ∃ s, s ∈ shapes ∧ withId els c = [s] ∧ mutuallyBound s t).
Proof.
  intros els.
  destruct (render_structure rt l w) as (gch & nch & cch & w' & Hr & HG & HN & HC & Hids).
  subst els. rewrite Hr. cbn [fst elements envelope].
  destruct (filter_shapes_groups _ _ HG) as (boxes & Hb & HFb).
  destruct (filter_shapes_nodes _ _ HN) as (shapes & Hs & HFs).
  exists boxes, shapes. split_and!.
  - rewrite !filter_app, Hb, Hs, (filter_shapes_connections _ _ HC).
    by rewrite app_nil_r.
  - eapply Forall2_impl; [exact HFb|]. intros g b (lbl & Hch & Hin).
    destruct (group_box_unbound _ _ _ _ _ _ HG HN HC Hids g b lbl Hin Hch) as [? ?].
    destruct Hch as (? & ? & [= <- <-] & Hch).
    destruct Hch as (_ & _ & ? & ? & ? & ? & _). by split_and!.
  - eapply Forall2_impl; [exact HFs|]. intros n s (t & Hch & Hin).
    destruct (node_shape_bound _ _ _ _ _ _ HG HN HC Hids n s t Hin Hch) as [? ?].
    destruct Hch as (? & ? & [= <- <-] & Hch).
    destruct Hch as (_ & _ & ? & ? & ? & ? & _ & _ & ? & _).
    split_and!; [done..|]. by exists t.
  - intros t c Ht Hc. rewrite <- Hs.
    by apply (bound_text_container _ _ _ _ _ _ HG HN HC Hids).
Qed.

(** C2 as stated fails on a document with a group: the box of the group
    is a shape and no text is bound to it. *)
Lemma group_box_has_no_bound_text :
  ∃ doc warnings w',
    generateDiagram sampleRuntime twoNodesGrouped freshWorld = Ok (doc, warnings, w') ∧
    ¬ everyShapeHasOneText (elements doc).
Proof.
  eexists _, _, _. split; [by vm_compute|].
  intros H. unfold everyShapeHasOneText in H. cbn [elements] in H.
  match type of H with
  | ∀ s, s ∈ ?box :: _ → _ =>
      destruct (H box) as (t & Ht & _); [by left|by left|]
  end.
  vm_compute in Ht. discriminate.
Qed.


(** C1, on the code.  In the document of the two-node scenario the arrow
    of the first renderer carries the node ids of the architecture, "u" and
    "s", as the element ids of its two bindings; no element of the document
    has either id (the shapes are named by [generateId]), so neither
    binding refers to a shape of the document.  The arrow of the second
    renderer carries no binding at all. *)
Theorem arrow_bindings_name_no_shape :
  (∃ doc warnings w' a,
     generateDiagram sampleRuntime twoNodes freshWorld = Ok (doc, warnings, w') ∧
     a ∈ elements doc ∧ isArrow a ∧
     el_startBinding a = Some {| elementId := "u"; focus := 0; gap := 0 |} ∧
     el_endBinding a = Some {| elementId := "s"; focus := 0; gap := 0 |} ∧
     withId (elements doc) "u" = [] ∧ withId (elements doc) "s" = [] ∧
     ¬ arrowsBindToShapes (elements doc)) ∧
  (∀ rt connection w a,
     a ∈ (renderConnection_2 rt connection w).1 →
     el_startBinding a = None ∧ el_endBinding a = None).
Proof.
  split.
  - eexists _, _, _, _. split; [by vm_compute|]. cbn [elements].
    split; [do 4 right; left|].
    split; [reflexivity|]. split; [reflexivity|]. split; [reflexivity|].
    match goal with
    | |- withId ?els "u" = [] ∧ _ =>
        assert (Hu : withId els "u" = []) by (by vm_compute);
        assert (Hs : withId els "s" = []) by (by vm_compute)
    end.
    split; [exact Hu|]. split; [exact Hs|]. intros H.
    edestruct H as [(bd & s & Hb & Hin & _ & Hid) _];
      [do 4 right; left|reflexivity|].
    cbn in Hb. injection Hb as <-. cbn in Hid.
    eapply elem_of_nil. rewrite <- Hu. apply list_elem_of_filter. by split.
  - intros rt connection [c r] a. state_simpl.
    destruct (truthy _ && trimNonEmpty _); cbn; intros Ha.
    + apply elem_of_cons in Ha as [->|Ha]; [done|].
      by apply list_elem_of_singleton in Ha as ->.
    + by apply list_elem_of_singleton in Ha as ->.
Qed.


(** ** The pipeline *)

Lemma zodOutcome_bind {A B} (m : result A) (f : A → result B) :
  zodOutcome m → (∀ a, zodOutcome (f a)) → zodOutcome (m ≫= f).
Proof. destruct m as [a|[]|]; cbn; [auto|done..]. Qed.

Lemma z_enum_zod allowed path v : zodOutcome (z_enum allowed path v).
Proof. unfold z_enum. by case_bool_decide. Qed.

Lemma z_enum_default_zod allowed path d v :
  zodOutcome (z_enum_default allowed path d v).
Proof. destruct v; cbn; [apply z_enum_zod|done]. Qed.

Lemma z_array_zod {A B} (f : A → result B) l :
  (∀ a, zodOutcome (f a)) → zodOutcome (z_array f l).
Proof.
  intros Hf. induction l as [|a l IH]; cbn; [done|].
  apply zodOutcome_bind; [done|]. intros b.
  apply zodOutcome_bind; [done|]. by intros bs.
Qed.

Lemma parse_zod raw : zodOutcome (ArchitectureSchema_parse raw).
Proof.
  unfold ArchitectureSchema_parse.
  apply zodOutcome_bind.
  { apply z_array_zod. intros n. unfold NodeSchema.
    apply zodOutcome_bind; [apply z_enum_zod|done]. }
  intros ns. apply zodOutcome_bind.
  { apply z_array_zod. intros c. unfold ConnectionSchema.
    apply zodOutcome_bind; [apply z_enum_zod|done]. }
  intros cs. apply zodOutcome_bind.
  { apply z_array_zod. intros g. unfold GroupSchema.
    apply zodOutcome_bind; [apply z_enum_default_zod|done]. }
  intros gs. apply zodOutcome_bind; [|done].
  destruct (raw_layout raw) as [l|]; [|done].
  apply zodOutcome_bind; [|done]. unfold LayoutSchema.
  apply zodOutcome_bind; [apply z_enum_default_zod|]. intros t.
  apply zodOutcome_bind; [apply z_enum_default_zod|done].
Qed.

Lemma generateHierarchicalLayout_built ns cs gs cfg G :
  buildDependencyGraph ns cs = Ok G →
  ∃ layers,
    assignLayers ns G = Ok layers ∧
    generateHierarchicalLayout ns cs gs cfg
    = Ok (finishLayout cs gs
            (positionNodesInLayers layers (directionOf cfg)
               (spacingOr {| sp_node := 80; sp_rank := 100 |} cfg))).
Proof.
  intros HG. destruct (assignLayers_total ns cs G HG) as (layers & Hl & _).
  exists layers. split; [done|].
  unfold generateHierarchicalLayout. rewrite HG. result_simpl. by rewrite Hl.
Qed.

Lemma generateHierarchicalLayout_Throw ns cs gs cfg :
  Exists (breaksGraph ns) cs →
  ∃ msg, generateHierarchicalLayout ns cs gs cfg = Throw (TypeError msg).
Proof.
  intros [msg Hm]%buildDependencyGraph_Throw. exists msg.
  unfold generateHierarchicalLayout. by rewrite Hm.
Qed.

Ltac not_listed :=
  try match goal with H : _ = _ |- _ ∉ _ => rewrite H end;
  repeat (apply not_elem_of_cons; split; [done|]); apply not_elem_of_nil.

(** The grid and the layered strategy never look at the dependency
    graph; every other layout type is laid out hierarchically. *)
Lemma generateLayout_total a :
  layoutTypeOf (default emptyLayoutConfig (layout a)) ∈ ["grid"; "layered"] ∨
  Forall (fun c => ¬ breaksGraph (nodes a) c) (connections a) →
  ∃ l warnings, generateLayout a = Ok (l, warnings).
Proof.
  intros Hsafe. unfold generateLayout.
  assert (Hh : layoutTypeOf (default emptyLayoutConfig (layout a))
               ∉ ["grid"; "layered"] →
               ∃ p, generateHierarchicalLayout (nodes a) (connections a) (groups a)
                      (default emptyLayoutConfig (layout a)) = Ok p).
  { intros Hty. destruct Hsafe as [?|Hsafe]; [done|].
    destruct (buildDependencyGraph_Ok _ _ Hsafe) as [G HG].
    destruct (generateHierarchicalLayout_built _ _ (groups a)
                (default emptyLayoutConfig (layout a)) G HG) as (? & _ & ->).
    by eexists. }
  repeat case_bool_decide.
  - destruct Hh as [[l w] ->]; [not_listed|]. by exists l, w.
  - result_simpl. destruct (generateGridLayout _ _ _ _) as [l w]. by exists l, w.
  - unfold generateLayeredLayout. result_simpl.
    destruct (finishLayout _ _ _) as [l w]. by exists l, w.
  - destruct Hh as [[l w] ->]; [not_listed|]. by exists l, w.
Qed.

Lemma generateLayout_Throw a :
  layoutTypeOf (default emptyLayoutConfig (layout a)) ∉ ["grid"; "layered"] →
  Exists (breaksGraph (nodes a)) (connections a) →
  ∃ msg, generateLayout a = Throw (TypeError msg).
Proof.
  intros Hty Hex. unfold generateLayout.
  destruct (generateHierarchicalLayout_Throw (nodes a) (connections a) (groups a)
              (default emptyLayoutConfig (layout a)) Hex) as [msg Hm].
  exists msg. repeat case_bool_decide; [done| | |done];
    destruct Hty; match goal with H : _ = _ |- _ => rewrite H end;
    [left|right; left].
Qed.

(** C3, on the code.  The two-node scenario with one connection from
    ["constructor"] to the service passes validation: every enumerated key
    is valid and the schema does not look up the ends of a connection.
    [buildDependencyGraph] then reads [graph["constructor"]], finds the
    function every object inherits, takes the connection for an edge and
    pushes onto its [outgoing], which is [undefined]: the pipeline ends in
    a [TypeError], whatever the renderer's clock and counter are. *)
Theorem inherited_name_aborts_the_pipeline :
  (∃ a, ArchitectureSchema_parse withInheritedSource = Ok a ∧
        nodes a = [userNode; serviceNode] ∧
        conn_from <$> connections a = ["constructor"] ∧
        conn_to <$> connections a = ["s"]) ∧
  (∀ rt w, ∃ msg,
     generateDiagram rt withInheritedSource w = Throw (TypeError msg)).
Proof.
  split; [eexists; split; [by vm_compute|done]|].
  intros rt w. eexists. by vm_compute.
Qed.


Lemma finishLayout_eq cs gs positioned :
  finishLayout cs gs positioned
  = ({| l_nodes := positioned;
        l_connections := (calculateConnectionPaths cs positioned).1;
        l_groups := positionGroups gs positioned;
        l_bounds := calculateBounds positioned |},
     (calculateConnectionPaths cs positioned).2).
Proof. unfold finishLayout. by destruct (calculateConnectionPaths cs positioned). Qed.

(** Every warning of the layout engine is the missing-node warning of a
    connection. *)
Lemma warnings_are_missing_nodes a l warnings :
  generateLayout a = Ok (l, warnings) →
  warnings = (calculateConnectionPaths (connections a) (l_nodes l)).2 ∧
  ∀ m, m ∈ warnings → ∃ c, c ∈ connections a ∧ m = missingNodeWarning c.
Proof.
  intros Hl.
  assert (Hw : warnings = (calculateConnectionPaths (connections a) (l_nodes l)).2).
  { revert Hl. unfold generateLayout, generateHierarchicalLayout.
    destruct (buildDependencyGraph (nodes a) (connections a)) as [G| |];
      result_simpl;
      [destruct (assignLayers (nodes a) G) as [layers| |]|..];
      repeat case_bool_decide; try done;
      unfold generateLayeredLayout, generateGridLayout, positionLayeredNodes;
      result_simpl; rewrite finishLayout_eq; by intros [= <- <-]. }
  split; [done|]. rewrite Hw. unfold calculateConnectionPaths. cbn.
  intros m (s & Hin & Hs)%list_elem_of_omap.
  apply list_elem_of_fmap in Hin as (c & -> & Hc).
  exists c. split; [done|]. unfold routeConnection in Hs.
  by repeat case_match; simplify_eq.
Qed.

Lemma layoutTypeOf_with t a :
  t ≠ "" → layoutTypeOf (default emptyLayoutConfig (layout (withLayoutType t a))) = t.
Proof. intros Ht. cbn. unfold layoutTypeOf. cbn. by rewrite bool_decide_eq_false_2. Qed.

Lemma generateLayout_fallback a t :
  t ∉ ["hierarchical"; "grid"; "layered"] →
  generateLayout (withLayoutType t a)
  = generateLayout (withLayoutType "hierarchical" a).
Proof.
  intros Ht. unfold generateLayout.
  assert (Hh : layoutTypeOf (default emptyLayoutConfig
                 (layout (withLayoutType "hierarchical" a))) = "hierarchical")
    by (by apply layoutTypeOf_with).
  rewrite Hh. rewrite (bool_decide_eq_true_2 ("hierarchical" = "hierarchical")) by done.
  destruct (decide (t = "")) as [->|Hne].
  - cbn. by rewrite (bool_decide_eq_true_2 ("hierarchical" = "hierarchical")).
  - rewrite layoutTypeOf_with by done.
    rewrite !bool_decide_eq_false_2 by (intros ->; set_solver). done.
Qed.

Lemma parse_withRawLayoutType t raw :
  t ∈ LayoutTypeSchema →
  ArchitectureSchema_parse (withRawLayoutType t raw)
  = ns ← z_array NodeSchema (raw_nodes raw);
    cs ← z_array ConnectionSchema (raw_connections raw);
    gs ← z_array GroupSchema (default [] (raw_groups raw));
    d ← z_enum_default DirectionSchema "layout.direction" "TB"
          (raw_layout raw ≫= raw_direction);
    mret (withLayoutType t
            {| nodes := ns; connections := cs; groups := gs;
               layout := Some {| lc_type := None; lc_direction := Some d;
                                 lc_spacing := SpacingSchema <$>
                                                 (raw_layout raw ≫= raw_spacing) |} |}).
Proof.
  intros Ht. unfold ArchitectureSchema_parse. cbn [raw_nodes raw_connections
    raw_groups raw_layout withRawLayoutType].
  destruct (z_array NodeSchema (raw_nodes raw)) as [ns| |]; [|done..].
  destruct (z_array ConnectionSchema (raw_connections raw)) as [cs| |]; [|done..].
  destruct (z_array GroupSchema (default [] (raw_groups raw))) as [gs| |]; [|done..].
  result_simpl. unfold LayoutSchema. cbn [raw_type raw_direction raw_spacing].
  change (z_enum_default LayoutTypeSchema "layout.type" "hierarchical" (Some t))
    with (z_enum LayoutTypeSchema "layout.type" t).
  unfold z_enum. rewrite (bool_decide_eq_true_2 _ Ht). result_simpl.
  by destruct (z_enum_default DirectionSchema _ _ _) as [d| |].
Qed.

(** C7, as it holds.  For a [layout.type] other than hierarchical, grid
    and layered the layout engine returns what it returns for
    hierarchical: the same layout with the same warnings, or the same
    exception.  Each warning is the missing-node warning of a connection:
    none records the substitution.  A layout is returned whenever no
    connection breaks the dependency graph.  The pipeline as a whole gives
    the same outcome for "force", the one such value the schema lets
    through, as for "hierarchical". *)
Theorem unknown_layout_type_falls_back_silently (a : Architecture) (t : string) :
  t ∉ ["hierarchical"; "grid"; "layered"] →
  generateLayout (withLayoutType t a)
  = generateLayout (withLayoutType "hierarchical" a) ∧
  (∀ l warnings,
     generateLayout (withLayoutType "hierarchical" a) = Ok (l, warnings) →
     generateLayout (withLayoutType t a) = Ok (l, warnings) ∧
     ∀ m, m ∈ warnings → ∃ c, c ∈ connections a ∧ m = missingNodeWarning c) ∧
  (Forall (fun c => ¬ breaksGraph (nodes a) c) (connections a) →
   ∃ l warnings, generateLayout (withLayoutType t a) = Ok (l, warnings)) ∧
  (∀ rt raw w,
     generateDiagram rt (withRawLayoutType "force" raw) w
     = generateDiagram rt (withRawLayoutType "hierarchical" raw) w).
Proof.
  intros Ht. split; [by apply generateLayout_fallback|]. split; [|split].
  - intros l warnings Hl. rewrite (generateLayout_fallback a t Ht).
    split; [done|].
    by apply (warnings_are_missing_nodes (withLayoutType "hierarchical" a) l warnings).
  - intros Hsafe.
    apply (generateLayout_total (withLayoutType t a)). by right.
  - intros rt raw w. unfold generateDiagram.
    rewrite !parse_withRawLayoutType by (unfold LayoutTypeSchema; set_solver).
    destruct (z_array NodeSchema (raw_nodes raw)) as [ns| |]; [|done..].
    destruct (z_array ConnectionSchema (raw_connections raw)) as [cs| |]; [|done..].
    destruct (z_array GroupSchema (default [] (raw_groups raw))) as [gs| |]; [|done..].
    destruct (z_enum_default DirectionSchema _ _ _) as [d| |]; [|done..].
    result_simpl. by rewrite (generateLayout_fallback _ "force") by set_solver.
Qed.

Lemma unknown_layout_type_witness :
  generateLayout (withLayoutType "force"
                    {| nodes := [userNode; serviceNode];
                       connections := [userToService]; groups := [];
                       layout := None |})
  = generateLayout (withLayoutType "hierarchical"
                      {| nodes := [userNode; serviceNode];
                         connections := [userToService]; groups := [];
                         layout := None |}).
Proof.
  apply (proj1 (unknown_layout_type_falls_back_silently
                  {| nodes := [userNode; serviceNode];
                     connections := [userToService]; groups := [];
                     layout := None |} "force"
                  ltac:(by apply (bool_decide_unpack _); vm_compute))).
Defined.

(** C7 as stated fails on the two-node scenario with [layout.type]
    "force": the document is produced and no diagnostic is recorded with
    it. *)
Lemma force_layout_records_no_diagnostic :
  ∃ doc w',
    generateDiagram sampleRuntime (withRawLayoutType "force" twoNodes) freshWorld
    = Ok (doc, [], w').
Proof. eexists _, _. by vm_compute. Qed.


(** ** Dangling connections *)

Lemma resolves_imap (f : nat → Node → PositionedNode) ns i :
  (∀ k n, pn_node (f k n) = n) →
  resolves (imap f ns) i ↔ i ∈ nodeIds ns.
Proof.
  intros Hf. unfold resolves. rewrite elem_of_nodeIds. split.
  - intros (p & (k & n & -> & Hn)%elem_of_lookup_imap & <-).
    exists n. unfold pn_id. rewrite Hf. split; [|done].
    by eapply list_elem_of_lookup_2.
  - intros (n & (k & Hk)%list_elem_of_lookup & <-).
    exists (f k n). split; [by apply elem_of_lookup_imap_2|].
    unfold pn_id. by rewrite Hf.
Qed.

Lemma pn_node_positionNode direction spacing len li ni n :
  pn_node (positionNode direction spacing len li ni n) = n.
Proof.
  unfold positionNode.
  by destruct (bool_decide (direction = "TB") || bool_decide (direction = "BT")).
Qed.

Lemma resolves_positionNodesInLayers layers direction spacing i :
  resolves (positionNodesInLayers layers direction spacing) i
  ↔ i ∈ nodeIds (concat layers).
Proof.
  unfold positionNodesInLayers, resolves. rewrite elem_of_nodeIds. split.
  - intros (p & (ch & Hp & Hch)%elem_of_concat & <-).
    apply elem_of_lookup_imap in Hch as (li & layer & -> & Hl).
    apply elem_of_lookup_imap in Hp as (ni & n & -> & Hn).
    exists n. split; [|by unfold pn_id; rewrite pn_node_positionNode].
    apply elem_of_concat. exists layer.
    split; by eapply list_elem_of_lookup_2.
  - intros (n & (layer & Hn & Hl)%elem_of_concat & <-).
    apply list_elem_of_lookup in Hl as (li & Hl).
    apply list_elem_of_lookup in Hn as (ni & Hn).
    exists (positionNode direction spacing (length layer) li ni n).
    split; [|by unfold pn_id; rewrite pn_node_positionNode]. apply elem_of_concat.
    exists (imap (positionNode direction spacing (length layer) li) layer).
    split; [by apply elem_of_lookup_imap_2|].
    by apply (elem_of_lookup_imap_2
                (fun li layer => imap (positionNode direction spacing (length layer) li) layer)).
Qed.

Lemma groupNodesByType_covers ns n : n ∈ ns → n ∈ concat (groupNodesByType ns).
Proof.
  intros Hn. destruct (groupNodesByType_ranks ns n Hn) as (k & l & Hk & Hin & _).
  apply elem_of_concat. exists l. split; [done|]. by eapply list_elem_of_lookup_2.
Qed.

Lemma assignLayers_covers ns cs G layers n :
  buildDependencyGraph ns cs = Ok G →
  assignLayers ns G = Ok layers →
  n ∈ ns → node_id n ∈ nodeIds (concat layers).
Proof.
  intros HG Hl Hn. unfold assignLayers in Hl.
  destruct (assignLayersFuel_spec ns cs G (S (length ns)) HG ltac:(done)) as [H0 H1].
  destruct (decide (zeroInDegreeNodes ns cs = [])) as [E|E].
  - rewrite (H0 E) in Hl. injection Hl as <-.
    apply elem_of_nodeIds. exists n. split; [|done]. by apply groupNodesByType_covers.
  - destruct (H1 E) as (ranks & Hr & _). rewrite Hr in Hl. injection Hl as <-.
    rewrite concat_app, nodeIds_app, elem_of_union.
    destruct (decide (node_id n ∈ nodeIds (concat ranks))) as [?|Hno]; [by left|].
    right. unfold overflowRank.
    assert (n ∈ filter (fun n => node_id n ∉ nodeIds (concat ranks)) ns) as Hin
      by (by apply list_elem_of_filter).
    destruct (filter _ ns) as [|r rest]; [by apply elem_of_nil in Hin|].
    rewrite concat_cons, concat_nil, app_nil_r.
    apply elem_of_nodeIds. by exists n.
Qed.

Lemma Ok_inj {A} (x y : A) : Ok x = Ok y → x = y.
Proof. congruence. Qed.

(** ** The shape of a layout *)

Lemma generateLayout_grid a :
  let cfg := default emptyLayoutConfig (layout a) in
  layoutTypeOf cfg = "grid" →
  generateLayout a
  = Ok (finishLayout (connections a) (groups a)
          (imap (gridNode (gridCols (nodes a))
                   (spacingOr {| sp_node := 80; sp_rank := 100 |} cfg))
                (nodes a))).
Proof.
  intros cfg Ht. unfold generateLayout. fold cfg. rewrite Ht.
  rewrite bool_decide_eq_false_2 by done. by rewrite bool_decide_eq_true_2.
Qed.

Lemma generateLayout_layered a :
  let cfg := default emptyLayoutConfig (layout a) in
  layoutTypeOf cfg = "layered" →
  generateLayout a
  = Ok (finishLayout (connections a) (groups a)
          (positionNodesInLayers (groupNodesByType (nodes a)) (directionOf cfg)
             (spacingOr {| sp_node := 80; sp_rank := 120 |} cfg))).
Proof.
  intros cfg Ht. unfold generateLayout. fold cfg. rewrite Ht.
  rewrite !bool_decide_eq_false_2 by done. by rewrite bool_decide_eq_true_2.
Qed.

Lemma generateLayout_hierarchical a :
  let cfg := default emptyLayoutConfig (layout a) in
  layoutTypeOf cfg ≠ "grid" → layoutTypeOf cfg ≠ "layered" →
  generateLayout a
  = generateHierarchicalLayout (nodes a) (connections a) (groups a) cfg.
Proof.
  intros cfg Hg Hl. unfold generateLayout. fold cfg.
  by repeat case_bool_decide.
Qed.

(** Every layout is [finishLayout] of positions that are either the grid
    of the nodes or the ranks of [groupNodesByType] or [assignLayers]. *)
Lemma generateLayout_shape a l warnings :
  generateLayout a = Ok (l, warnings) →
  let cfg := default emptyLayoutConfig (layout a) in
  ∃ positioned,
    (l, warnings) = finishLayout (connections a) (groups a) positioned ∧
    ((layoutTypeOf cfg = "grid" ∧
      positioned = imap (gridNode (gridCols (nodes a))
                           (spacingOr {| sp_node := 80; sp_rank := 100 |} cfg))
                        (nodes a)) ∨
     (layoutTypeOf cfg = "layered" ∧
      positioned = positionNodesInLayers (groupNodesByType (nodes a))
                     (directionOf cfg)
                     (spacingOr {| sp_node := 80; sp_rank := 120 |} cfg)) ∨
     (layoutTypeOf cfg ≠ "grid" ∧ layoutTypeOf cfg ≠ "layered" ∧
      ∃ G layers,
        buildDependencyGraph (nodes a) (connections a) = Ok G ∧
        assignLayers (nodes a) G = Ok layers ∧
        positioned = positionNodesInLayers layers (directionOf cfg)
                       (spacingOr {| sp_node := 80; sp_rank := 100 |} cfg))).
Proof.
  intros Hl cfg.
  destruct (decide (layoutTypeOf cfg = "grid")) as [Hg|Hg].
  { rewrite (generateLayout_grid a Hg) in Hl. apply Ok_inj in Hl.
    eexists. split; [symmetry; exact Hl|]. by left. }
  destruct (decide (layoutTypeOf cfg = "layered")) as [Hy|Hy].
  { rewrite (generateLayout_layered a Hy) in Hl. apply Ok_inj in Hl.
    eexists. split; [symmetry; exact Hl|]. right; left. done. }
  rewrite (generateLayout_hierarchical a Hg Hy) in Hl.
  unfold generateHierarchicalLayout in Hl. fold cfg in Hl.
  destruct (buildDependencyGraph (nodes a) (connections a)) as [G| |] eqn:HG;
    [|done..].
  revert Hl. result_simpl.
  destruct (assignLayers (nodes a) G) as [layers| |] eqn:Hlay; [|done..].
  intros Hl%Ok_inj. eexists. split; [symmetry; exact Hl|].
  right; right. split_and!; [done..|]. by exists G, layers.
Qed.


Lemma calculateConnectionPaths_app cs1 cs2 positioned :
  calculateConnectionPaths (cs1 ++ cs2) positioned
  = ((calculateConnectionPaths cs1 positioned).1
       ++ (calculateConnectionPaths cs2 positioned).1,
     (calculateConnectionPaths cs1 positioned).2
       ++ (calculateConnectionPaths cs2 positioned).2).
Proof.
  unfold calculateConnectionPaths, lefts, rights. cbn [fst snd].
  by rewrite fmap_app, !omap_app.
Qed.

Lemma resolves_ids ps k : resolves ps k ↔ k ∈ (pn_id <$> ps).
Proof.
  unfold resolves. rewrite list_elem_of_fmap. split.
  - intros (p & ? & <-). by exists p.
  - intros (p & -> & ?). by exists p.
Qed.

Lemma nodeMap_found ps k :
  "__proto__" ∉ (pn_id <$> ps) →
  isTruthy (member (buildNodeMap ps) k) = true ↔ foundInNodeMap ps k.
Proof.
  intros Hp. unfold foundInNodeMap. rewrite <- resolves_ids.
  apply nodeMap_member_truthy. by rewrite resolves_ids.
Qed.

(** One connection: routed when both its ends are found, reported
    otherwise. *)
Lemma routeConnection_cases ps c :
  "__proto__" ∉ (pn_id <$> ps) →
  routeConnection (buildNodeMap ps) c
  = if decide (routable ps c)
    then inl {| pc_conn := c;
                pc_points := connectionPointsOf
                               (member (buildNodeMap ps) (conn_from c))
                               (member (buildNodeMap ps) (conn_to c));
                pc_id := connectionId c |}
    else inr (missingNodeWarning c).
Proof.
  intros Hp. unfold routeConnection, routable.
  pose proof (nodeMap_found ps (conn_from c) Hp) as Hf.
  pose proof (nodeMap_found ps (conn_to c) Hp) as Ht.
  destruct (isTruthy (member (buildNodeMap ps) (conn_from c)));
    destruct (isTruthy (member (buildNodeMap ps) (conn_to c))); cbn;
    case_decide; try done; naive_solver.
Qed.

Lemma calculateConnectionPaths_cons c cs ps :
  "__proto__" ∉ (pn_id <$> ps) →
  calculateConnectionPaths (c :: cs) ps
  = if decide (routable ps c)
    then ({| pc_conn := c;
             pc_points := connectionPointsOf
                            (member (buildNodeMap ps) (conn_from c))
                            (member (buildNodeMap ps) (conn_to c));
             pc_id := connectionId c |}
            :: (calculateConnectionPaths cs ps).1,
          (calculateConnectionPaths cs ps).2)
    else ((calculateConnectionPaths cs ps).1,
          missingNodeWarning c :: (calculateConnectionPaths cs ps).2).
Proof.
  intros Hp. unfold calculateConnectionPaths, lefts, rights.
  rewrite fmap_cons. cbn [omap list_omap fst snd].
  rewrite (routeConnection_cases ps c Hp). by case_decide.
Qed.

(** A connection is routed or reported, never both and never neither. *)
Lemma calculateConnectionPaths_length cs ps :
  (length (calculateConnectionPaths cs ps).1
   + length (calculateConnectionPaths cs ps).2 = length cs)%nat.
Proof.
  unfold calculateConnectionPaths, lefts, rights. cbn [fst snd].
  induction cs as [|c cs IH]; [done|].
  rewrite fmap_cons. cbn [omap list_omap].
  destruct (routeConnection (buildNodeMap ps) c); cbn [length]; lia.
Qed.

Ltac type_clash :=
  unfold isArrow, isText in *;
  match goal with
  | H1 : el_type ?e = _, H2 : el_type ?e = _ |- _ => rewrite H1 in H2; discriminate H2
  end.

(** The arrows of a document are those of its routed connections. *)
Lemma arrow_origin rt l w e :
  e ∈ elements (render rt l w).1 → isArrow e →
  ∃ pc, pc ∈ l_connections l ∧
        el_startBinding e
        = Some {| elementId := conn_from (pc_conn pc); focus := 0; gap := 0 |} ∧
        el_endBinding e
        = Some {| elementId := conn_to (pc_conn pc); focus := 0; gap := 0 |}.
Proof.
  destruct (render_structure rt l w) as (gch & nch & cch & w' & -> & HG & HN & HC & _).
  cbn [fst elements envelope]. rewrite !elem_of_app. intros [He|[He|He]] Ha.
  - apply elem_of_concat in He as (ch & He & Hch).
    apply list_elem_of_lookup in Hch as (k & Hk).
    destruct (Forall2_lookup_r _ _ _ _ _ HG Hk) as (g & _ & Hg).
    destruct Hg as (box & label & -> & Hb & _ & _ & _ & _ & _ & _ & _ & Hlt & _).
    apply elem_of_cons in He as [->|He]; [type_clash|].
    apply list_elem_of_singleton in He as ->. type_clash.
  - destruct (nodeChunk_elems _ _ _ HN He)
      as (n & s & t & _ & _ & (s' & t' & Heq & Hs & _ & _ & _ & _ & _ & _ & Ht & _) & Hor).
    injection Heq as <- <-. destruct Hor as [-> | ->].
    + by apply isArrow_not_shape in Ha.
    + type_clash.
  - apply elem_of_concat in He as (ch & He & Hch).
    apply list_elem_of_lookup in Hch as (k & Hk).
    destruct (Forall2_lookup_r _ _ _ _ _ HC Hk) as (pc & Hpc & Hc).
    destruct Hc as (arrowEl & rest & -> & _ & _ & Hsb & Heb & Hrest).
    apply elem_of_cons in He as [->|He].
    + exists pc. split; [by eapply list_elem_of_lookup_2|done].
    + destruct Hrest as [->|(labelEl & -> & Hl & _)]; [by apply elem_of_nil in He|].
      apply list_elem_of_singleton in He as ->.
      type_clash.
Qed.

(** C6, on the code.  In the two-node scenario under grid layout, with a
    second connection from ["constructor"] to ["toString"], neither end of
    that connection resolves to a positioned node.  The reads
    [nodeMap["constructor"]] and [nodeMap["toString"]] return the functions
    every object inherits, so the test [!fromNode || !toNode] does not fire:
    no diagnostic is recorded, the connection is routed with coordinates
    that are not numbers, and the document holds an arrow for it, bound to
    the two names. *)
Theorem inherited_ends_are_routed :
  ∃ a l doc w' arrow,
    ArchitectureSchema_parse withInheritedEnds = Ok a ∧
    generateLayout a = Ok (l, []) ∧
    resolvesTo (l_nodes l) "constructor" = None ∧
    resolvesTo (l_nodes l) "toString" = None ∧
    pc_conn <$> l_connections l = connections a ∧
    generateDiagram sampleRuntime withInheritedEnds freshWorld = Ok (doc, [], w') ∧
    length (filter isArrow (elements doc)) = 2%nat ∧
    arrow ∈ elements doc ∧ isArrow arrow ∧
    el_startBinding arrow
    = Some {| elementId := "constructor"; focus := 0; gap := 0 |} ∧
    el_endBinding arrow
    = Some {| elementId := "toString"; focus := 0; gap := 0 |} ∧
    el_x arrow = NaN ∧ el_y arrow = NaN ∧
    el_width arrow = NaN ∧ el_height arrow = NaN.
Proof.
  eexists _, _, _, _, _.
  split; [by vm_compute|]. split; [by vm_compute|].
  split; [by vm_compute|]. split; [by vm_compute|].
  split; [by vm_compute|]. split; [by vm_compute|].
  split; [by vm_compute|].
  split; [cbn [elements]; do 5 right; left|].
  by split_and!.
Qed.


(** ** Centring of a rank *)

(** Where [positionNodesInLayers] puts a node of a vertical layout: the
    start of the rank is computed from the node's own width, taken once per
    member of the rank. *)
Lemma positionNode_vertical_x direction spacing len li ni n :
  direction = "TB" ∨ direction = "BT" →
  pn_x (positionNode direction spacing len li ni n)
  = (canvas_width canvas
     - (ofNat len * width (styleOf (node_type n))
        + (ofNat len - 1) * sp_node spacing)) / 2
    + ofNat ni * (width (styleOf (node_type n)) + sp_node spacing).
Proof.
  intros Hd. unfold positionNode.
  assert (bool_decide (direction = "TB") || bool_decide (direction = "BT") = true)
    as ->; [|done].
  destruct Hd as [-> | ->]; by vm_compute.
Qed.

Lemma positionNode_horizontal_y direction spacing len li ni n :
  direction ≠ "TB" → direction ≠ "BT" →
  pn_y (positionNode direction spacing len li ni n)
  = (canvas_height canvas
     - (ofNat len * height (styleOf (node_type n))
        + (ofNat len - 1) * sp_node spacing)) / 2
    + ofNat ni * (height (styleOf (node_type n)) + sp_node spacing).
Proof.
  intros H1 H2. unfold positionNode.
  by rewrite !bool_decide_eq_false_2 by done.
Qed.

(** C10 on a rank of mixed widths.  An actor (120 wide) and a service (140
    wide) without connections form the one rank of the hierarchical layout,
    top to bottom, with 80 between neighbours.  The rank is 340 wide and
    would start at 430 to be centred on the canvas of width 1200; the actor
    is placed at 440 and the service at 640, so the rank spans 440 to 780
    and its middle is 610. *)
Theorem mixed_width_rank_is_off_centre :
  ∃ l a b,
    generateLayout unconnectedPair = Ok (l, []) ∧
    l_nodes l = [a; b] ∧ pn_node a = userNode ∧ pn_node b = serviceNode ∧
    pn_y a == pn_y b ∧
    pn_width a == 120 ∧ pn_width b == 140 ∧
    pn_x a == 440 ∧ pn_x b == 640 ∧
    rankExtent pn_width {| sp_node := 80; sp_rank := 100 |} [a; b] == 340 ∧
    centredStart (canvas_width canvas) pn_width
      {| sp_node := 80; sp_rank := 100 |} [a; b] == 430 ∧
    ¬ pn_x a == centredStart (canvas_width canvas) pn_width
                  {| sp_node := 80; sp_rank := 100 |} [a; b] ∧
    ¬ (pn_x a + (pn_x b + pn_width b)) / 2 == canvas_width canvas / 2.
Proof.
  eexists _, _, _. split; [vm_compute; reflexivity|].
  split; [reflexivity|].
  split_and!; try reflexivity; try (by vm_compute);
    intros H; vm_compute in H; discriminate H.
Qed.


(** * Further properties of the layout engine *)

(** ** The shape of a layout *)

Lemma fmap_imap_inv {A B} (g : B → A) (f : nat → A → B) (l : list A) :
  (∀ k x, g (f k x) = x) → g <$> imap f l = l.
Proof.
  revert f. induction l as [|x l IH]; intros f Hf; [done|].
  rewrite imap_cons, fmap_cons, Hf. f_equal. apply IH. intros k y. apply Hf.
Qed.

Lemma fmap_concat {A B} (f : A → B) (ls : list (list A)) :
  f <$> concat ls = concat ((fun l : list A => f <$> l) <$> ls).
Proof.
  induction ls as [|l ls IH]; [done|].
  cbn [concat]. by rewrite fmap_app, fmap_cons, IH.
Qed.

Lemma pn_node_positionNodesInLayers layers direction spacing :
  pn_node <$> positionNodesInLayers layers direction spacing = concat layers.
Proof.
  unfold positionNodesInLayers. rewrite fmap_concat. f_equal.
  apply fmap_imap_inv. intros li layer.
  apply fmap_imap_inv. intros k n. apply pn_node_positionNode.
Qed.

Lemma pn_node_grid cols spacing ns :
  pn_node <$> imap (gridNode cols spacing) ns = ns.
Proof. by apply fmap_imap_inv. Qed.

Lemma groupNodesByType_sound ns n : n ∈ concat (groupNodesByType ns) → n ∈ ns.
Proof.
  rewrite groupNodesByType_eq, concat_app, elem_of_app.
  intros [(l & Hn & Hl)%elem_of_concat|(l & Hn & Hl)%elem_of_concat].
  - apply list_elem_of_omap in Hl as (t & _ & [-> _]%typeRank_Some).
    by apply list_elem_of_filter in Hn as [_ ?].
  - unfold remainingRank in Hl.
    destruct (filter _ ns) as [|r rest] eqn:E; [by apply elem_of_nil in Hl|].
    apply list_elem_of_singleton in Hl as ->. rewrite <- E in Hn.
    by apply list_elem_of_filter in Hn as [_ ?].
Qed.

Lemma overflowRank_sound ns ranks n : n ∈ concat (overflowRank ns ranks) → n ∈ ns.
Proof.
  unfold overflowRank.
  destruct (filter _ ns) as [|r rest] eqn:E; [by intros ?%elem_of_nil|].
  rewrite concat_cons, concat_nil, app_nil_r, <- E.
  by intros [_ ?]%list_elem_of_filter.
Qed.

Lemma assignLayers_sound ns cs G layers n :
  buildDependencyGraph ns cs = Ok G →
  assignLayers ns G = Ok layers →
  n ∈ concat layers → n ∈ ns.
Proof.
  intros HG Hl. unfold assignLayers in Hl.
  destruct (assignLayersFuel_spec ns cs G (S (length ns)) HG ltac:(done)) as [H0 H1].
  destruct (decide (zeroInDegreeNodes ns cs = [])) as [E|E].
  - rewrite (H0 E) in Hl. injection Hl as <-. apply groupNodesByType_sound.
  - destruct (H1 E) as (ranks & Hr & Hbfs). rewrite Hr in Hl. injection Hl as <-.
    rewrite concat_app, elem_of_app. intros [Hn|Hn].
    + destruct Hbfs as (_ & _ & Hin & _).
      apply elem_of_concat in Hn as (l & Hn & (k & Hk)%list_elem_of_lookup).
      apply (Hin k). by exists l.
    + by eapply overflowRank_sound.
Qed.

(** The ids of the positioned nodes are the ids of the nodes. *)
Lemma positioned_ids a l warnings i :
  generateLayout a = Ok (l, warnings) →
  resolves (l_nodes l) i ↔ i ∈ nodeIds (nodes a).
Proof.
  intros Hl.
  destruct (generateLayout_shape a l warnings Hl) as (pos & Hgen & Hshape).
  rewrite finishLayout_eq in Hgen.
  apply (f_equal fst) in Hgen. cbn [fst] in Hgen. rewrite Hgen. cbn [l_nodes].
  destruct Hshape as [[_ ->]|[[_ ->]|(_ & _ & G & layers & HG & Hlay & ->)]].
  - by apply resolves_imap.
  - rewrite resolves_positionNodesInLayers, !elem_of_nodeIds. split.
    + intros (n & Hn & <-). exists n. split; [|done]. by apply groupNodesByType_sound.
    + intros (n & Hn & <-). exists n. split; [|done]. by apply groupNodesByType_covers.
  - rewrite resolves_positionNodesInLayers. split.
    + intros (n & Hn & <-)%elem_of_nodeIds. apply elem_of_nodeIds.
      exists n. split; [|done]. by eapply assignLayers_sound.
    + intros (n & Hn & <-)%elem_of_nodeIds. by eapply assignLayers_covers.
Qed.

(** ** The dependency graph *)

Lemma incoming_hasEdge ns cs G d e i :
  buildDependencyGraph ns cs = Ok G →
  G !! d = Some e →
  i ∈ incoming e ↔ hasEdge ns cs i d.
Proof.
  intros HG (_ & -> & _)%(graph_incoming _ _ _ _ _ HG). unfold hasEdge, edgesInto.
  rewrite list_elem_of_fmap. split.
  - intros (c & -> & ((? & ?) & Hc)%list_elem_of_filter). by exists c.
  - intros (c & ? & ? & ? & ?). exists c. split; [done|].
    apply list_elem_of_filter. by split_and!.
Qed.

Lemma buildDependencyGraph_safe ns cs G :
  buildDependencyGraph ns cs = Ok G → Forall (fun c => ¬ breaksGraph ns c) cs.
Proof.
  intros HG. destruct (decide (Exists (breaksGraph ns) cs)) as [Hex|Hex].
  - destruct (buildDependencyGraph_Throw ns cs Hex) as [msg Hm]. congruence.
  - apply not_Exists_Forall in Hex; [|intros ?; apply _].
    eapply Forall_impl; [exact Hex|]. by intros ? ?.
Qed.

(** X1.  [buildDependencyGraph] builds the graph unless a connection
    breaks it, and then throws a [TypeError].  A connection breaks the
    graph when both its ends are found by a read on the graph object (a
    node id, a member name of [Object.prototype] or, when a node is called
    [__proto__], one of [incoming] and [outgoing]) and one of them is not a
    node id.  A graph that is built has one entry per node id and no other.
    The entry of an id lists, in the order of the connections, the source of
    every connection into it and the target of every connection out of it,
    counting only the connections both of whose ends are node ids; so an id
    is among the outgoing ids of a second one exactly when the second one is
    among its incoming ids, and the graph is the graph of the connections
    without one that is no edge. *)
Theorem dependency_graph_entries (ns : list Node) (cs : list Connection) :
  (Forall (fun c => ¬ breaksGraph ns c) cs →
   ∃ G, buildDependencyGraph ns cs = Ok G) ∧
  (Exists (breaksGraph ns) cs →
   ∃ msg, buildDependencyGraph ns cs = Throw (TypeError msg)) ∧
  (∀ G, buildDependencyGraph ns cs = Ok G →
     (∀ i, i ∈ nodeIds ns →
           G !! i = Some {| incoming := conn_from <$> edgesInto ns cs i;
                            outgoing := conn_to <$> edgesOutOf ns cs i |}) ∧
     (∀ i, i ∉ nodeIds ns → G !! i = None) ∧
     (∀ i d ei ed, G !! i = Some ei → G !! d = Some ed →
                   (d ∈ outgoing ei ↔ i ∈ incoming ed)) ∧
     (∀ before c after, cs = before ++ c :: after → ¬ isEdge ns c →
                        buildDependencyGraph ns (before ++ after) = Ok G)).
Proof.
  split; [apply buildDependencyGraph_Ok|].
  split; [apply buildDependencyGraph_Throw|].
  intros G HG. split_and!.
  - intros i Hi.
    by rewrite (buildDependencyGraph_lookup _ _ _ _ HG), bool_decide_eq_true_2.
  - intros i Hi.
    by rewrite (buildDependencyGraph_lookup _ _ _ _ HG), bool_decide_eq_false_2.
  - intros i d ei ed Hi Hd.
    by rewrite (outgoing_hasEdge _ _ _ _ _ _ HG Hi),
               (incoming_hasEdge _ _ _ _ _ _ HG Hd).
  - intros before c after -> He.
    pose proof (buildDependencyGraph_safe _ _ _ HG) as Hsafe.
    destruct (buildDependencyGraph_Ok ns (before ++ after)) as [G' HG'].
    { apply Forall_app in Hsafe as [? [_ ?]%Forall_cons]. by apply Forall_app. }
    rewrite HG'. f_equal. apply map_eq. intros i.
    rewrite (buildDependencyGraph_lookup _ _ _ _ HG),
            (buildDependencyGraph_lookup _ _ _ _ HG').
    unfold edgesInto, edgesOutOf.
    rewrite !filter_app, !filter_cons, !decide_False by tauto. done.
Qed.

(** ** Routing all connections *)

Lemma connectionPointsOf_from_inherited t :
  jsFromPoint (connectionPointsOf Inherited t)
  = {| js_x := NaN; js_y := Undefined |}.
Proof. by destruct t. Qed.

Lemma connectionPointsOf_to_inherited f :
  jsToPoint (connectionPointsOf f Inherited) = {| js_x := NaN; js_y := NaN |}.
Proof. by destruct f. Qed.

Lemma nodeMap_member_cases ps k :
  "__proto__" ∉ (pn_id <$> ps) → foundInNodeMap ps k →
  (∃ p, resolvesTo ps k = Some p ∧ member (buildNodeMap ps) k = Entry p) ∨
  (resolvesTo ps k = None ∧ member (buildNodeMap ps) k = Inherited).
Proof.
  intros Hp Hk. destruct (resolvesTo ps k) as [p|] eqn:E.
  - left. exists p. split; [done|]. by apply nodeMap_member_Entry.
  - right. split; [done|].
    assert (¬ resolves ps k) as Hno.
    { rewrite resolvesTo_resolves, E. by intros []. }
    rewrite nodeMap_member_other; [|by rewrite resolves_ids|done].
    destruct Hk as [Hk|Hk]; [by apply resolves_ids in Hk|].
    by rewrite bool_decide_eq_true_2.
Qed.

(** The split of the connections into the routed and the reported. *)
Lemma connections_split cs ps :
  "__proto__" ∉ (pn_id <$> ps) →
  pc_conn <$> (calculateConnectionPaths cs ps).1 = filter (routable ps) cs ∧
  (calculateConnectionPaths cs ps).2
  = missingNodeWarning <$> filter (fun c => ¬ routable ps c) cs.
Proof.
  intros Hp. induction cs as [|c cs [IH1 IH2]]; [done|].
  rewrite (calculateConnectionPaths_cons c cs ps Hp).
  destruct (decide (routable ps c)) as [Hr|Hr]; cbn [fst snd].
  - rewrite filter_cons_True by done.
    rewrite (filter_cons_False (fun c => ¬ routable ps c)) by tauto.
    by rewrite fmap_cons, IH1.
  - rewrite filter_cons_False by done.
    rewrite (filter_cons_True (fun c => ¬ routable ps c)) by done.
    by rewrite fmap_cons, IH2.
Qed.

(** X2.  [calculateConnectionPaths] splits the connections in two without
    reordering them.  With no positioned node called [__proto__], a
    connection is routed when each of its ends is the id of a positioned
    node or a member name of [Object.prototype], and produces its
    missing-node warning and nothing else otherwise.  A routed connection
    keeps the id it came with (or gets [conn_<from>_<to>]); when both its
    ends resolve, its points are the anchor points of the two nodes they
    resolve to; an end that does not resolve has [NaN] for its x. *)
Theorem connections_routed_or_reported (cs : list Connection)
  (ps : list PositionedNode) :
  "__proto__" ∉ (pn_id <$> ps) →
  let routed := (calculateConnectionPaths cs ps).1 in
  let warnings := (calculateConnectionPaths cs ps).2 in
  pc_conn <$> routed = filter (routable ps) cs ∧
  warnings = missingNodeWarning <$> filter (fun c => ¬ routable ps c) cs ∧
  ∀ pc, pc ∈ routed →
    pc_id pc = connectionId (pc_conn pc) ∧
    (∀ f t, resolvesTo ps (conn_from (pc_conn pc)) = Some f →
            resolvesTo ps (conn_to (pc_conn pc)) = Some t →
            pc_points pc
            = ofConnectionPoints (calculateOptimalConnectionPoints f t)) ∧
    (resolvesTo ps (conn_from (pc_conn pc)) = None →
     conn_from (pc_conn pc) ∈ objectPrototype ∧
     jsFromPoint (pc_points pc) = {| js_x := NaN; js_y := Undefined |}) ∧
    (resolvesTo ps (conn_to (pc_conn pc)) = None →
     conn_to (pc_conn pc) ∈ objectPrototype ∧
     jsToPoint (pc_points pc) = {| js_x := NaN; js_y := NaN |}).
Proof.
  intros Hp routed warnings. subst routed warnings.
  induction cs as [|c cs (IH1 & IH2 & IH3)]; [by split_and!; [..|intros ? ?%elem_of_nil]|].
  rewrite (calculateConnectionPaths_cons c cs ps Hp).
  destruct (decide (routable ps c)) as [Hr|Hr]; cbn [fst snd].
  - rewrite filter_cons_True by done.
    rewrite (filter_cons_False (fun c => ¬ routable ps c)) by tauto.
    rewrite fmap_cons, IH1. split_and!; [done..|].
    intros pc [->|Hpc]%elem_of_cons; [|by apply IH3].
    cbn [pc_id pc_conn pc_points]. destruct Hr as [Hf Ht].
    destruct (nodeMap_member_cases ps _ Hp Hf) as [(f & Ef & ->)|[Ef ->]];
      destruct (nodeMap_member_cases ps _ Hp Ht) as [(t & Et & ->)|[Et ->]];
      (split; [done|]); rewrite Ef, Et.
    + split_and!; [|done..]. by intros ? ? [= <-] [= <-].
    + split_and!; [done..|]. intros _. split; [|done].
      destruct Ht as [Ht|Ht]; [|done].
      apply resolves_ids, resolvesTo_resolves in Ht as [? ?]. congruence.
    + split_and!; [done| |done]. intros _. split; [|done].
      destruct Hf as [Hf|Hf]; [|done].
      apply resolves_ids, resolvesTo_resolves in Hf as [? ?]. congruence.
    + split_and!; [done|..]; intros _; (split; [|done]).
      * destruct Hf as [Hf|Hf]; [|done].
        apply resolves_ids, resolvesTo_resolves in Hf as [? ?]. congruence.
      * destruct Ht as [Ht|Ht]; [|done].
        apply resolves_ids, resolvesTo_resolves in Ht as [? ?]. congruence.
  - rewrite filter_cons_False by done.
    rewrite (filter_cons_True (fun c => ¬ routable ps c)) by done.
    rewrite fmap_cons, IH2. by split_and!.
Qed.

Lemma connections_routed_witness :
  pc_conn <$> (calculateConnectionPaths [userToService; inheritedEnds]
                 [leftBox; rightBox]).1
  = filter (routable [leftBox; rightBox]) [userToService; inheritedEnds].
Proof.
  apply (proj1 (connections_routed_or_reported [userToService; inheritedEnds]
                  [leftBox; rightBox]
                  ltac:(by apply (bool_decide_unpack _); vm_compute))).
Defined.

(** ** No node is lost *)

Lemma positionNode_style direction spacing len li ni n :
  let p := positionNode direction spacing len li ni n in
  pn_style p = styleOf (node_type n) ∧
  pn_width p = width (styleOf (node_type n)) ∧
  pn_height p = height (styleOf (node_type n)).
Proof.
  unfold positionNode.
  by destruct (bool_decide (direction = "TB") || bool_decide (direction = "BT")).
Qed.

Lemma positionNodesInLayers_elem layers direction spacing p :
  p ∈ positionNodesInLayers layers direction spacing →
  ∃ li layer ni n,
    layers !! li = Some layer ∧ layer !! ni = Some n ∧
    p = positionNode direction spacing (length layer) li ni n.
Proof.
  unfold positionNodesInLayers.
  intros (ch & Hp & Hch)%elem_of_concat.
  apply elem_of_lookup_imap in Hch as (li & layer & -> & Hl).
  apply elem_of_lookup_imap in Hp as (ni & n & -> & Hn).
  by exists li, layer, ni, n.
Qed.

Lemma filter_all {A} (P : A → Prop) `{!∀ x, Decision (P x)} (l : list A) :
  (∀ x, x ∈ l → P x) → filter P l = l.
Proof.
  induction l as [|x l IH]; intros Hall; [done|].
  rewrite filter_cons_True by (apply Hall; by left).
  f_equal. apply IH. intros y Hy. apply Hall. by right.
Qed.

Lemma concat_typeRanks ns ts :
  concat (omap (typeRank ns) ts) = concat (nodesOfType ns <$> ts).
Proof.
  induction ts as [|t ts IH]; [done|].
  rewrite fmap_cons. cbn [omap list_omap concat]. unfold typeRank at 1, nodesOfType at 1.
  destruct (filter _ ns) as [|n ofType]; [done|].
  cbn [concat]. by rewrite IH.
Qed.

Lemma partition_by_type ns ts :
  NoDup ts →
  concat (nodesOfType ns <$> ts) ++ filter (fun n => node_type n ∉ ts) ns ≡ₚ ns.
Proof.
  induction 1 as [|t ts Ht Hts IH].
  - cbn [fmap list_fmap concat app]. rewrite filter_all; [done|].
    intros n _. apply not_elem_of_nil.
  - rewrite fmap_cons. cbn [concat].
    assert (Hsplit : nodesOfType ns t ++ filter (fun n => node_type n ∉ t :: ts) ns
                     ≡ₚ filter (fun n => node_type n ∉ ts) ns).
    { rewrite <- (filter_app_complement (fun n => node_type n = t)
                    (filter (fun n => node_type n ∉ ts) ns)).
      rewrite !list_filter_filter.
      rewrite (list_filter_iff (fun n => node_type n = t ∧ node_type n ∉ ts)
                 (fun n => node_type n = t))
        by (intros n; split; [tauto|by intros ->]).
      rewrite (list_filter_iff (fun n => ¬ node_type n = t ∧ node_type n ∉ ts)
                 (fun n => node_type n ∉ t :: ts))
        by (intros n; rewrite not_elem_of_cons; tauto).
      done. }
    etrans; [|exact IH]. rewrite <- Hsplit.
    rewrite !(assoc_L (++)). apply Permutation_app_tail.
    apply Permutation_app_comm.
Qed.

Lemma groupNodesByType_perm ns : concat (groupNodesByType ns) ≡ₚ ns.
Proof.
  rewrite groupNodesByType_eq, concat_app, concat_typeRanks.
  etrans; [|exact (partition_by_type ns canonicalOrder canonicalOrder_NoDup)].
  apply Permutation_app_head. unfold remainingRank.
  destruct (filter _ ns) as [|r rest]; [done|].
  by rewrite concat_cons, concat_nil, app_nil_r.
Qed.

Lemma NoDup_ids_eq ns n m :
  NoDup (node_id <$> ns) → n ∈ ns → m ∈ ns → node_id n = node_id m → n = m.
Proof. apply NoDup_fmap_eq. Qed.

Lemma assignLayers_perm ns cs G layers :
  NoDup (node_id <$> ns) →
  buildDependencyGraph ns cs = Ok G →
  assignLayers ns G = Ok layers →
  concat layers ≡ₚ ns.
Proof.
  intros Hnd HG Hl. unfold assignLayers in Hl.
  destruct (assignLayersFuel_spec ns cs G (S (length ns)) HG ltac:(done)) as [H0 H1].
  destruct (decide (zeroInDegreeNodes ns cs = [])) as [E|E].
  - rewrite (H0 E) in Hl. injection Hl as <-. apply groupNodesByType_perm.
  - destruct (H1 E) as (ranks & Hr & Hbfs). rewrite Hr in Hl. injection Hl as <-.
    destruct Hbfs as (_ & Hndr & Hin & _).
    assert (Hsub : ∀ n, n ∈ concat ranks → n ∈ ns).
    { intros n (l & Hn & (k & Hk)%list_elem_of_lookup)%elem_of_concat.
      apply (Hin k). by exists l. }
    rewrite concat_app.
    assert (Hover : concat (overflowRank ns ranks)
                    = filter (fun n => ¬ node_id n ∈ nodeIds (concat ranks)) ns).
    { unfold overflowRank.
      destruct (filter (fun n => node_id n ∉ nodeIds (concat ranks)) ns)
        as [|r rest] eqn:Ef; [done|].
      by rewrite concat_cons, concat_nil, app_nil_r. }
    rewrite Hover.
    etrans; [|exact (filter_app_complement
                       (fun n => node_id n ∈ nodeIds (concat ranks)) ns)].
    apply Permutation_app_tail. apply NoDup_Permutation.
    + by apply NoDup_fmap_1 in Hndr.
    + apply NoDup_filter. by apply NoDup_fmap_1 in Hnd.
    + intros n. rewrite list_elem_of_filter, elem_of_nodeIds. split.
      * intros Hn. split; [by exists n|by apply Hsub].
      * intros [(m & Hm & Hid) Hn].
        by rewrite <- (NoDup_ids_eq ns m n Hnd (Hsub m Hm) Hn Hid).
Qed.

Lemma positioned_node_facts a l warnings p :
  generateLayout a = Ok (l, warnings) → p ∈ l_nodes l →
  pn_node p ∈ nodes a ∧
  pn_style p = styleOf (node_type (pn_node p)) ∧
  pn_width p = width (styleOf (node_type (pn_node p))) ∧
  pn_height p = height (styleOf (node_type (pn_node p))).
Proof.
  intros Hl Hp.
  destruct (generateLayout_shape a l warnings Hl) as (pos & Hgen & Hshape).
  rewrite finishLayout_eq in Hgen.
  pose proof (f_equal fst Hgen) as El. cbn [fst] in El.
  assert (Hpos : l_nodes l = pos) by (by rewrite El).
  rewrite Hpos in Hp.
  assert (Hin : pn_node p ∈ pn_node <$> pos) by (by apply list_elem_of_fmap_2).
  destruct Hshape as [[_ ->]|[[_ ->]|(_ & _ & G & layers & HG & Hlay & ->)]].
  - rewrite pn_node_grid in Hin. split; [done|].
    by apply elem_of_lookup_imap in Hp as (k & n & -> & _).
  - rewrite pn_node_positionNodesInLayers in Hin.
    split; [by apply groupNodesByType_sound|].
    apply positionNodesInLayers_elem in Hp as (li & layer & ni & n & _ & _ & ->).
    rewrite pn_node_positionNode. apply positionNode_style.
  - rewrite pn_node_positionNodesInLayers in Hin.
    split; [by eapply assignLayers_sound|].
    apply positionNodesInLayers_elem in Hp as (li & layer & ni & n & _ & _ & ->).
    rewrite pn_node_positionNode. apply positionNode_style.
Qed.

Lemma positioned_perm a l warnings :
  NoDup (node_id <$> nodes a) →
  generateLayout a = Ok (l, warnings) →
  pn_node <$> l_nodes l ≡ₚ nodes a ∧ NoDup (pn_id <$> l_nodes l).
Proof.
  intros Hnd Hl.
  destruct (generateLayout_shape a l warnings Hl) as (pos & Hgen & Hshape).
  rewrite finishLayout_eq in Hgen.
  pose proof (f_equal fst Hgen) as El. cbn [fst] in El.
  assert (Hpos : l_nodes l = pos) by (by rewrite El).
  assert (Hperm : pn_node <$> l_nodes l ≡ₚ nodes a).
  { rewrite Hpos.
    destruct Hshape as [[_ ->]|[[_ ->]|(_ & _ & G & layers & HG & Hlay & ->)]].
    - by rewrite pn_node_grid.
    - rewrite pn_node_positionNodesInLayers. apply groupNodesByType_perm.
    - rewrite pn_node_positionNodesInLayers. by eapply assignLayers_perm. }
  split; [done|].
  assert (pn_id <$> l_nodes l = node_id <$> (pn_node <$> l_nodes l)) as ->
    by (by rewrite <- list_fmap_compose).
  by rewrite Hperm.
Qed.

(** X3.  The grid and the layered strategy lay out every architecture;
    the hierarchical one, which every other layout type selects, lays out
    an architecture unless one of its connections breaks the dependency
    graph, and then throws a [TypeError].  The positioned nodes of a layout
    are nodes of the architecture, each with the width, height and style
    that [NODE_STYLES] gives its type.  Every node id is the id of a
    positioned node.  Under grid layout the positioned nodes are the nodes
    in input order; under layered layout they are a rearrangement of the
    nodes. *)
Theorem layout_keeps_the_nodes (a : Architecture) :
  let cfg := default emptyLayoutConfig (layout a) in
  (layoutTypeOf cfg ∈ ["grid"; "layered"] ∨
   Forall (fun c => ¬ breaksGraph (nodes a) c) (connections a) →
   ∃ l warnings, generateLayout a = Ok (l, warnings)) ∧
  (layoutTypeOf cfg ∉ ["grid"; "layered"] →
   Exists (breaksGraph (nodes a)) (connections a) →
   ∃ msg, generateLayout a = Throw (TypeError msg)) ∧
  (∀ l warnings, generateLayout a = Ok (l, warnings) →
     (∀ p, p ∈ l_nodes l →
           pn_node p ∈ nodes a ∧
           ∀ style, NODE_STYLES !! node_type (pn_node p) = Some style →
                    pn_style p = style ∧
                    pn_width p = width style ∧ pn_height p = height style) ∧
     (∀ n, n ∈ nodes a → ∃ p, p ∈ l_nodes l ∧ pn_id p = node_id n) ∧
     (layoutTypeOf cfg = "grid" → pn_node <$> l_nodes l = nodes a) ∧
     (layoutTypeOf cfg = "layered" → pn_node <$> l_nodes l ≡ₚ nodes a)).
Proof.
  intros cfg. split; [apply generateLayout_total|].
  split; [apply generateLayout_Throw|].
  intros l warnings Hl.
  destruct (generateLayout_shape a l warnings Hl) as (pos & Hgen & Hshape).
  fold cfg in Hshape. rewrite finishLayout_eq in Hgen.
  pose proof (f_equal fst Hgen) as El. cbn [fst] in El.
  assert (Hpos : l_nodes l = pos) by (by rewrite El).
  split_and!.
  - intros p Hp.
    destruct (positioned_node_facts a l warnings p Hl Hp) as (? & Hs & Hw & Hh).
    split; [done|]. intros style Hstyle.
    unfold styleOf in Hs, Hw, Hh. rewrite Hstyle in Hs, Hw, Hh. done.
  - intros n Hn. apply (positioned_ids a l warnings (node_id n) Hl).
    apply elem_of_nodeIds. by exists n.
  - intros Hgrid. rewrite Hpos.
    destruct Hshape as [[_ ->]|[[E _]|(E & _)]]; [|congruence..].
    apply pn_node_grid.
  - intros Hlayered. rewrite Hpos.
    destruct Hshape as [[E _]|[[_ ->]|(_ & E & _)]]; [congruence| |congruence].
    rewrite pn_node_positionNodesInLayers. apply groupNodesByType_perm.
Qed.

(** X4.  When the node ids are pairwise distinct, every layout that is
    returned positions each node exactly once: the positioned nodes are a
    rearrangement of the nodes and their ids are pairwise distinct.  One is
    returned, under every strategy, when no connection breaks the
    dependency graph. *)
Theorem distinct_ids_positioned_once (a : Architecture) :
  NoDup (node_id <$> nodes a) →
  (∀ l warnings, generateLayout a = Ok (l, warnings) →
     pn_node <$> l_nodes l ≡ₚ nodes a ∧ NoDup (pn_id <$> l_nodes l)) ∧
  (Forall (fun c => ¬ breaksGraph (nodes a) c) (connections a) →
   ∃ l warnings,
     generateLayout a = Ok (l, warnings) ∧
     pn_node <$> l_nodes l ≡ₚ nodes a ∧ NoDup (pn_id <$> l_nodes l)).
Proof.
  intros Hnd. split; [intros l warnings; by apply positioned_perm|].
  intros Hsafe.
  destruct (generateLayout_total a (or_intror Hsafe)) as (l & warnings & Hl).
  exists l, warnings. split; [done|]. by apply (positioned_perm a l warnings).
Qed.

Lemma distinct_ids_witness :
  ∃ l warnings,
    generateLayout withDangling = Ok (l, warnings) ∧
    pn_node <$> l_nodes l ≡ₚ [userNode; serviceNode].
Proof.
  destruct (generateLayout withDangling) as [[l ws]| |] eqn:Hl;
    [|by vm_compute in Hl..].
  exists l, ws. split; [done|].
  apply (proj1 (distinct_ids_positioned_once withDangling
                  ltac:(by apply (bool_decide_unpack _); vm_compute))
           l ws Hl).
Defined.


(** ** Sizes, bounds and the empty architecture *)

Lemma styleOf_bounds t :
  100 <= width (styleOf t) ∧ width (styleOf t) <= 140 ∧
  70 <= height (styleOf t) ∧ height (styleOf t) <= 100.
Proof.
  unfold styleOf. destruct (NODE_STYLES !! t) as [s|] eqn:E.
  - apply elem_of_list_to_map_2 in E. cbn [default].
    repeat (apply elem_of_cons in E as [[= -> ->]|E];
            [cbn; unfold Qle; cbn; lia|]).
    by apply elem_of_nil in E.
  - cbn. unfold Qle; cbn; lia.
Qed.

Lemma resolves_nil i : ¬ resolves [] i.
Proof. intros (p & Hp & _). by apply elem_of_nil in Hp. Qed.

Lemma positionGroups_nil gs :
  Forall (fun g => Forall (fun i => i ∉ objectPrototype) (group_contains g)) gs →
  positionGroups gs [] = [].
Proof.
  unfold positionGroups. induction gs as [|g gs IH]; [done|].
  intros [Hg Hgs]%Forall_cons. cbn [omap list_omap]. rewrite (IH Hgs).
  assert (positionGroup (buildNodeMap []) g = None) as ->; [|done].
  apply positionGroup_None; [apply resolves_nil|].
  intros i Hi. split; [apply resolves_nil|].
  by apply (proj1 (Forall_forall _ _) Hg).
Qed.

Lemma calculateConnectionPaths_nil cs :
  Forall (fun c => conn_from c ∉ objectPrototype ∨ conn_to c ∉ objectPrototype) cs →
  calculateConnectionPaths cs [] = ([], missingNodeWarning <$> cs).
Proof.
  induction cs as [|c cs IH]; [done|]. intros [Hc Hcs]%Forall_cons.
  rewrite calculateConnectionPaths_cons by apply not_elem_of_nil.
  rewrite (IH Hcs). rewrite decide_False; [done|].
  intros [[Hf|Hf] [Ht|Ht]]; try (by apply elem_of_nil in Hf);
    try (by apply elem_of_nil in Ht). tauto.
Qed.

Lemma positionGroup_group nodeMap g pg :
  positionGroup nodeMap g = Some pg → pg_group pg = g.
Proof.
  unfold positionGroup. destruct (containedNodes nodeMap g); [done|].
  destruct (positionedOnly _); by intros [= <-].
Qed.

Lemma groupNodesByType_nil : groupNodesByType [] = [].
Proof. reflexivity. Qed.

Lemma breaksGraph_nil c :
  breaksGraph [] c ↔ conn_from c ∈ objectPrototype ∧ conn_to c ∈ objectPrototype.
Proof.
  unfold breaksGraph, foundInGraph, isEdge, nodeIds. cbn. set_solver.
Qed.

(** X5.  An architecture without nodes, none of whose connections joins
    two member names of [Object.prototype] and none of whose groups has one
    for a member, is laid out as the empty layout with bounds 0, whatever
    its layout type: no connection is routed, each one is reported as
    missing its nodes, in order, and no group is positioned.  The document
    rendered from it has no element and the renderer mints no
    identifier. *)
Theorem empty_architecture_empty_document (rt : Runtime) (w : World)
  (a : Architecture) :
  nodes a = [] →
  Forall (fun c => conn_from c ∉ objectPrototype ∨ conn_to c ∉ objectPrototype)
         (connections a) →
  Forall (fun g => Forall (fun i => i ∉ objectPrototype) (group_contains g))
         (groups a) →
  generateLayout a = Ok (emptyLayout, missingNodeWarning <$> connections a) ∧
  render rt emptyLayout w = (envelope [], w).
Proof.
  intros Hn Hcs Hgs. split; [|done].
  destruct (generateLayout_total a) as (l & warnings & Hl).
  { right. rewrite Hn. eapply Forall_impl; [exact Hcs|].
    intros c Hc. rewrite breaksGraph_nil. naive_solver. }
  rewrite Hl. f_equal.
  destruct (generateLayout_shape a l warnings Hl) as (pos & -> & Hshape).
  assert (pos = []) as ->.
  { destruct Hshape as [[_ ->]|[[_ ->]|(_ & _ & G & layers & _ & Hlay & ->)]];
      rewrite Hn in *; try done.
    unfold assignLayers, assignLayersFuel in Hlay. cbn in Hlay.
    by injection Hlay as <-. }
  unfold finishLayout.
  by rewrite (calculateConnectionPaths_nil _ Hcs), (positionGroups_nil _ Hgs).
Qed.

Lemma empty_architecture_witness :
  generateLayout {| nodes := []; connections := [userToService]; groups := [];
                    layout := None |}
  = Ok (emptyLayout, ["Connection references missing node: u -> s"]).
Proof.
  apply (proj1 (empty_architecture_empty_document sampleRuntime freshWorld
                  {| nodes := []; connections := [userToService]; groups := [];
                     layout := None |} eq_refl
                  ltac:(by apply (bool_decide_unpack _); vm_compute)
                  ltac:(by apply (bool_decide_unpack _); vm_compute))).
Defined.

(** X6.  For an architecture whose node types are those of the schema,
    the bounds of a layout are those of its nodes: every positioned node
    lies between [minX] and [maxX] and between [minY] and [maxY], the width
    and height of the bounds are the differences of these, and with at
    least one node they are at least 100 by 70, the smallest node.  The
    padding of the groups is not part of the bounds: the box of a group
    none of whose members is an inherited name reaches at most 20 units
    beyond them on each side. *)
Theorem layout_bounds_enclose (a : Architecture) (l : Layout)
  (warnings : list string) :
  Forall (fun n => node_type n ∈ NodeTypeSchema) (nodes a) →
  generateLayout a = Ok (l, warnings) →
  let b := l_bounds l in
  bounds_width b = maxX b - minX b ∧ bounds_height b = maxY b - minY b ∧
  (∀ p, p ∈ l_nodes l →
        minX b <= pn_x p ∧ pn_x p + pn_width p <= maxX b ∧
        minY b <= pn_y p ∧ pn_y p + pn_height p <= maxY b) ∧
  (nodes a ≠ [] → 100 <= bounds_width b ∧ 70 <= bounds_height b) ∧
  (∀ g, g ∈ l_groups l →
        ¬ resolves (l_nodes l) "__proto__" →
        (∀ i, i ∈ group_contains (pg_group g) → ¬ inheritedName (l_nodes l) i) →
        ∃ x y w h,
          pg_x g = Num x ∧ pg_y g = Num y ∧
          pg_width g = Num w ∧ pg_height g = Num h ∧
          minX b - 20 <= x ∧ x + w <= maxX b + 20 ∧
          minY b - 20 <= y ∧ y + h <= maxY b + 20).
Proof.
  intros Htypes Hl.
  assert (Hsize := positioned_node_facts a l warnings).
  assert (Hcover : ∀ n, n ∈ nodes a → ∃ p, p ∈ l_nodes l ∧ pn_id p = node_id n).
  { intros n Hn. apply (positioned_ids a l warnings (node_id n) Hl).
    apply elem_of_nodeIds. by exists n. }
  destruct (generateLayout_shape a l warnings Hl) as (pos & Hgen & _).
  rewrite finishLayout_eq in Hgen.
  pose proof (f_equal fst Hgen) as El. cbn [fst] in El. clear Hgen.
  assert (Hpos : l_nodes l = pos) by (by rewrite El).
  assert (Hb : l_bounds l = calculateBounds pos) by (by rewrite El).
  assert (Hg : l_groups l = positionGroups (groups a) pos) by (by rewrite El).
  rewrite Hpos in *. cbn zeta. rewrite Hb, Hg. clear El Hb Hg Hpos.
  destruct pos as [|p0 pos'] eqn:Epos.
  { cbn. split_and!; try done; try (by intros ? ?%elem_of_nil).
    - intros Hne. destruct (nodes a) as [|n ns]; [done|].
      destruct (Hcover n ltac:(by left)) as (p & Hp & _).
      by apply elem_of_nil in Hp.
    - intros g (g0 & _ & Hg0)%list_elem_of_omap Hp Hplain.
      rewrite (positionGroup_group _ _ _ Hg0) in Hplain.
      apply positionGroup_Some_box in Hg0 as (E & Hne & _); [|done..].
      destruct Hne. apply resolvedMembers_nil. intros i _. apply resolves_nil. }
  rewrite <- Epos in *.
  destruct (calculateBounds_union pos ltac:(by rewrite Epos)) as (Hbox & Hw & Hh).
  cbn zeta in Hbox, Hw, Hh. destruct Hbox as (Hall & (m1 & Hm1 & Hx) & _ & (m3 & Hm3 & Hy) & _).
  split_and!; [done|done| | |].
  - intros p Hp. destruct (Hall p Hp) as (? & ? & ? & ?). split_and!; lra.
  - intros _. rewrite Hw, Hh.
    destruct (Hall m1 Hm1) as (_ & H1 & _). destruct (Hall m3 Hm3) as (_ & _ & _ & H3).
    destruct (Hsize m1 Hl Hm1) as (_ & _ & Hw1 & _).
    destruct (Hsize m3 Hl Hm3) as (_ & _ & _ & Hh3).
    pose proof (styleOf_bounds (node_type (pn_node m1))) as (? & _).
    pose proof (styleOf_bounds (node_type (pn_node m3))) as (_ & _ & ? & _).
    rewrite Hw1 in H1. rewrite Hh3 in H3. split; lra.
  - intros g (g0 & _ & Hg0)%list_elem_of_omap Hp Hplain.
    rewrite (positionGroup_group _ _ _ Hg0) in Hplain.
    apply positionGroup_Some_box in Hg0 as (E & _ & Hgbox); [|done..].
    destruct Hgbox as (x & y & w & h & -> & -> & -> & -> & Hgbox).
    exists x, y, w, h. split_and!; [done..| | | |];
    destruct Hgbox as (_ & (n1 & Hn1 & E1) & (n2 & Hn2 & E2)
                       & (n3 & Hn3 & E3) & (n4 & Hn4 & E4));
    assert (Hmem : ∀ m, m ∈ resolvedMembers pos g0 → m ∈ pos)
      by (intros m (i & _ & Hm)%resolvedMembers_spec;
          by apply resolvesTo_Some in Hm as [? _]);
    destruct (Hall n1 (Hmem n1 Hn1)) as (? & _);
    destruct (Hall n2 (Hmem n2 Hn2)) as (_ & ? & _);
    destruct (Hall n3 (Hmem n3 Hn3)) as (_ & _ & ? & _);
    destruct (Hall n4 (Hmem n4 Hn4)) as (_ & _ & _ & ?); lra.
Qed.

Lemma layout_bounds_witness :
  ∃ l warnings,
    generateLayout (filledIn twoNodesGrouped) = Ok (l, warnings) ∧
    bounds_width (l_bounds l) = maxX (l_bounds l) - minX (l_bounds l).
Proof.
  destruct (generateLayout (filledIn twoNodesGrouped)) as [[l ws]| |] eqn:Hl;
    [|by vm_compute in Hl..].
  exists l, ws. split; [done|].
  apply (layout_bounds_enclose (filledIn twoNodesGrouped) l ws
           ltac:(by apply (bool_decide_unpack _); vm_compute) Hl).
Defined.


(** ** The router, both ways *)

Lemma Qabs_swap (a b : Q) : Qabs (a - b) == Qabs (b - a).
Proof.
  rewrite <- (Qabs_opp (a - b)).
  assert (- (a - b) == b - a) as -> by ring. reflexivity.
Qed.

Lemma Qltb_proper a a' b b' : a == a' → b == b' → Qltb a b = Qltb a' b'.
Proof. intros Ha Hb. unfold Qltb. by rewrite Ha, Hb. Qed.

(** X7.  Unless the centres of the two rectangles coincide, the route of
    the reversed connection is the reversed route: the anchor on each
    rectangle is the same point whichever way the connection runs. *)
Theorem reversed_connection_reverses_route (f t : PositionedNode) :
  ¬ (centerX f == centerX t ∧ centerY f == centerY t) →
  fromPoint (calculateOptimalConnectionPoints t f)
  = toPoint (calculateOptimalConnectionPoints f t) ∧
  toPoint (calculateOptimalConnectionPoints t f)
  = fromPoint (calculateOptimalConnectionPoints f t).
Proof.
  unfold centerX, centerY, calculateOptimalConnectionPoints. cbn [pt_x pt_y].
  set (fx := pn_x f + pn_width f / 2). set (fy := pn_y f + pn_height f / 2).
  set (tx := pn_x t + pn_width t / 2). set (ty := pn_y t + pn_height t / 2).
  intros Hne.
  rewrite (Qltb_proper (Qabs (fy - ty)) (Qabs (ty - fy))
             (Qabs (fx - tx)) (Qabs (tx - fx)))
    by apply Qabs_swap.
  destruct (Qltb (Qabs (ty - fy)) (Qabs (tx - fx))) eqn:Eh.
  - apply Qltb_lt in Eh.
    destruct (Qltb 0 (tx - fx)) eqn:E1; destruct (Qltb 0 (fx - tx)) eqn:E2;
      try done.
    + apply Qltb_lt in E1, E2. lra.
    + apply Qltb_ge in E1, E2.
      assert (tx - fx == 0) as E0 by lra.
      rewrite E0 in Eh. change (Qabs 0) with 0 in Eh.
      pose proof (Qabs_nonneg (ty - fy)). lra.
  - apply Qltb_ge in Eh.
    destruct (Qltb 0 (ty - fy)) eqn:E1; destruct (Qltb 0 (fy - ty)) eqn:E2;
      try done.
    + apply Qltb_lt in E1, E2. lra.
    + apply Qltb_ge in E1, E2.
      assert (ty - fy == 0) as E0 by lra.
      rewrite E0 in Eh. change (Qabs 0) with 0 in Eh.
      pose proof (Qabs_nonneg (tx - fx)) as Hnn.
      assert (Qabs (tx - fx) <= 0) as Ez by lra.
      apply Qabs_Qle_condition in Ez as [? ?].
      destruct Hne. split; lra.
Qed.

Lemma reversed_route_witness :
  fromPoint (calculateOptimalConnectionPoints rightBox leftBox)
  = toPoint (calculateOptimalConnectionPoints leftBox rightBox).
Proof.
  apply (proj1 (reversed_connection_reverses_route leftBox rightBox
                  ltac:(intros [H _]; vm_compute in H; discriminate H))).
Defined.

(** ** Centred ranks *)

Lemma ofNat_S n : ofNat (S n) == ofNat n + 1.
Proof.
  unfold ofNat. rewrite Nat2Z.inj_succ, <- Z.add_1_r, inject_Z_plus. reflexivity.
Qed.

Lemma extent_sum_uniform (extent : PositionedNode → Q) (wd : Q)
  (rank : list PositionedNode) :
  (∀ p, p ∈ rank → extent p == wd) →
  foldr (fun p acc => extent p + acc) 0 rank == ofNat (length rank) * wd.
Proof.
  induction rank as [|p rank IH]; intros Hall.
  - cbn [foldr length]. change (ofNat 0) with 0. ring.
  - cbn [foldr length].
    assert (IH' : foldr (fun p acc => extent p + acc) 0 rank
                  == ofNat (length rank) * wd)
      by (apply IH; intros q Hq; apply Hall; by right).
    assert (Hp : extent p == wd) by (apply Hall; by left).
    rewrite ofNat_S, IH', Hp. ring.
Qed.

Lemma positionedRank_lookup direction spacing li layer k p :
  positionedRank direction spacing li layer !! k = Some p ↔
  ∃ n, layer !! k = Some n ∧
       p = positionNode direction spacing (length layer) li k n.
Proof. unfold positionedRank. apply list_lookup_imap_Some. Qed.

Lemma positionNodesInLayers_ranks layers direction spacing :
  positionNodesInLayers layers direction spacing
  = concat (imap (positionedRank direction spacing) layers).
Proof. reflexivity. Qed.

Section CentredRank.
Variables (direction : string) (spacing : Spacing) (li : nat)
          (layer : list Node) (wd : Q).
Let rank := positionedRank direction spacing li layer.

Lemma centred_vertical :
  isVertical direction →
  (∀ n, n ∈ layer → width (styleOf (node_type n)) == wd) →
  centredRank (canvas_width canvas) pn_width pn_x spacing rank.
Proof.
  intros Hv Hu.
  assert (Hlen : length rank = length layer) by apply length_imap.
  assert (Hext : rankExtent pn_width spacing rank
                 == ofNat (length layer) * wd
                    + (ofNat (length layer) - 1) * sp_node spacing).
  { unfold rankExtent. rewrite Hlen, (extent_sum_uniform pn_width wd), Hlen.
    - reflexivity.
    - intros p (k & Hk)%list_elem_of_lookup.
      apply positionedRank_lookup in Hk as (n & Hn & ->).
      destruct (positionNode_style direction spacing (length layer) li k n)
        as (_ & -> & _).
      apply Hu. by eapply list_elem_of_lookup_2. }
  split.
  - intros p (n & Hn & ->)%positionedRank_lookup.
    rewrite positionNode_vertical_x by done.
    unfold centredStart. rewrite Hext.
    rewrite (Hu n) by (by eapply list_elem_of_lookup_2).
    change (ofNat 0) with 0. rewrite !half_mult. ring.
  - intros k p q (n & Hn & ->)%positionedRank_lookup
                 (m & Hm & ->)%positionedRank_lookup.
    rewrite !positionNode_vertical_x by done.
    destruct (positionNode_style direction spacing (length layer) li k n)
      as (_ & -> & _).
    rewrite ofNat_S.
    rewrite (Hu n) by (by eapply list_elem_of_lookup_2).
    rewrite (Hu m) by (by eapply list_elem_of_lookup_2).
    rewrite !half_mult. ring.
Qed.

Lemma centred_horizontal :
  ¬ isVertical direction →
  (∀ n, n ∈ layer → height (styleOf (node_type n)) == wd) →
  centredRank (canvas_height canvas) pn_height pn_y spacing rank.
Proof.
  intros Hv Hu.
  assert (H1 : direction ≠ "TB") by (intros ->; apply Hv; by left).
  assert (H2 : direction ≠ "BT") by (intros ->; apply Hv; by right).
  assert (Hlen : length rank = length layer) by apply length_imap.
  assert (Hext : rankExtent pn_height spacing rank
                 == ofNat (length layer) * wd
                    + (ofNat (length layer) - 1) * sp_node spacing).
  { unfold rankExtent. rewrite Hlen, (extent_sum_uniform pn_height wd), Hlen.
    - reflexivity.
    - intros p (k & Hk)%list_elem_of_lookup.
      apply positionedRank_lookup in Hk as (n & Hn & ->).
      destruct (positionNode_style direction spacing (length layer) li k n)
        as (_ & _ & ->).
      apply Hu. by eapply list_elem_of_lookup_2. }
  split.
  - intros p (n & Hn & ->)%positionedRank_lookup.
    rewrite positionNode_horizontal_y by done.
    unfold centredStart. rewrite Hext.
    rewrite (Hu n) by (by eapply list_elem_of_lookup_2).
    change (ofNat 0) with 0. rewrite !half_mult. ring.
  - intros k p q (n & Hn & ->)%positionedRank_lookup
                 (m & Hm & ->)%positionedRank_lookup.
    rewrite !positionNode_horizontal_y by done.
    destruct (positionNode_style direction spacing (length layer) li k n)
      as (_ & _ & ->).
    rewrite ofNat_S.
    rewrite (Hu n) by (by eapply list_elem_of_lookup_2).
    rewrite (Hu m) by (by eapply list_elem_of_lookup_2).
    rewrite !half_mult. ring.
Qed.
End CentredRank.


(** X8.  [positionNodesInLayers] lays out one rank per layer.  A rank
    whose members all have the same width is, in a vertical layout (TB or
    BT), laid out left to right and centred on the canvas: its first member
    starts at (canvas width - width of the rank) / 2, where the width of the
    rank is the sum of the members' widths and of the node spacing between
    neighbours, and every next member starts one node spacing after the end
    of the member before it.  In the other directions the same holds from
    top to bottom for a rank whose members all have the same height. *)
Theorem uniform_rank_is_centred (direction : string) (spacing : Spacing)
  (layers : list (list Node)) (li : nat) (layer : list Node) (size : Q) :
  positionNodesInLayers layers direction spacing
  = concat (imap (positionedRank direction spacing) layers) ∧
  (isVertical direction →
   (∀ n, n ∈ layer → width (styleOf (node_type n)) == size) →
   centredRank (canvas_width canvas) pn_width pn_x spacing
     (positionedRank direction spacing li layer)) ∧
  (¬ isVertical direction →
   (∀ n, n ∈ layer → height (styleOf (node_type n)) == size) →
   centredRank (canvas_height canvas) pn_height pn_y spacing
     (positionedRank direction spacing li layer)).
Proof.
  split_and!; [done|apply centred_vertical|apply centred_horizontal].
Qed.

Lemma uniform_rank_witness :
  centredRank (canvas_width canvas) pn_width pn_x
    {| sp_node := 80; sp_rank := 100 |}
    (positionedRank "TB" {| sp_node := 80; sp_rank := 100 |} 0
       [serviceNode; serviceNode]).
Proof.
  apply (proj1 (proj2 (uniform_rank_is_centred "TB"
                         {| sp_node := 80; sp_rank := 100 |} [] 0
                         [serviceNode; serviceNode] 140))).
  - by left.
  - intros n Hn. apply elem_of_cons in Hn as [->|Hn];
      [reflexivity|]. apply list_elem_of_singleton in Hn as ->. reflexivity.
Defined.

Lemma styleOf_other t : t ∉ typeOrder → styleOf t = NODE_STYLES_service.
Proof.
  intros Ht. unfold styleOf, NODE_STYLES.
  rewrite not_elem_of_list_to_map_1; [done|].
  intros Hin. apply Ht. cbn in Hin. unfold typeOrder.
  rewrite !elem_of_cons in Hin. rewrite !elem_of_cons. tauto.
Qed.

(** Every rank of [groupNodesByType] has one style. *)
Lemma groupNodesByType_uniform ns layer :
  layer ∈ groupNodesByType ns →
  ∃ s, ∀ n, n ∈ layer → styleOf (node_type n) = s.
Proof.
  rewrite groupNodesByType_eq, elem_of_app.
  intros [(t & _ & [-> _]%typeRank_Some)%list_elem_of_omap|Hl].
  - exists (styleOf t). intros n Hn.
    by apply list_elem_of_filter in Hn as [-> _].
  - exists NODE_STYLES_service. intros n Hn. unfold remainingRank in Hl.
    destruct (filter _ ns) as [|r rest] eqn:E; [by apply elem_of_nil in Hl|].
    apply list_elem_of_singleton in Hl as ->. rewrite <- E in Hn.
    apply list_elem_of_filter in Hn as [Ht _]. by apply styleOf_other.
Qed.

(** X9.  Under layered layout the ranks are those of [groupNodesByType],
    each positioned rank holding the nodes of its layer in order, and every
    rank is centred: all its members have the style of one type, so in a
    vertical layout it is laid out left to right around the middle of the
    canvas width, and otherwise top to bottom around the middle of the
    canvas height. *)
Theorem layered_ranks_are_centred (a : Architecture) :
  let cfg := default emptyLayoutConfig (layout a) in
  let spacing := spacingOr {| sp_node := 80; sp_rank := 120 |} cfg in
  layoutTypeOf cfg = "layered" →
  ∃ l warnings ranks,
    generateLayout a = Ok (l, warnings) ∧ l_nodes l = concat ranks ∧
    Forall2 (fun layer rank =>
               pn_node <$> rank = layer ∧
               (isVertical (directionOf cfg) →
                centredRank (canvas_width canvas) pn_width pn_x spacing rank) ∧
               (¬ isVertical (directionOf cfg) →
                centredRank (canvas_height canvas) pn_height pn_y spacing rank))
            (groupNodesByType (nodes a)) ranks.
Proof.
  intros cfg spacing Hty.
  pose proof (generateLayout_layered a Hty) as Hgen.
  fold cfg in Hgen. fold spacing in Hgen.
  rewrite finishLayout_eq in Hgen.
  eexists _, _, (imap (positionedRank (directionOf cfg) spacing)
                      (groupNodesByType (nodes a))).
  split; [exact Hgen|]. split; [done|].
  apply Forall2_same_length_lookup_2; [by rewrite length_imap|].
  intros i layer rank Hlayer (layer' & Hl' & ->)%list_lookup_imap_Some.
  rewrite Hlayer in Hl'. injection Hl' as <-.
  destruct (groupNodesByType_uniform (nodes a) layer) as (s & Hs);
    [by eapply list_elem_of_lookup_2|].
  split_and!.
  - apply fmap_imap_inv. intros k n. apply pn_node_positionNode.
  - intros Hv. apply (centred_vertical _ _ _ _ (width s)); [done|].
    intros n Hn. by rewrite (Hs n Hn).
  - intros Hv. apply (centred_horizontal _ _ _ _ (height s)); [done|].
    intros n Hn. by rewrite (Hs n Hn).
Qed.

Lemma layered_ranks_witness :
  ∃ l warnings ranks,
    generateLayout layeredTrio = Ok (l, warnings) ∧ l_nodes l = concat ranks ∧
    length ranks = 2%nat.
Proof.
  destruct (layered_ranks_are_centred layeredTrio eq_refl)
    as (l & ws & ranks & Hl & Hn & HF).
  exists l, ws, ranks. split_and!; [done..|].
  apply Forall2_length in HF. by rewrite <- HF.
Defined.


(** ** The grid *)

Lemma ofNat_step a b c :
  (a < b)%nat → 0 <= c → ofNat a * c + c <= ofNat b * c.
Proof.
  intros Hab Hc.
  assert (H : ofNat (S a) * c <= ofNat b * c).
  { apply Qmult_le_compat_r; [|done]. apply ofNat_le. lia. }
  rewrite ofNat_S in H. lra.
Qed.

Lemma grid_cells_differ cols i j :
  (0 < cols)%nat → i ≠ j →
  (i mod cols < j mod cols)%nat ∨ (j mod cols < i mod cols)%nat ∨
  (i / cols < j / cols)%nat ∨ (j / cols < i / cols)%nat.
Proof.
  intros Hc Hij.
  pose proof (Nat.div_mod i cols ltac:(lia)).
  pose proof (Nat.div_mod j cols ltac:(lia)).
  destruct (decide (i mod cols = j mod cols)%nat) as [Em|Em]; [|lia].
  destruct (decide (i / cols = j / cols)%nat) as [Ed|Ed]; [|lia].
  rewrite Em, Ed in *. lia.
Qed.

(** X10.  In a grid layout with non-negative spacing, two nodes whose
    types have the same style never overlap: their rectangles share no
    interior point. *)
Theorem grid_cells_of_one_size_are_apart (ns : list Node) (cs : list Connection)
  (gs : list Group) (cfg : LayoutConfig) (i j : nat) (p q : PositionedNode) :
  let spacing := spacingOr {| sp_node := 80; sp_rank := 100 |} cfg in
  let positioned := l_nodes (generateGridLayout ns cs gs cfg).1 in
  0 <= sp_node spacing → 0 <= sp_rank spacing →
  i ≠ j → positioned !! i = Some p → positioned !! j = Some q →
  styleOf (node_type (pn_node p)) = styleOf (node_type (pn_node q)) →
  apart p q.
Proof.
  intros spacing positioned Hsn Hsr Hij Hp Hq Hstyle.
  assert (Hpos : positioned = imap (gridNode (gridCols ns) spacing) ns).
  { unfold positioned, generateGridLayout. by rewrite finishLayout_eq. }
  rewrite Hpos in Hp, Hq.
  apply list_lookup_imap_Some in Hp as (n & Hn & ->).
  apply list_lookup_imap_Some in Hq as (m & Hm & ->).
  cbn [gridNode pn_node] in Hstyle.
  assert (Hcols : (0 < gridCols ns)%nat).
  { apply lookup_lt_Some in Hn.
    destruct (ceil_sqrt_spec (length ns)) as [Hle _]. unfold gridCols.
    destruct (ceil_sqrt (length ns)); [cbn in Hle|]; lia. }
  pose proof (styleOf_bounds (node_type m)) as (Hw & _ & Hh & _).
  unfold apart, gridNode. cbn [pn_x pn_y pn_width pn_height]. rewrite Hstyle.
  set (w := width (styleOf (node_type m))) in *.
  set (h := height (styleOf (node_type m))) in *.
  destruct (grid_cells_differ (gridCols ns) i j Hcols Hij) as [H|[H|[H|H]]].
  - left. pose proof (ofNat_step _ _ (w + sp_node spacing) H ltac:(lra)). lra.
  - right; left.
    pose proof (ofNat_step _ _ (w + sp_node spacing) H ltac:(lra)). lra.
  - right; right; left.
    pose proof (ofNat_step _ _ (h + sp_rank spacing) H ltac:(lra)). lra.
  - right; right; right.
    pose proof (ofNat_step _ _ (h + sp_rank spacing) H ltac:(lra)). lra.
Qed.

Lemma grid_cells_witness :
  ∃ p q, l_nodes (generateGridLayout fiveServices [] [] emptyLayoutConfig).1
           !! 1%nat = Some p ∧
         l_nodes (generateGridLayout fiveServices [] [] emptyLayoutConfig).1
           !! 4%nat = Some q ∧
         apart p q.
Proof.
  eexists _, _. split; [by vm_compute|]. split; [by vm_compute|].
  apply (grid_cells_of_one_size_are_apart fiveServices [] [] emptyLayoutConfig
           1 4); [by vm_compute|by vm_compute|lia|by vm_compute..].
Defined.


(** * Further properties of the renderer *)

Local Close Scope Q_scope.

Lemma emitsChunks_and {A} (Q Q' : A → list Element → Prop) a w out :
  emitsChunks Q [a] w out → Q' a out.1 →
  emitsChunks (fun a ch => Q a ch ∧ Q' a ch) [a] w out.
Proof.
  intros (Hc & Hid & Hnd & chunks & E & HQ) HQ'.
  split_and!; [done..|]. exists chunks. split; [done|].
  apply Forall2_cons_inv_l in HQ as (ch & rest & Hch & Hrest & ->).
  apply Forall2_nil_inv_l in Hrest as ->.
  cbn in E. rewrite app_nil_r in E. subst ch.
  by repeat constructor.
Qed.

(** [render] for any description of what the three renderers emit: the
    chunks of the groups, of the nodes and of the connections, in this
    order, with identifiers minted between the counter before and the
    counter after the call. *)
Lemma render_chunks rt
  (QG : PositionedGroup → list Element → Prop)
  (QN : PositionedNode → list Element → Prop)
  (QC : PositionedConnection → list Element → Prop) l w :
  (∀ g w, emitsChunks QG [g] w (renderGroup rt g w)) →
  (∀ n w, emitsChunks QN [n] w (renderNode rt n w)) →
  (∀ c w, emitsChunks QC [c] w (renderConnection rt c w)) →
  ∃ gch nch cch w',
    render rt l w = (envelope (concat gch ++ concat nch ++ concat cch), w') ∧
    Forall2 QG (l_groups l) gch ∧
    Forall2 QN (l_nodes l) nch ∧
    Forall2 QC (l_connections l) cch ∧
    NoDup (el_id <$> (concat gch ++ concat nch ++ concat cch)) ∧
    idCounter w ≤ idCounter w' ∧
    Forall (fun e => genId (idCounter w) (idCounter w') (el_id e))
           (concat gch ++ concat nch ++ concat cch).
Proof.
  intros HQG HQN HQC.
  unfold render, mbind, state_bind, mret, state_ret.
  pose proof (forEachPush_emits QG (renderGroup rt) (l_groups l) w HQG) as HG.
  destruct (forEachPush (renderGroup rt) (l_groups l) w) as [G w1].
  pose proof (forEachPush_emits QN (renderNode rt) (l_nodes l) w1 HQN) as HN.
  destruct (forEachPush (renderNode rt) (l_nodes l) w1) as [N w2].
  pose proof (forEachPush_emits QC (renderConnection rt)
                (l_connections l) w2 HQC) as HC.
  destruct (forEachPush (renderConnection rt) (l_connections l) w2) as [C w3].
  unfold emitsChunks in HG, HN, HC. cbn in HG, HN, HC.
  destruct HG as (Hc1 & Hid1 & Hnd1 & gch & -> & HQ1).
  destruct HN as (Hc2 & Hid2 & Hnd2 & nch & -> & HQ2).
  destruct HC as (Hc3 & Hid3 & Hnd3 & cch & -> & HQ3).
  cbn in *. exists gch, nch, cch, w3.
  assert (Hall : Forall (fun e => genId (idCounter w) (idCounter w3) (el_id e))
                        (concat gch ++ concat nch ++ concat cch)).
  { rewrite !Forall_app. split_and!;
      (eapply Forall_impl; [eassumption|]); intros e He; cbn in He;
      (eapply genId_weaken; [exact He|lia..]). }
  split_and!; try done; [|lia].
  rewrite Forall_forall in Hid1, Hid2, Hid3.
  rewrite !fmap_app. apply NoDup_app. split_and!; [done| |].
  - intros i (e1 & -> & He1)%list_elem_of_fmap
             [(e2 & Hi & He2)%list_elem_of_fmap|(e2 & Hi & He2)%list_elem_of_fmap]%elem_of_app.
    + by eapply (genId_disjoint _ _ _ _ _ _ (Hid1 e1 He1) (Hid2 e2 He2)).
    + eapply (genId_disjoint _ _ _ _ _ _ (Hid1 e1 He1) (Hid3 e2 He2)); [lia|done].
  - apply NoDup_app. split_and!; [done| |done].
    intros i (e1 & -> & He1)%list_elem_of_fmap (e2 & Hi & He2)%list_elem_of_fmap.
    by eapply (genId_disjoint _ _ _ _ _ _ (Hid2 e1 He1) (Hid3 e2 He2)).
Qed.

(** X11.  The identifiers of the elements of a document are pairwise
    distinct, and a renderer never uses an identifier twice: the elements of
    a second document rendered by the same renderer have identifiers that
    are distinct from each other and from those of the first.  Each
    identifier ends in the value of the renderer's counter when it was
    minted, so this holds whatever the clock reads. *)
Theorem element_ids_never_repeat (rt : Runtime) (l1 l2 : Layout) (w : World) :
  let '(doc1, w1) := render rt l1 w in
  let '(doc2, w2) := render rt l2 w1 in
  NoDup (el_id <$> elements doc1) ∧
  NoDup (el_id <$> (elements doc1 ++ elements doc2)) ∧
  idCounter w ≤ idCounter w1 ≤ idCounter w2 ∧
  Forall (fun e => genId (idCounter w) (idCounter w1) (el_id e)) (elements doc1) ∧
  Forall (fun e => genId (idCounter w1) (idCounter w2) (el_id e)) (elements doc2).
Proof.
  destruct (render_chunks rt groupChunk nodeChunk connectionChunk l1 w
              (renderGroup_emits rt) (renderNode_emits rt)
              (renderConnection_emits rt))
    as (g1 & n1 & c1 & w1 & -> & _ & _ & _ & Hnd1 & Hc1 & Hid1).
  destruct (render_chunks rt groupChunk nodeChunk connectionChunk l2 w1
              (renderGroup_emits rt) (renderNode_emits rt)
              (renderConnection_emits rt))
    as (g2 & n2 & c2 & w2 & -> & _ & _ & _ & Hnd2 & Hc2 & Hid2).
  cbn [elements envelope]. split_and!; [done| |done..].
  rewrite fmap_app. apply NoDup_app. split_and!; [done| |done].
  intros i (e1 & -> & He1)%list_elem_of_fmap (e2 & Hi & He2)%list_elem_of_fmap.
  rewrite Forall_forall in Hid1, Hid2.
  by eapply (genId_disjoint _ _ _ _ _ _ (Hid1 e1 He1) (Hid2 e2 He2)).
Qed.


(** ** Counting the elements *)

Lemma sum_list_const {A} (k : nat) (l : list A) :
  sum_list ((fun _ => k) <$> l) = k * length l.
Proof. induction l as [|a l IH]; cbn; [lia|]. rewrite IH. lia. Qed.

Lemma sum_list_indicator {A} (P : A → Prop) `{!∀ x, Decision (P x)} (l : list A) :
  sum_list ((fun a => if decide (P a) then 1 else 0) <$> l) = length (filter P l).
Proof.
  induction l as [|a l IH]; [done|].
  rewrite fmap_cons, filter_cons. cbn [sum_list]. rewrite IH.
  by destruct (decide (P a)).
Qed.

Lemma sum_list_add {A} (f g : A → nat) (l : list A) :
  sum_list ((fun a => f a + g a) <$> l) = sum_list (f <$> l) + sum_list (g <$> l).
Proof. induction l as [|a l IH]; cbn; [done|]. rewrite IH. lia. Qed.

Section Measure.
Context {A : Type} (f : A → State (list Element)).

(** A measure of element lists that adds up over concatenation. *)
Lemma forEachPush_measure (μ : list Element → nat) (cnt : A → nat) l w :
  μ [] = 0 → (∀ a b, μ (a ++ b) = μ a + μ b) →
  (∀ a w, μ (f a w).1 = cnt a) →
  μ (forEachPush f l w).1 = sum_list (cnt <$> l).
Proof.
  intros H0 Happ Hf. revert w. induction l as [|a l IH]; intros w; [done|].
  cbn [forEachPush]. unfold mbind, state_bind, mret, state_ret.
  specialize (Hf a w). destruct (f a w) as [els1 w1].
  specialize (IH w1). destruct (forEachPush f l w1) as [els2 w2].
  cbn in *. by rewrite Happ, Hf, IH.
Qed.

Lemma forEachPush_counter l w :
  (∀ a w, idCounter (f a w).2 = idCounter w + length (f a w).1) →
  idCounter (forEachPush f l w).2
  = idCounter w + length (forEachPush f l w).1.
Proof.
  intros Hf. revert w. induction l as [|a l IH]; intros w; [cbn; lia|].
  cbn [forEachPush]. unfold mbind, state_bind, mret, state_ret.
  specialize (Hf a w). destruct (f a w) as [els1 w1].
  specialize (IH w1). destruct (forEachPush f l w1) as [els2 w2].
  cbn in *. rewrite length_app. lia.
Qed.
End Measure.

Lemma length_filter_app {A} (P : A → Prop) `{!∀ x, Decision (P x)} (a b : list A) :
  length (filter P (a ++ b)) = length (filter P a) + length (filter P b).
Proof. by rewrite filter_app, length_app. Qed.

Section Counts.
Context (rt : Runtime).

Lemma renderGroup_run g w :
  ∃ box label w',
    renderGroup rt g w = ([box; label], w') ∧
    el_type box = EXCALIDRAW_RECTANGLE ∧ isText label ∧
    idCounter w' = idCounter w + 2.
Proof.
  destruct w. state_simpl. eexists _, _, _. split; [reflexivity|].
  split_and!; [done..|cbn; lia].
Qed.

Lemma renderNode_run n w :
  ∃ shapeEl textEl w',
    renderNode rt n w = ([shapeEl; textEl], w') ∧
    isShape shapeEl ∧ isText textEl ∧
    idCounter w' = idCounter w + 2.
Proof.
  destruct w. state_simpl. eexists _, _, _. split; [reflexivity|].
  split_and!; [|done|cbn; lia].
  unfold isShape, getExcalidrawShapeType. cbn.
  repeat case_bool_decide; tauto.
Qed.

Lemma renderConnection_run c w :
  ∃ arrowEl rest w',
    renderConnection rt c w = (arrowEl :: rest, w') ∧ isArrow arrowEl ∧
    (if decide (truthy (conn_label (pc_conn c)) = true)
     then ∃ labelEl, rest = [labelEl] ∧ isText labelEl
     else rest = []) ∧
    idCounter w' = idCounter w + length (arrowEl :: rest).
Proof.
  destruct w. state_simpl.
  destruct (truthy (conn_label (pc_conn c))) eqn:E;
    cbn -[pretty pretty_nat pretty_N];
    eexists _, _, _; (split; [reflexivity|]); split_and!; try done.
  - by eexists.
  - cbn. lia.
  - cbn. lia.
Qed.

Lemma isArrow_not_text e : isArrow e → ¬ isText e.
Proof. unfold isArrow, isText. intros -> ?. discriminate. Qed.

Lemma isShape_rectangle e : el_type e = EXCALIDRAW_RECTANGLE → isShape e.
Proof. by left. Qed.

Ltac count_filters :=
  repeat first
    [ rewrite filter_cons_True by
        (done || (by apply isShape_rectangle))
    | rewrite filter_cons_False by
        (first [ by apply isText_not_shape
               | by apply isArrow_not_shape
               | by apply isArrow_not_text
               | by (intros ?; eapply isText_not_shape; eassumption)
               | by (intros ?; eapply isArrow_not_shape; eassumption)
               | by (intros ?; eapply isArrow_not_text; eassumption) ])
    | rewrite filter_nil ].

Lemma renderGroup_counts g w :
  let out := renderGroup rt g w in
  length out.1 = 2 ∧ length (filter isShape out.1) = 1 ∧
  length (filter isArrow out.1) = 0 ∧ length (filter isText out.1) = 1 ∧
  idCounter out.2 = idCounter w + length out.1.
Proof.
  destruct (renderGroup_run g w) as (box & label & w' & -> & Hb & Hl & Hc).
  apply isShape_rectangle in Hb.
  cbn [fst snd]. split_and!; [done| | | |done]; count_filters; done.
Qed.

Lemma renderNode_counts n w :
  let out := renderNode rt n w in
  length out.1 = 2 ∧ length (filter isShape out.1) = 1 ∧
  length (filter isArrow out.1) = 0 ∧ length (filter isText out.1) = 1 ∧
  idCounter out.2 = idCounter w + length out.1.
Proof.
  destruct (renderNode_run n w) as (s & t & w' & -> & Hs & Ht & Hc).
  cbn [fst snd]. split_and!; [done| | | |done]; count_filters; done.
Qed.

Lemma renderConnection_counts c w :
  let out := renderConnection rt c w in
  let k := if decide (truthy (conn_label (pc_conn c)) = true) then 1 else 0 in
  length out.1 = 1 + k ∧ length (filter isShape out.1) = 0 ∧
  length (filter isArrow out.1) = 1 ∧ length (filter isText out.1) = k ∧
  idCounter out.2 = idCounter w + length out.1.
Proof.
  destruct (renderConnection_run c w) as (a & rest & w' & -> & Ha & Hrest & Hc).
  cbn [fst snd]. destruct (decide (truthy (conn_label (pc_conn c)) = true)).
  - destruct Hrest as (lbl & -> & Hl).
    split_and!; [done| | | |done]; count_filters; done.
  - subst rest. split_and!; [done| | | |done]; count_filters; done.
Qed.
End Counts.

(** X12.  A document holds, in this order, a box and a label for every
    positioned group, a shape and a text for every positioned node, and an
    arrow for every routed connection, followed by a text when the
    connection has a non-empty label.  So it has one shape per group and
    node, one arrow per routed connection and one text per group, node and
    labelled connection, and nothing else; and the renderer's counter
    advances by one for each element. *)
Theorem document_element_counts (rt : Runtime) (l : Layout) (w : World) :
  let '(doc, w') := render rt l w in
  let els := elements doc in
  let groups := length (l_groups l) in
  let nodes := length (l_nodes l) in
  let conns := length (l_connections l) in
  let labels := length (labelled (l_connections l)) in
  length els = 2 * groups + 2 * nodes + conns + labels ∧
  length (filter isShape els) = groups + nodes ∧
  length (filter isArrow els) = conns ∧
  length (filter isText els) = groups + nodes + labels ∧
  idCounter w' = idCounter w + length els.
Proof.
  unfold render, mbind, state_bind, mret, state_ret.
  set (k := fun c : PositionedConnection =>
              if decide (truthy (conn_label (pc_conn c)) = true) then 1 else 0).
  assert (Hk : sum_list (k <$> l_connections l)
               = length (labelled (l_connections l)))
    by apply (sum_list_indicator _ (l_connections l)).
  pose proof (forEachPush_measure (renderGroup rt) length (fun _ => 2)
                (l_groups l) w eq_refl (@length_app _)
                (fun g w => proj1 (renderGroup_counts rt g w))) as HG1.
  pose proof (forEachPush_measure (renderGroup rt) (length ∘ filter isShape)
                (fun _ => 1) (l_groups l) w eq_refl (length_filter_app _)
                (fun g w => proj1 (proj2 (renderGroup_counts rt g w)))) as HG2.
  pose proof (forEachPush_measure (renderGroup rt) (length ∘ filter isArrow)
                (fun _ => 0) (l_groups l) w eq_refl (length_filter_app _)
                (fun g w => proj1 (proj2 (proj2 (renderGroup_counts rt g w))))) as HG3.
  pose proof (forEachPush_measure (renderGroup rt) (length ∘ filter isText)
                (fun _ => 1) (l_groups l) w eq_refl (length_filter_app _)
                (fun g w => proj1 (proj2 (proj2 (proj2 (renderGroup_counts rt g w))))))
    as HG4.
  pose proof (forEachPush_counter (renderGroup rt) (l_groups l) w) as HG5.
  destruct (forEachPush (renderGroup rt) (l_groups l) w) as [G w1].
  pose proof (forEachPush_measure (renderNode rt) length (fun _ => 2)
                (l_nodes l) w1 eq_refl (@length_app _)
                (fun n w => proj1 (renderNode_counts rt n w))) as HN1.
  pose proof (forEachPush_measure (renderNode rt) (length ∘ filter isShape)
                (fun _ => 1) (l_nodes l) w1 eq_refl (length_filter_app _)
                (fun n w => proj1 (proj2 (renderNode_counts rt n w)))) as HN2.
  pose proof (forEachPush_measure (renderNode rt) (length ∘ filter isArrow)
                (fun _ => 0) (l_nodes l) w1 eq_refl (length_filter_app _)
                (fun n w => proj1 (proj2 (proj2 (renderNode_counts rt n w))))) as HN3.
  pose proof (forEachPush_measure (renderNode rt) (length ∘ filter isText)
                (fun _ => 1) (l_nodes l) w1 eq_refl (length_filter_app _)
                (fun n w => proj1 (proj2 (proj2 (proj2 (renderNode_counts rt n w))))))
    as HN4.
  pose proof (forEachPush_counter (renderNode rt) (l_nodes l) w1) as HN5.
  destruct (forEachPush (renderNode rt) (l_nodes l) w1) as [N w2].
  pose proof (forEachPush_measure (renderConnection rt) length (fun c => 1 + k c)
                (l_connections l) w2 eq_refl (@length_app _)
                (fun c w => proj1 (renderConnection_counts rt c w))) as HC1.
  pose proof (forEachPush_measure (renderConnection rt) (length ∘ filter isShape)
                (fun _ => 0) (l_connections l) w2 eq_refl (length_filter_app _)
                (fun c w => proj1 (proj2 (renderConnection_counts rt c w)))) as HC2.
  pose proof (forEachPush_measure (renderConnection rt) (length ∘ filter isArrow)
                (fun _ => 1) (l_connections l) w2 eq_refl (length_filter_app _)
                (fun c w => proj1 (proj2 (proj2 (renderConnection_counts rt c w)))))
    as HC3.
  pose proof (forEachPush_measure (renderConnection rt) (length ∘ filter isText)
                k (l_connections l) w2 eq_refl (length_filter_app _)
                (fun c w => proj1 (proj2 (proj2 (proj2 (renderConnection_counts rt c w))))))
    as HC4.
  pose proof (forEachPush_counter (renderConnection rt) (l_connections l) w2) as HC5.
  destruct (forEachPush (renderConnection rt) (l_connections l) w2) as [C w3].
  cbn [fst snd elements envelope compose] in *.
  rewrite ?sum_list_add, ?sum_list_const, ?Hk in *.
  rewrite !filter_app, !length_app.
  specialize (HG5 (fun g w0 => proj2 (proj2 (proj2 (proj2 (renderGroup_counts rt g w0)))))).
  specialize (HN5 (fun n w0 => proj2 (proj2 (proj2 (proj2 (renderNode_counts rt n w0)))))).
  specialize (HC5 (fun c w0 => proj2 (proj2 (proj2 (proj2 (renderConnection_counts rt c w0)))))).
  rewrite ?length_app in *. lia.
Qed.


(** ** Connections through the pipeline *)

Lemma z_array_length {A B} (f : A → result B) l l' :
  z_array f l = Ok l' → length l' = length l.
Proof.
  revert l'. induction l as [|a l IH]; intros l'; cbn.
  - by intros [= <-].
  - result_simpl. destruct (f a) as [b| |]; [|done..].
    destruct (z_array f l) as [bs| |]; [|done..].
    intros [= <-]. cbn. by rewrite (IH bs).
Qed.

Lemma parse_connections raw a :
  ArchitectureSchema_parse raw = Ok a →
  length (nodes a) = length (raw_nodes raw) ∧
  length (connections a) = length (raw_connections raw).
Proof.
  unfold ArchitectureSchema_parse. result_simpl.
  destruct (z_array NodeSchema (raw_nodes raw)) as [ns| |] eqn:En; [|done..].
  destruct (z_array ConnectionSchema (raw_connections raw)) as [cs| |] eqn:Ec;
    [|done..].
  destruct (z_array GroupSchema (default [] (raw_groups raw))) as [gs| |]; [|done..].
  destruct (raw_layout raw) as [lo|].
  - destruct (LayoutSchema lo) as [lo'| |]; [|done..].
    intros [= <-]. cbn. split; by eapply z_array_length.
  - intros [= <-]. cbn. split; by eapply z_array_length.
Qed.

Lemma render_arrow_count rt l w :
  length (filter isArrow (elements (render rt l w).1)) = length (l_connections l).
Proof.
  unfold render, mbind, state_bind, mret, state_ret.
  pose proof (forEachPush_measure (renderGroup rt) (length ∘ filter isArrow)
                (fun _ => 0) (l_groups l) w eq_refl (length_filter_app _)
                (fun g w => proj1 (proj2 (proj2 (renderGroup_counts rt g w))))) as HG.
  destruct (forEachPush (renderGroup rt) (l_groups l) w) as [G w1].
  pose proof (forEachPush_measure (renderNode rt) (length ∘ filter isArrow)
                (fun _ => 0) (l_nodes l) w1 eq_refl (length_filter_app _)
                (fun n w => proj1 (proj2 (proj2 (renderNode_counts rt n w))))) as HN.
  destruct (forEachPush (renderNode rt) (l_nodes l) w1) as [N w2].
  pose proof (forEachPush_measure (renderConnection rt) (length ∘ filter isArrow)
                (fun _ => 1) (l_connections l) w2 eq_refl (length_filter_app _)
                (fun c w => proj1 (proj2 (proj2 (renderConnection_counts rt c w)))))
    as HC.
  destruct (forEachPush (renderConnection rt) (l_connections l) w2) as [C w3].
  cbn [fst snd elements envelope compose] in *.
  rewrite ?sum_list_const in *. rewrite !filter_app, !length_app. lia.
Qed.

(** X13.  When the pipeline produces a document, every connection of the
    input is accounted for exactly once: the number of arrows of the
    document and the number of warnings add up to the number of connections
    handed in.  With no node called [__proto__], the arrows are those of the
    connections each of whose ends is a node id or a member name of
    [Object.prototype], the warnings those of the others. *)
Theorem every_connection_is_drawn_or_reported (rt : Runtime)
  (raw : RawArchitecture) (w w' : World) (doc : Document) (warnings : list string) :
  generateDiagram rt raw w = Ok (doc, warnings, w') →
  (length (filter isArrow (elements doc)) + length warnings
   = length (raw_connections raw))%nat ∧
  ∃ a, ArchitectureSchema_parse raw = Ok a ∧
       ("__proto__" ∉ nodeIds (nodes a) →
        length (filter isArrow (elements doc))
        = length (filter (drawn (nodes a)) (connections a)) ∧
        warnings = missingNodeWarning
                     <$> filter (fun c => ¬ drawn (nodes a) c) (connections a)).
Proof.
  unfold generateDiagram. result_simpl.
  destruct (ArchitectureSchema_parse raw) as [a| |] eqn:Ea; [|done..].
  destruct (generateLayout a) as [[l ws]| |] eqn:El; [|done..].
  pose proof (render_arrow_count rt l w) as Harrows.
  destruct (render rt l w) as [d w1]. intros [= <- <- <-].
  cbn [fst] in Harrows.
  destruct (generateLayout_shape a l ws El) as (pos & Hgen & _).
  rewrite finishLayout_eq in Hgen.
  pose proof (f_equal fst Hgen) as E1. pose proof (f_equal snd Hgen) as E2.
  cbn [fst snd] in E1, E2.
  assert (Hpos : l_nodes l = pos) by (by rewrite E1).
  assert (Hconn : l_connections l = (calculateConnectionPaths (connections a) pos).1)
    by (by rewrite E1).
  split.
  - rewrite Harrows, Hconn, E2, calculateConnectionPaths_length.
    by apply parse_connections in Ea as [_ ?].
  - exists a. split; [done|]. intros Hp.
    assert (Hids : ∀ i, i ∈ (pn_id <$> pos) ↔ i ∈ nodeIds (nodes a)).
    { intros i. rewrite <- resolves_ids, <- Hpos.
      by apply (positioned_ids a l ws). }
    assert (Hiff : ∀ c, routable pos c ↔ drawn (nodes a) c).
    { intros c. unfold routable, foundInNodeMap, drawn. by rewrite !Hids. }
    destruct (connections_split (connections a) pos) as [H1 H2];
      [by rewrite Hids|].
    rewrite Harrows, Hconn, E2, H2, <- (length_fmap pc_conn), H1.
    rewrite (list_filter_iff _ _ _ Hiff).
    rewrite (list_filter_iff (fun c => ¬ routable pos c)
               (fun c => ¬ drawn (nodes a) c)); [done|].
    intros c. by rewrite Hiff.
Qed.

Lemma every_connection_witness :
  ∃ doc warnings w',
    generateDiagram sampleRuntime twoNodes freshWorld = Ok (doc, warnings, w') ∧
    (length (filter isArrow (elements doc)) + length warnings = 1)%nat.
Proof.
  destruct (generateDiagram sampleRuntime twoNodes freshWorld)
    as [[[doc ws] w']| |] eqn:E; [|by vm_compute in E..].
  exists doc, ws, w'. split; [done|].
  apply (proj1 (every_connection_is_drawn_or_reported sampleRuntime twoNodes
                  freshWorld w' doc ws E)).
Defined.


(** ** Where the elements are drawn *)

Local Open Scope Q_scope.

Section Geometry.
Context (rt : Runtime).

Lemma renderNode_geometry n w : nodeTextGeometry n (renderNode rt n w).1.
Proof. destruct w. state_simpl. by eexists _, _, _. Qed.

Lemma CONNECTION_STYLES_arrow t :
  cs_arrowType (default (CONNECTION_STYLES_sync) (CONNECTION_STYLES !! t))
  = Some "arrow".
Proof.
  destruct (CONNECTION_STYLES !! t) as [s|] eqn:E; [|done].
  apply elem_of_list_to_map_2 in E. cbn [default].
  repeat (apply elem_of_cons in E as [[= -> ->]|E]; [done|]).
  by apply elem_of_nil in E.
Qed.

Lemma renderConnection_geometry c w : arrowGeometry c (renderConnection rt c w).1.
Proof.
  destruct w. unfold renderConnection, arrowGeometry.
  pose proof (CONNECTION_STYLES_arrow (conn_type (pc_conn c))) as Harrow.
  revert Harrow.
  generalize (default CONNECTION_STYLES_sync
                (CONNECTION_STYLES !! conn_type (pc_conn c))).
  intros st Harrow. state_simpl.
  destruct (truthy (conn_label (pc_conn c)));
    cbn -[pretty pretty_nat pretty_N]; eexists _, _;
    (split; [reflexivity|]); cbn; rewrite Harrow; by split_and!.
Qed.

Lemma renderNode_emits_geometry n w :
  emitsChunks (fun n ch => nodeChunk n ch ∧ nodeTextGeometry n ch) [n] w
    (renderNode rt n w).
Proof.
  apply emitsChunks_and; [apply renderNode_emits|apply renderNode_geometry].
Qed.

Lemma renderConnection_emits_geometry c w :
  emitsChunks (fun c ch => connectionChunk c ch ∧ arrowGeometry c ch) [c] w
    (renderConnection rt c w).
Proof.
  apply emitsChunks_and;
    [apply renderConnection_emits|apply renderConnection_geometry].
Qed.
End Geometry.

Lemma Qmin_cases (a b : Q) : (a <= b ∧ Qmin a b == a) ∨ (b <= a ∧ Qmin a b == b).
Proof.
  destruct (Q.min_spec a b) as [[H E]|[H E]].
  - left. split; [by apply Qlt_le_weak|done].
  - right. done.
Qed.

Lemma strLen_nonneg s : 0 <= strLen s.
Proof. unfold strLen. change 0 with (ofNat 0). apply ofNat_le. lia. Qed.

(** The length of a label is its number of characters when they are
    ASCII; a character outside the Basic Multilingual Plane counts two. *)
Lemma strLen_ascii s :
  Forall (fun c => (nat_of_ascii c < 128)%nat) (list_ascii_of_string s) →
  strLen s = ofNat (String.length s).
Proof.
  unfold strLen. intros H. f_equal.
  induction s as [|c s IH]; [done|].
  cbn [list_ascii_of_string foldr String.length] in *.
  apply Forall_cons in H as [Hc Hs]. rewrite (IH Hs). unfold utf16Units.
  by rewrite (proj2 (Nat.ltb_lt _ _) Hc).
Qed.

Lemma strLen_code_units :
  strLen "Café" = ofNat 4 ∧ strLen "naïve façade" = ofNat 12 ∧
  strLen "日本語" = ofNat 3 ∧ strLen "𝄞" = ofNat 2.
Proof. by vm_compute. Qed.

(** X14.  In a document rendered from the layout of an architecture whose
    node types are those of the schema, the text bound to a node's shape is
    centred on the shape and lies inside it: it is 20 high and as wide as
    the label at 9 units a UTF-16 code unit, but at most the width of the
    shape less 20, so it keeps at least 10 units from the left and right
    sides and 25 from the top and bottom. *)
Theorem node_label_sits_in_its_shape (rt : Runtime) (w : World)
  (a : Architecture) (l : Layout) (warnings : list string) (s t : Element) :
  Forall (fun n => node_type n ∈ NodeTypeSchema) (nodes a) →
  generateLayout a = Ok (l, warnings) →
  s ∈ elements (render rt l w).1 → t ∈ elements (render rt l w).1 →
  el_containerId t = Some (el_id s) →
  ∃ label sx sy sw sh tx ty tw th,
    el_text t = Some label ∧
    el_x s = Num sx ∧ el_y s = Num sy ∧ el_width s = Num sw ∧ el_height s = Num sh ∧
    el_x t = Num tx ∧ el_y t = Num ty ∧ el_width t = Num tw ∧ el_height t = Num th ∧
    tw == Qmin (strLen label * 9) (sw - 20) ∧ th == 20 ∧
    (Forall (fun c => (nat_of_ascii c < 128)%nat) (list_ascii_of_string label) →
     tw == Qmin (ofNat (String.length label) * 9) (sw - 20)) ∧
    tx + tw / 2 == sx + sw / 2 ∧ ty + th / 2 == sy + sh / 2 ∧
    0 <= tw ∧ tw <= sw - 20 ∧
    sx + 10 <= tx ∧ tx + tw <= sx + sw - 10 ∧
    sy + 25 <= ty ∧ ty + th <= sy + sh - 25.
Proof.
  intros Htypes Hl.
  destruct (render_chunks rt groupChunk
              (fun n ch => nodeChunk n ch ∧ nodeTextGeometry n ch)
              connectionChunk l w
              (renderGroup_emits rt) (renderNode_emits_geometry rt)
              (renderConnection_emits rt))
    as (gch & nch & cch & w' & -> & HG & HN' & HC & Hids & _).
  cbn [fst elements envelope]. intros Hs Ht Hc.
  assert (HN : Forall2 nodeChunk (l_nodes l) nch)
    by (eapply Forall2_impl; [exact HN'|]; by intros ? ? [? _]).
  destruct (bound_text_origin _ _ _ _ _ _ HG HN HC t _ Ht Hc)
    as (node0 & s' & _ & Hin & _ & Eid).
  assert (s' = s) as ->.
  { apply (same_id gch nch cch Hids); [|done..].
    by apply (in_node_chunk _ _ _ _ _ _ HG HN HC Hids s' t). }
  apply list_elem_of_lookup in Hin as (k & Hk).
  destruct (Forall2_lookup_r _ _ _ _ _ HN' Hk) as (node & Hnode & Hch & Hgeo).
  destruct Hch as (s1 & t1 & [= <- <-] & _ & _ & Ex & Ey & Ew & Eh & _).
  destruct Hgeo as (s2 & t2 & tw & [= <- <-] & Etw & Etext & Ewt & Eth & Etx & Ety).
  destruct (positioned_node_facts a l warnings node Hl
              ltac:(by eapply list_elem_of_lookup_2)) as (_ & _ & Hw & Hh).
  pose proof (styleOf_bounds (node_type (pn_node node))) as (H1 & _ & H2 & _).
  rewrite <- Hw in H1. rewrite <- Hh in H2.
  assert (Htw : 0 <= tw ∧ tw <= pn_width node - 20).
  { rewrite Etw.
    pose proof (strLen_nonneg (node_label (pn_node node))) as Hlen.
    destruct (Qmin_cases (strLen (node_label (pn_node node)) * 9)
                (pn_width node - 20)) as [[? ->]|[? ->]]; split; lra. }
  destruct Htw.
  eexists (node_label (pn_node node)), _, _, _, _, _, _, _, _.
  split; [exact Etext|].
  split; [exact Ex|]. split; [exact Ey|]. split; [exact Ew|]. split; [exact Eh|].
  split; [exact Etx|]. split; [exact Ety|]. split; [exact Ewt|]. split; [exact Eth|].
  split; [by rewrite Etw|]. split; [reflexivity|].
  split; [intros Hascii; by rewrite Etw, (strLen_ascii _ Hascii)|].
  rewrite !half_mult. split_and!; lra.
Qed.

Lemma node_label_witness :
  ∃ s t, s ∈ pairElements ∧ t ∈ pairElements ∧
         el_containerId t = Some (el_id s) ∧ el_text t = Some "User".
Proof.
  assert (Hels : ∃ s t rest, pairElements = s :: t :: rest ∧
                             el_containerId t = Some (el_id s) ∧
                             el_text t = Some "User").
  { vm_compute. eexists _, _, _. split_and!; reflexivity. }
  destruct Hels as (s & t & rest & Hels & Hc & Htext).
  assert (Hs : s ∈ pairElements) by (rewrite Hels; by left).
  assert (Ht : t ∈ pairElements) by (rewrite Hels; right; by left).
  exists s, t. split_and!; [done..|].
  destruct (node_label_sits_in_its_shape sampleRuntime freshWorld unconnectedPair
              pairLayout [] s t
              ltac:(by apply (bool_decide_unpack _); vm_compute)
              ltac:(by vm_compute) Hs Ht Hc)
    as (label & ? & ? & ? & ? & ? & ? & ? & ? & Hlabel & _).
  by rewrite Htext in Hlabel |- *.
Defined.


Lemma Qabs_Qmin_facts (a b : Q) :
  0 <= Qabs (b - a) ∧ (Qmin a b == a ↔ a <= b) ∧ Qmin a b <= a ∧ Qmin a b <= b.
Proof.
  split; [apply Qabs_nonneg|].
  destruct (Qmin_cases a b) as [[H E]|[H E]]; rewrite E.
  - split_and!; [|lra..]. split; [done|reflexivity].
  - split_and!; [|lra..]. split; [intros Hba; lra|intros Hab; lra].
Qed.

(** X15.  Every arrow of a document is the arrow of a connection of the
    layout and has two points, the first of them (0, 0).  The corner of its
    box is at the least x and the least y of the two anchors of the
    connection, and it has an arrowhead at its end whichever type of the
    schema the connection has.  When the anchors are numbers, so are the corner and the
    width and height of the box, which are the distances of the anchors in
    x and in y; the second point is the target anchor; the first point, the
    corner of the box, is the source anchor exactly when the source anchor
    is neither to the right of nor below the target anchor. *)
Theorem arrow_ends_at_target_anchor (rt : Runtime) (l : Layout) (w : World)
  (e : Element) :
  e ∈ elements (render rt l w).1 → isArrow e →
  ∃ pc p,
    pc ∈ l_connections l ∧
    el_startBinding e
    = Some {| elementId := conn_from (pc_conn pc); focus := 0; gap := 0 |} ∧
    el_endBinding e
    = Some {| elementId := conn_to (pc_conn pc); focus := 0; gap := 0 |} ∧
    el_points e = [(Num 0, Num 0); p] ∧
    el_x e = Math_min2 (js_x (jsFromPoint (pc_points pc)))
                       (js_x (jsToPoint (pc_points pc))) ∧
    el_y e = Math_min2 (js_y (jsFromPoint (pc_points pc)))
                       (js_y (jsToPoint (pc_points pc))) ∧
    (conn_type (pc_conn pc) ∈ ConnectionTypeSchema →
     el_endArrowhead e = Some "arrow") ∧
    ∀ source target : Point,
      jsFromPoint (pc_points pc) = ofPoint source →
      jsToPoint (pc_points pc) = ofPoint target →
      isNumber (el_x e) (Qmin (pt_x source) (pt_x target)) ∧
      isNumber (el_y e) (Qmin (pt_y source) (pt_y target)) ∧
      isNumber (el_width e) (Qabs (pt_x target - pt_x source)) ∧
      isNumber (el_height e) (Qabs (pt_y target - pt_y source)) ∧
      samePoint (absolutePoint e p) target ∧
      (samePoint (absolutePoint e (Num 0, Num 0)) source ↔
       pt_x source <= pt_x target ∧ pt_y source <= pt_y target).
Proof.
  destruct (render_chunks rt groupChunk nodeChunk
              (fun c ch => connectionChunk c ch ∧ arrowGeometry c ch) l w
              (renderGroup_emits rt) (renderNode_emits rt)
              (renderConnection_emits_geometry rt))
    as (gch & nch & cch & w' & -> & HG & HN & HC & _).
  cbn [fst elements envelope]. rewrite !elem_of_app. intros [He|[He|He]] Ha.
  - apply elem_of_concat in He as (ch & He & Hch).
    apply list_elem_of_lookup in Hch as (k & Hk).
    destruct (Forall2_lookup_r _ _ _ _ _ HG Hk) as (g & _ & Hg).
    destruct Hg as (box & label & -> & Hb & _ & _ & _ & _ & _ & _ & _ & Hlt & _).
    apply elem_of_cons in He as [->|He]; [type_clash|].
    apply list_elem_of_singleton in He as ->. type_clash.
  - destruct (nodeChunk_elems _ _ _ HN He)
      as (n & s & t & _ & _ & (s' & t' & Heq & Hs & _ & _ & _ & _ & _ & _ & Ht & _) & Hor).
    injection Heq as <- <-. destruct Hor as [-> | ->].
    + by apply isArrow_not_shape in Ha.
    + type_clash.
  - apply elem_of_concat in He as (ch & He & Hch).
    apply list_elem_of_lookup in Hch as (k & Hk).
    destruct (Forall2_lookup_r _ _ _ _ _ HC Hk) as (pc & Hpc & Hc & Hgeo).
    destruct Hc as (arrowEl & rest & -> & _ & _ & Hsb & Heb & Hrest).
    apply elem_of_cons in He as [->|He].
    + destruct Hgeo as (a' & r' & Heq & Ex & Ey & Ew & Eh & Ep & Eah).
      injection Heq as <- <-.
      exists pc. eexists. split; [by eapply list_elem_of_lookup_2|].
      split_and!; [done|done|exact Ep|exact Ex|exact Ey|done|].
      intros source target Hs Ht.
      unfold samePoint, absolutePoint. cbn [fst snd js_x js_y].
      rewrite Ex, Ey, Ew, Eh, Hs, Ht.
      destruct (Qabs_Qmin_facts (pt_x source) (pt_x target)) as (_ & Hx & _).
      destruct (Qabs_Qmin_facts (pt_y source) (pt_y target)) as (_ & Hy & _).
      cbn. split_and!; try reflexivity; try ring.
      rewrite !Qplus_0_r. by rewrite Hx, Hy.
    + destruct Hrest as [->|(labelEl & -> & Hl & _)]; [by apply elem_of_nil in He|].
      apply list_elem_of_singleton in He as ->. type_clash.
Qed.

Lemma arrow_witness :
  ∃ e x y, e ∈ linkedElements ∧ isArrow e ∧ el_endArrowhead e = Some "arrow" ∧
           isNumber (el_x e) x ∧ isNumber (el_y e) y.
Proof.
  assert (Hels : ∃ a b c d e rest,
             linkedElements = a :: b :: c :: d :: e :: rest ∧ isArrow e).
  { vm_compute. eexists _, _, _, _, _, _. split; reflexivity. }
  destruct Hels as (a & b & c & d & e & rest & Hels & Ha).
  assert (He : e ∈ linkedElements) by (rewrite Hels; do 4 right; by left).
  assert (Hpcs : ∃ pc source target,
             l_connections linkedLayout = [pc] ∧
             conn_type (pc_conn pc) ∈ ConnectionTypeSchema ∧
             jsFromPoint (pc_points pc) = ofPoint source ∧
             jsToPoint (pc_points pc) = ofPoint target).
  { vm_compute. eexists _, (Build_Point _ _), (Build_Point _ _).
    split_and!; [reflexivity| |reflexivity..].
    cbn. repeat constructor. }
  destruct Hpcs as (pc0 & source & target & Hpcs & Hty & Hs & Ht).
  destruct (arrow_ends_at_target_anchor sampleRuntime linkedLayout freshWorld
              e He Ha) as (pc & p & Hpc & _ & _ & _ & _ & _ & Hhead & Hnum).
  rewrite Hpcs in Hpc. apply list_elem_of_singleton in Hpc as ->.
  destruct (Hnum source target Hs Ht) as (Hx & Hy & _).
  exists e, (Qmin (pt_x source) (pt_x target)), (Qmin (pt_y source) (pt_y target)).
  split_and!; [done|done|by apply Hhead|done..].
Defined.


(** * Further properties of the schema *)

Local Close Scope Q_scope.

Lemma z_enum_Ok allowed path v r :
  z_enum allowed path v = Ok r ↔ v ∈ allowed ∧ r = v.
Proof.
  unfold z_enum. case_bool_decide; split; try done.
  - by intros [= <-].
  - by intros [_ ->].
  - by intros [? _].
Qed.

Lemma z_enum_default_Ok allowed path d v r :
  d ∈ allowed →
  z_enum_default allowed path d v = Ok r ↔
  default d v ∈ allowed ∧ r = default d v.
Proof.
  intros Hd. destruct v as [s|]; cbn.
  - apply z_enum_Ok.
  - split; [by intros [= <-]|by intros [_ ->]].
Qed.

Lemma z_array_Ok {A B} (f : A → result B) (P : A → Prop) (g : A → B) l l' :
  (∀ a b, f a = Ok b ↔ P a ∧ b = g a) →
  z_array f l = Ok l' ↔ Forall P l ∧ l' = g <$> l.
Proof.
  intros Hf. revert l'. induction l as [|a l IH]; intros l'; cbn.
  - split; [by intros [= <-]|by intros [_ ->]].
  - result_simpl. split.
    + destruct (f a) as [b| |] eqn:Ea; [|done..].
      destruct (z_array f l) as [bs| |]; [|done..].
      intros [= <-]. apply Hf in Ea as [? ->].
      destruct (proj1 (IH bs) eq_refl) as [? ->]. split; [by constructor|done].
    + intros [[Ha Hl]%Forall_cons ->].
      rewrite (proj2 (Hf a (g a))) by done.
      by rewrite (proj2 (IH (g <$> l))).
Qed.

Lemma NodeSchema_Ok n r :
  NodeSchema n = Ok r ↔ node_type n ∈ NodeTypeSchema ∧ r = n.
Proof.
  unfold NodeSchema. result_simpl.
  destruct (z_enum NodeTypeSchema "nodes.type" (node_type n)) as [t| |] eqn:E.
  - apply z_enum_Ok in E as [? ->]. destruct n. cbn. split.
    + by intros [= <-].
    + by intros [_ ->].
  - split; [done|]. intros [Hin _].
    assert (z_enum NodeTypeSchema "nodes.type" (node_type n) = Ok (node_type n))
      by (by apply z_enum_Ok). congruence.
  - split; [done|]. intros [Hin _].
    assert (z_enum NodeTypeSchema "nodes.type" (node_type n) = Ok (node_type n))
      by (by apply z_enum_Ok). congruence.
Qed.

Lemma ConnectionSchema_Ok c r :
  ConnectionSchema c = Ok r ↔
  conn_type c ∈ ConnectionTypeSchema ∧ r = connectionDefaults c.
Proof.
  unfold ConnectionSchema, connectionDefaults. result_simpl.
  destruct (z_enum ConnectionTypeSchema "connections.type" (conn_type c))
    as [t| |] eqn:E.
  - apply z_enum_Ok in E as [? ->]. split.
    + by intros [= <-].
    + by intros [_ ->].
  - split; [done|]. intros [Hin _].
    assert (z_enum ConnectionTypeSchema "connections.type" (conn_type c)
            = Ok (conn_type c)) by (by apply z_enum_Ok). congruence.
  - split; [done|]. intros [Hin _].
    assert (z_enum ConnectionTypeSchema "connections.type" (conn_type c)
            = Ok (conn_type c)) by (by apply z_enum_Ok). congruence.
Qed.

Lemma GroupSchema_Ok g r :
  GroupSchema g = Ok r ↔
  default "boundary" (group_type g) ∈ GroupTypeSchema ∧ r = groupDefaults g.
Proof.
  unfold GroupSchema, groupDefaults. result_simpl.
  assert (Hd : "boundary" ∈ GroupTypeSchema) by (apply (bool_decide_unpack _); done).
  destruct (z_enum_default GroupTypeSchema "groups.type" "boundary" (group_type g))
    as [t| |] eqn:E.
  - apply z_enum_default_Ok in E as [? ->]; [|done]. split.
    + by intros [= <-].
    + by intros [_ ->].
  - split; [done|]. intros [Hin _].
    assert (z_enum_default GroupTypeSchema "groups.type" "boundary" (group_type g)
            = Ok (default "boundary" (group_type g)))
      by (by apply z_enum_default_Ok). congruence.
  - split; [done|]. intros [Hin _].
    assert (z_enum_default GroupTypeSchema "groups.type" "boundary" (group_type g)
            = Ok (default "boundary" (group_type g)))
      by (by apply z_enum_default_Ok). congruence.
Qed.

Lemma LayoutSchema_Ok l r :
  LayoutSchema l = Ok r ↔
  (default "hierarchical" (raw_type l) ∈ LayoutTypeSchema ∧
   default "TB" (raw_direction l) ∈ DirectionSchema) ∧ r = layoutDefaults l.
Proof.
  unfold LayoutSchema, layoutDefaults. result_simpl.
  assert (Hd1 : "hierarchical" ∈ LayoutTypeSchema)
    by (apply (bool_decide_unpack _); done).
  assert (Hd2 : "TB" ∈ DirectionSchema) by (apply (bool_decide_unpack _); done).
  pose proof (z_enum_default_Ok LayoutTypeSchema "layout.type" "hierarchical"
                (raw_type l)) as H1.
  pose proof (z_enum_default_Ok DirectionSchema "layout.direction" "TB"
                (raw_direction l)) as H2.
  destruct (z_enum_default LayoutTypeSchema "layout.type" "hierarchical" (raw_type l))
    as [t| |].
  - destruct (proj1 (H1 t Hd1) eq_refl) as [Ht ->].
    destruct (z_enum_default DirectionSchema "layout.direction" "TB" (raw_direction l))
      as [d| |].
    + destruct (proj1 (H2 d Hd2) eq_refl) as [Hdir ->]. split.
      * by intros [= <-].
      * by intros [_ ->].
    + split; [done|]. intros [[_ Hin] _].
      by specialize (proj2 (H2 _ Hd2) (conj Hin eq_refl)).
    + split; [done|]. intros [[_ Hin] _].
      by specialize (proj2 (H2 _ Hd2) (conj Hin eq_refl)).
  - split; [done|]. intros [[Hin _] _].
    by specialize (proj2 (H1 _ Hd1) (conj Hin eq_refl)).
  - split; [done|]. intros [[Hin _] _].
    by specialize (proj2 (H1 _ Hd1) (conj Hin eq_refl)).
Qed.

(** Validation succeeds exactly on the inputs whose enumerated keys are
    valid, and then returns the input with the defaults filled in. *)
Lemma parse_Ok raw a :
  ArchitectureSchema_parse raw = Ok a ↔ validEnums raw ∧ a = filledIn raw.
Proof.
  unfold ArchitectureSchema_parse, validEnums, filledIn. result_simpl.
  pose proof (z_array_Ok NodeSchema (fun n => node_type n ∈ NodeTypeSchema) id
                (raw_nodes raw)) as HN.
  pose proof (z_array_Ok ConnectionSchema
                (fun c => conn_type c ∈ ConnectionTypeSchema) connectionDefaults
                (raw_connections raw)) as HC.
  pose proof (z_array_Ok GroupSchema
                (fun g => default "boundary" (group_type g) ∈ GroupTypeSchema)
                groupDefaults (default [] (raw_groups raw))) as HG.
  destruct (z_array NodeSchema (raw_nodes raw)) as [ns| |].
  2,3: split; [done|]; intros [(Hn & _) _];
       by specialize (proj2 (HN _ NodeSchema_Ok) (conj Hn eq_refl)).
  destruct (proj1 (HN ns NodeSchema_Ok) eq_refl) as [Hn ->].
  rewrite list_fmap_id.
  destruct (z_array ConnectionSchema (raw_connections raw)) as [cs| |].
  2,3: split; [done|]; intros [(_ & Hc & _) _];
       by specialize (proj2 (HC _ ConnectionSchema_Ok) (conj Hc eq_refl)).
  destruct (proj1 (HC cs ConnectionSchema_Ok) eq_refl) as [Hc ->].
  destruct (z_array GroupSchema (default [] (raw_groups raw))) as [gs| |].
  2,3: split; [done|]; intros [(_ & _ & Hg & _) _];
       by specialize (proj2 (HG _ GroupSchema_Ok) (conj Hg eq_refl)).
  destruct (proj1 (HG gs GroupSchema_Ok) eq_refl) as [Hg ->].
  destruct (raw_layout raw) as [l|]; cbn.
  - pose proof (LayoutSchema_Ok l) as HL.
    destruct (LayoutSchema l) as [l'| |].
    + destruct (proj1 (HL l') eq_refl) as [Hl ->]. split.
      * intros [= <-]. split; [|done]. split_and!; [done..|]. by intros ? [= <-].
      * by intros [_ ->].
    + split; [done|]. intros [(_ & _ & _ & Hl) _].
      by specialize (proj2 (HL _) (conj (Hl l eq_refl) eq_refl)).
    + split; [done|]. intros [(_ & _ & _ & Hl) _].
      by specialize (proj2 (HL _) (conj (Hl l eq_refl) eq_refl)).
  - split.
    + intros [= <-]. by split_and!.
    + by intros [_ ->].
Qed.


(** X16.  For an input whose keys have the types of the schema,
    validation checks the enumerated keys and nothing else: the type of
    every node and connection, the type of a group, and the type and
    direction of the layout, where present.  When all are valid the result
    is the input with the defaults filled in ([bidirectional] false, group
    type boundary, layout type hierarchical, direction TB, spacing 80 and
    100), the nodes unchanged; otherwise validation throws a [ZodError].
    Node ids are not compared with each other and the ends of a connection
    and the members of a group are not looked up. *)
Theorem schema_checks_enums_only (raw : RawArchitecture) :
  (validEnums raw → ArchitectureSchema_parse raw = Ok (filledIn raw)) ∧
  (¬ validEnums raw →
   ∃ path, ArchitectureSchema_parse raw = Throw (ZodError path)) ∧
  (∀ a, ArchitectureSchema_parse raw = Ok a →
        validEnums raw ∧ a = filledIn raw ∧ nodes a = raw_nodes raw).
Proof.
  split_and!.
  - intros Hv. by apply parse_Ok.
  - intros Hv. pose proof (parse_zod raw) as Hz.
    destruct (ArchitectureSchema_parse raw) as [a|[path|msg]|] eqn:E; try done.
    + apply parse_Ok in E as [? _]. done.
    + by exists path.
  - intros a [Hv ->]%parse_Ok. done.
Qed.

Lemma schema_accepts_duplicate_ids :
  ArchitectureSchema_parse duplicateIds = Ok (filledIn duplicateIds).
Proof.
  apply (proj1 (schema_checks_enums_only duplicateIds)).
  unfold validEnums, duplicateIds. cbn. split_and!.
  - repeat constructor; apply (bool_decide_unpack _); done.
  - repeat constructor; apply (bool_decide_unpack _); done.
  - constructor.
  - by intros l [=].
Defined.

Lemma connectionDefaults_idem c :
  connectionDefaults (connectionDefaults c) = connectionDefaults c.
Proof. done. Qed.

Lemma groupDefaults_idem g : groupDefaults (groupDefaults g) = groupDefaults g.
Proof. done. Qed.

(** X17.  Validation is idempotent: a validated architecture handed in
    again, as [GenerateArchitectureTool] does after its own check against
    the schema, validates to itself. *)
Theorem validation_is_idempotent (raw : RawArchitecture) (a : Architecture) :
  ArchitectureSchema_parse raw = Ok a →
  ArchitectureSchema_parse (toRaw a) = Ok a.
Proof.
  intros [(Hn & Hc & Hg & Hl) ->]%parse_Ok. apply parse_Ok.
  unfold validEnums, filledIn, toRaw. cbn. split.
  - split_and!.
    + done.
    + by apply Forall_fmap.
    + by apply Forall_fmap.
    + intros l. destruct (raw_layout raw) as [l0|]; [|done].
      cbn. intros [= <-]. cbn. by apply Hl.
  - f_equal.
    + rewrite <- list_fmap_compose. apply list_fmap_ext. by intros ? c _.
    + rewrite <- list_fmap_compose. apply list_fmap_ext. by intros ? g _.
    + destruct (raw_layout raw) as [l0|]; [|done]. cbn. f_equal.
      unfold layoutDefaults. cbn. f_equal.
      by destruct (raw_spacing l0).
Qed.

Lemma validation_idempotent_witness :
  ArchitectureSchema_parse (toRaw (filledIn twoNodes)) = Ok (filledIn twoNodes).
Proof.
  apply (validation_is_idempotent twoNodes (filledIn twoNodes)).
  by vm_compute.
Defined.


(** * The templates *)

Lemma render_shape_count rt l w :
  length (filter isShape (elements (render rt l w).1))
  = length (l_groups l) + length (l_nodes l).
Proof.
  unfold render, mbind, state_bind, mret, state_ret.
  pose proof (forEachPush_measure (renderGroup rt) (length ∘ filter isShape)
                (fun _ => 1) (l_groups l) w eq_refl (length_filter_app _)
                (fun g w => proj1 (proj2 (renderGroup_counts rt g w)))) as HG.
  destruct (forEachPush (renderGroup rt) (l_groups l) w) as [G w1].
  pose proof (forEachPush_measure (renderNode rt) (length ∘ filter isShape)
                (fun _ => 1) (l_nodes l) w1 eq_refl (length_filter_app _)
                (fun n w => proj1 (proj2 (renderNode_counts rt n w)))) as HN.
  destruct (forEachPush (renderNode rt) (l_nodes l) w1) as [N w2].
  pose proof (forEachPush_measure (renderConnection rt) (length ∘ filter isShape)
                (fun _ => 0) (l_connections l) w2 eq_refl (length_filter_app _)
                (fun c w => proj1 (proj2 (renderConnection_counts rt c w)))) as HC.
  destruct (forEachPush (renderConnection rt) (l_connections l) w2) as [C w3].
  cbn [fst snd elements envelope compose] in *.
  rewrite ?sum_list_const in *. rewrite !filter_app, !length_app. lia.
Qed.

(** A diagram without warnings, with its shapes and arrows counted. *)
Lemma diagram_counts rt raw w a l (nodes groups conns : nat) :
  ArchitectureSchema_parse raw = Ok a →
  generateLayout a = Ok (l, []) →
  length (l_nodes l) = nodes → length (l_groups l) = groups →
  length (l_connections l) = conns →
  ∃ doc w',
    generateDiagram rt raw w = Ok (doc, [], w') ∧
    length (filter isShape (elements doc)) = nodes + groups ∧
    length (filter isArrow (elements doc)) = conns.
Proof.
  intros Ha Hl <- <- <-.
  pose proof (render_shape_count rt l w) as Hs.
  pose proof (render_arrow_count rt l w) as Hc.
  unfold generateDiagram. rewrite Ha. result_simpl. rewrite Hl.
  destruct (render rt l w) as [doc w']. exists doc, w'. cbn [fst] in *.
  split; [done|]. split; [lia|done].
Qed.

Lemma templates_own name template :
  templates !! name = Some template →
  (name, template) ∈ [ ("three-tier", threeTier); ("microservices", microservices);
                       ("event-driven", eventDriven) ].
Proof. apply elem_of_list_to_map_2. Qed.

Lemma getTemplate_available name :
  name ∈ getAvailableTemplates ↔ ∃ template, getTemplate name = Entry template.
Proof.
  unfold getTemplate, getAvailableTemplates. split.
  - rewrite !elem_of_cons, elem_of_nil.
    intros [->|[->|[->|[]]]]; by eexists.
  - intros [t Ht]. apply member_Entry in Ht.
    apply templates_own in Ht.
    repeat (apply elem_of_cons in Ht as [[= -> _]|Ht];
            [apply (bool_decide_unpack _); done|]).
    by apply elem_of_nil in Ht.
Qed.

Lemma getTemplate_inherited name :
  name ∈ objectPrototype → getTemplate name = Inherited.
Proof.
  unfold objectPrototype. rewrite !elem_of_cons, elem_of_nil.
  intros H. repeat (destruct H as [->|H]; [by vm_compute|]). done.
Qed.

Lemma getTemplate_falsy name :
  name ∉ getAvailableTemplates → name ∉ objectPrototype →
  getTemplate name = Falsy.
Proof.
  intros Hno Hproto. unfold getTemplate, member.
  destruct (templates !! name) as [t|] eqn:E.
  { destruct Hno. apply getTemplate_available. exists t.
    unfold getTemplate, member. by rewrite E. }
  change (templates !! "__proto__") with (@None (Params → RawArchitecture)).
  cbn [mbind option_bind]. by rewrite bool_decide_eq_false_2.
Qed.

Lemma threeTierOf_diagram rt w frontend backend database :
  ∃ doc w',
    generateDiagram rt (threeTierOf frontend backend database) w
    = Ok (doc, [], w') ∧
    length (filter isShape (elements doc)) = 4 + 2 ∧
    length (filter isArrow (elements doc)) = 3.
Proof.
  eapply diagram_counts.
  - vm_compute. reflexivity.
  - vm_compute. reflexivity.
  - reflexivity.
  - reflexivity.
  - reflexivity.
Qed.

Lemma microservices_diagram rt w params :
  ∃ doc w',
    generateDiagram rt (microservices params) w = Ok (doc, [], w') ∧
    length (filter isShape (elements doc)) = 9 + 2 ∧
    length (filter isArrow (elements doc)) = 8.
Proof.
  eapply diagram_counts.
  - vm_compute. reflexivity.
  - vm_compute. reflexivity.
  - reflexivity.
  - reflexivity.
  - reflexivity.
Qed.

Lemma eventDriven_diagram rt w params :
  ∃ doc w',
    generateDiagram rt (eventDriven params) w = Ok (doc, [], w') ∧
    length (filter isShape (elements doc)) = 5 + 0 ∧
    length (filter isArrow (elements doc)) = 4.
Proof.
  eapply diagram_counts.
  - vm_compute. reflexivity.
  - vm_compute. reflexivity.
  - reflexivity.
  - reflexivity.
  - reflexivity.
Qed.

(** X18.  The names of [getAvailableTemplates] are exactly the names the
    object of the templates has as its own.  For each of them and any
    labels, [generateFromTemplate] produces a document without any warning,
    in which every node and every group of the template has its shape and
    every connection its arrow.  For a name of a member of
    [Object.prototype] the lookup finds that member, no "not found" error
    is thrown, and calling the member throws: a validation error for
    [constructor] and [toString], which return no architecture, a
    [TypeError] for the others.  For every other name
    [generateFromTemplate] throws the error "Template '<name>' not
    found". *)
Theorem every_template_yields_its_diagram (rt : Runtime) (name : string)
  (params : Params) (w : World) :
  (name ∈ getAvailableTemplates ↔ ∃ template, getTemplate name = Entry template) ∧
  (name ∈ getAvailableTemplates ↔ is_Some (templates !! name)) ∧
  (∀ template, getTemplate name = Entry template →
     ∃ doc w',
       generateFromTemplate rt name params w = inr (Ok (doc, [], w')) ∧
       length (filter isShape (elements doc))
       = length (raw_nodes (template params))
         + length (default [] (raw_groups (template params))) ∧
       length (filter isArrow (elements doc))
       = length (raw_connections (template params))) ∧
  (name ∈ objectPrototype →
   name ∉ getAvailableTemplates ∧
   ∃ err,
     generateFromTemplate rt name params w = inr (Throw err) ∧
     if bool_decide (name ∈ ["constructor"; "toString"])
     then ∃ path, err = ZodError path
     else ∃ message, err = TypeError message) ∧
  (name ∉ getAvailableTemplates → name ∉ objectPrototype →
   generateFromTemplate rt name params w
   = inl ("Template '" +:+ name +:+ "' not found")).
Proof.
  split_and!.
  - apply getTemplate_available.
  - rewrite getTemplate_available. unfold getTemplate. split.
    + intros [t Ht%member_Entry]. by eexists.
    + intros [t Ht]. exists t. unfold member. by rewrite Ht.
  - intros template Ht. unfold generateFromTemplate. rewrite Ht.
    unfold getTemplate in Ht. apply member_Entry in Ht.
    apply templates_own in Ht.
    apply elem_of_cons in Ht as [[= -> ->]|Ht].
    { destruct (threeTierOf_diagram rt w (paramOr params "frontend" "Web App")
                  (paramOr params "backend" "API Server")
                  (paramOr params "database" "Database"))
        as (doc & w' & Hd & Hs & Ha).
      exists doc, w'. by split_and!; [f_equal|..]. }
    apply elem_of_cons in Ht as [[= -> ->]|Ht].
    { destruct (microservices_diagram rt w params) as (doc & w' & Hd & Hs & Ha).
      exists doc, w'. by split_and!; [f_equal|..]. }
    apply elem_of_cons in Ht as [[= -> ->]|Ht].
    { destruct (eventDriven_diagram rt w params) as (doc & w' & Hd & Hs & Ha).
      exists doc, w'. by split_and!; [f_equal|..]. }
    by apply elem_of_nil in Ht.
  - intros Hproto. split.
    + intros [t Ht]%getTemplate_available.
      by rewrite (getTemplate_inherited _ Hproto) in Ht.
    + exists (callInherited name). unfold generateFromTemplate.
      rewrite (getTemplate_inherited _ Hproto). split; [done|].
      revert Hproto. unfold objectPrototype. rewrite !elem_of_cons, elem_of_nil.
      intros H. repeat (destruct H as [->|H]; [vm_compute; by eexists|]). done.
  - intros Hno Hproto. unfold generateFromTemplate.
    by rewrite (getTemplate_falsy _ Hno Hproto).
Qed.

Lemma template_witness :
  ∃ doc w',
    generateFromTemplate sampleRuntime "three-tier" ∅ freshWorld
    = inr (Ok (doc, [], w')) ∧
    length (filter isArrow (elements doc)) = 3.
Proof.
  destruct (proj1 (proj2 (proj2 (every_template_yields_its_diagram sampleRuntime
                            "three-tier" ∅ freshWorld))) threeTier eq_refl)
    as (doc & w' & Hd & _ & Ha).
  exists doc, w'. split; [exact Hd|exact Ha].
Defined.


(** * From the workflow to the diagram *)

Local Open Scope Q_scope.

(** X19.  For a microservices architecture with more than 8 nodes
    [selectLayout] chooses the grid strategy with the number 120 as
    [spacing], where the schema requires an object.  [renderDiagram]
    therefore fails on the DSL [generateDSL] builds from it, whatever the
    nodes and connections are: no diagram is stored, the error is
    appended and the retry count is raised; and rendering the failed
    state again fails in the same way. *)
Theorem big_microservices_are_never_rendered (rt : Runtime)
  (message : JsError → string) (state : WorkflowState) (reads reads' : nat) :
  ws_architectureType state = Some "microservices" →
  (8 < length (ws_nodes state))%nat →
  let planned := generateDSL (selectLayout state) in
  let failed := renderingFailed message planned (ZodError "layout.spacing") in
  ws_layoutStrategy planned = Some "grid" ∧
  renderDiagram rt message planned reads = Some (failed, reads) ∧
  ws_excalidrawData failed = ws_excalidrawData state ∧
  ws_errors failed
  = ["Diagram rendering failed: " +:+ message (ZodError "layout.spacing")] ∧
  ws_retryCount failed = 1%nat ∧
  renderDiagram rt message failed reads'
  = Some (renderingFailed message failed (ZodError "layout.spacing"), reads').
Proof.
  intros Hty Hn planned failed. subst failed planned.
  unfold selectLayout, generateDSL, renderDiagram.
  rewrite (bool_decide_eq_true_2 _ Hty), (bool_decide_eq_true_2 _ Hn).
  cbn. by split_and!.
Qed.
Lemma big_microservices_witness :
  ws_layoutStrategy (generateDSL (selectLayout nineServices)) = Some "grid".
Proof.
  apply (proj1 (big_microservices_are_never_rendered sampleRuntime (fun _ => "")
                  nineServices 0%nat 0%nat eq_refl ltac:(cbn; lia))).
Defined.

Lemma selectLayout_frame state :
  ws_architectureType (selectLayout state) = ws_architectureType state ∧
  ws_nodes (selectLayout state) = ws_nodes state ∧
  ws_connections (selectLayout state) = ws_connections state ∧
  ws_excalidrawData (selectLayout state) = ws_excalidrawData state.
Proof.
  unfold selectLayout.
  by destruct (bool_decide (ws_architectureType state = Some "microservices")
               && bool_decide (8 < length (ws_nodes state))%nat),
     (bool_decide (ws_architectureType state = Some "layered")),
     (Qltb (ofNat (length (ws_nodes state)) * (3 # 2))
           (ofNat (length (ws_connections state)))).
Qed.

Lemma selectLayout_cases state :
  (ws_architectureType state = Some "microservices" ∧
   (8 < length (ws_nodes state))%nat) ∨
  (∃ strategy rank layer columns layers direction,
     strategy ∈ ["hierarchical"; "grid"; "layered"] ∧
     default "TB" direction = "TB" ∧
     ws_layoutStrategy (selectLayout state) = Some strategy ∧
     ws_layoutConfig (selectLayout state)
     = Some {| wl_direction := direction; wl_columns := columns;
               wl_layers := layers;
               wl_spacing := Some (SpacingObject (Some 100) rank layer) |} ∧
     default 100 rank
     = (if bool_decide (strategy = "hierarchical") then 120 else 100)).
Proof.
  unfold selectLayout.
  destruct (bool_decide (ws_architectureType state = Some "microservices")) eqn:E1;
    [destruct (bool_decide (8 < length (ws_nodes state))%nat) eqn:E2|]; cbn [andb].
  - left. by apply bool_decide_eq_true in E1, E2.
  - right.
    destruct (bool_decide (ws_architectureType state = Some "layered")) eqn:E3;
      [|destruct (Qltb _ _)]; cbn;
      (eexists _, _, _, _, _, _;
       split_and!; [| |reflexivity|reflexivity|];
       first [reflexivity|set_solver]).
  - right.
    destruct (bool_decide (ws_architectureType state = Some "layered")) eqn:E3;
      [|destruct (Qltb _ _)]; cbn;
      (eexists _, _, _, _, _, _;
       split_and!; [| |reflexivity|reflexivity|];
       first [reflexivity|set_solver]).
Qed.

(** X20.  In every other case [selectLayout] chooses one of the
    strategies hierarchical, grid and layered, and when the types of the
    nodes and connections are valid the DSL [generateDSL] builds validates.
    What reaches the layout engine of the chosen configuration is the
    strategy, the direction TB and the spacing 100 between nodes and 120
    (hierarchical) or 100 (grid, layered) between ranks: [columns],
    [layers] and the [layer] spacing of the layered configuration are not
    keys of the schema; the connections get the default of the schema for
    [bidirectional].  Under the grid and layered strategies, and under
    the hierarchical strategy when no connection joins two names found in
    the dependency graph that are not both nodes, [renderDiagram] succeeds:
    the diagram is stored and the workflow is marked completed.  Under the
    hierarchical strategy with such a connection it fails with a
    [TypeError]: the error is appended and the retry count raised. *)
Theorem other_workflows_are_rendered (rt : Runtime)
  (message : JsError → string) (state : WorkflowState) (reads : nat) :
  ¬ (ws_architectureType state = Some "microservices" ∧
     (8 < length (ws_nodes state))%nat) →
  Forall (fun n => node_type n ∈ NodeTypeSchema) (ws_nodes state) →
  Forall (fun c => conn_type c ∈ ConnectionTypeSchema) (ws_connections state) →
  let planned := generateDSL (selectLayout state) in
  ∃ strategy dsl description a,
    ws_layoutStrategy planned = Some strategy ∧
    strategy ∈ ["hierarchical"; "grid"; "layered"] ∧
    ws_semanticDSL planned = Some dsl ∧
    describeDSL dsl = inr description ∧
    ArchitectureSchema_parse description = Ok a ∧
    nodes a = ws_nodes state ∧
    connections a = connectionDefaults <$> ws_connections state ∧
    layout a
    = Some {| lc_type := Some strategy; lc_direction := Some "TB";
              lc_spacing :=
                Some {| sp_node := 100;
                        sp_rank := if bool_decide (strategy = "hierarchical")
                                   then 120 else 100 |} |} ∧
    (strategy ≠ "hierarchical" ∨
     Forall (fun c => ¬ breaksGraph (ws_nodes state) c) (ws_connections state) →
     ∃ l warnings doc w',
       generateLayout a = Ok (l, warnings) ∧
       render rt l {| idCounter := 0; clockReads := reads |} = (doc, w') ∧
       renderDiagram rt message planned reads
       = Some (rendered planned doc, clockReads w')) ∧
    (strategy = "hierarchical" →
     Exists (breaksGraph (ws_nodes state)) (ws_connections state) →
     ∃ msg,
       renderDiagram rt message planned reads
       = Some (renderingFailed message planned (TypeError msg), reads)).
Proof.
  intros Hsmall Hn Hc planned.
  destruct (selectLayout_frame state) as (Fty & Fn & Fc & _).
  destruct (selectLayout_cases state)
    as [?|(strategy & rank & layer & columns & layers & direction
           & Hs & Hdir & Hstrat & Hcfg & Hrank)]; [done|].
  set (groups :=
         if bool_decide (ws_architectureType state = Some "microservices")
            && bool_decide
                 (2 < length (node_id <$> filter (fun n => node_type n = "service")
                                            (ws_nodes state)))%nat
         then Some [ {| group_id := "services"; group_label := "Microservices";
                        group_contains :=
                          node_id <$> filter (fun n => node_type n = "service")
                                             (ws_nodes state);
                        group_type := Some "cluster" |} ]
         else None).
  set (description :=
         {| raw_nodes := ws_nodes state;
            raw_connections := ws_connections state;
            raw_groups := groups;
            raw_layout := Some {| raw_type := Some strategy;
                                  raw_direction := direction;
                                  raw_spacing :=
                                    Some {| raw_node := Some 100;
                                            raw_rank := rank |} |} |}).
  assert (Hdsl : ∃ dsl, ws_semanticDSL planned = Some dsl ∧
                        describeDSL dsl = inr description).
  { subst planned. unfold generateDSL. cbn [ws_semanticDSL].
    eexists. split; [reflexivity|].
    unfold describeDSL. cbn. rewrite Hcfg, Hstrat, Fty, Fn, Fc. by cbn. }
  destruct Hdsl as (dsl & Hdsl & Hdesc).
  assert (Hvalid : validEnums description).
  { unfold validEnums, description. cbn. split_and!; [done..| |].
    - subst groups. destruct (_ && _); cbn; repeat constructor.
    - intros lo [= <-]. cbn. rewrite Hdir. split.
      + clear -Hs. unfold LayoutTypeSchema. set_solver.
      + apply (bool_decide_unpack _). done. }
  assert (Hparse := proj2 (parse_Ok description (filledIn description))
                      (conj Hvalid eq_refl)).
  assert (Hty : layoutTypeOf (default emptyLayoutConfig (layout (filledIn description)))
                = strategy).
  { clear -Hs. cbn. unfold layoutTypeOf. cbn.
    apply elem_of_cons in Hs as [->|Hs]; [done|].
    apply elem_of_cons in Hs as [->|Hs]; [done|].
    apply list_elem_of_singleton in Hs as ->. done. }
  exists strategy, dsl, description, (filledIn description).
  split_and!; try done.
  - unfold filledIn, description, layoutDefaults, SpacingSchema.
    cbn [layout raw_layout raw_type raw_direction raw_spacing raw_node raw_rank
         fmap option_fmap option_map].
    rewrite Hdir, Hrank. reflexivity.
  - intros Hsafe.
    destruct (generateLayout_total (filledIn description)) as (l & warnings & Hl).
    { rewrite Hty. destruct Hsafe as [Hne|Hsafe]; [left|right].
      - clear -Hs Hne. set_solver.
      - cbn [filledIn nodes connections description raw_nodes raw_connections].
        by apply Forall_fmap. }
    destruct (render rt l {| idCounter := 0; clockReads := reads |})
      as [doc w'] eqn:Hr.
    exists l, warnings, doc, w'. split_and!; [done..|].
    unfold renderDiagram. rewrite Hdsl, Hdesc.
    unfold generateDiagram. rewrite Hparse. result_simpl.
    by rewrite Hl, Hr.
  - intros -> Hex.
    destruct (generateLayout_Throw (filledIn description)) as (msg & Hl).
    { rewrite Hty. not_listed. }
    { cbn [filledIn nodes connections description raw_nodes raw_connections].
      by apply Exists_fmap. }
    exists msg. unfold renderDiagram. rewrite Hdsl, Hdesc.
    unfold generateDiagram. rewrite Hparse. result_simpl.
    by rewrite Hl.
Qed.

Lemma other_workflows_witness :
  ∃ strategy doc reads',
    ws_layoutStrategy (generateDSL (selectLayout linkedPairState)) = Some strategy ∧
    renderDiagram sampleRuntime (fun _ => "") (generateDSL (selectLayout linkedPairState))
      0%nat
    = Some (rendered (generateDSL (selectLayout linkedPairState)) doc, reads').
Proof.
  destruct (other_workflows_are_rendered sampleRuntime (fun _ => "")
              linkedPairState 0%nat)
    as (strategy & dsl & description & a & Hs & _ & _ & _ & _ & _ & _ & _ & Hr & _).
  - intros [[=] _].
  - repeat constructor; apply (bool_decide_unpack _); done.
  - repeat constructor; apply (bool_decide_unpack _); done.
  - destruct Hr as (l & ws & doc & w' & _ & _ & Hr).
    { right. apply (bool_decide_unpack _). by vm_compute. }
    exists strategy, doc, (clockReads w'). split; [exact Hs|exact Hr].
Defined.

(** * The node map *)

Local Close Scope Q_scope.

(** X21.  A read [nodeMap[i]] on the node map that
    [calculateConnectionPaths] and [positionGroups] build from the
    positioned nodes returns the last positioned node that carries the id
    [i]: when several nodes share an id, connections and group members that
    name it reach the last of them only, and with distinct ids every node
    is reached under its id.  Under an id that no positioned node carries
    the read returns no node, but it is not always [undefined]: when no node
    has the id [__proto__] it finds a member of [Object.prototype] exactly
    when [i] is the name of one, and when a node has that id, the last such
    node is the prototype of the map and the read finds the properties of
    that node as well. *)
Theorem node_map_keeps_the_last (ps : list PositionedNode) (i : string) :
  (∀ p, member (buildNodeMap ps) i = Entry p
        ↔ last (filter (fun p => pn_id p = i) ps) = Some p) ∧
  ((∃ p, member (buildNodeMap ps) i = Entry p) ↔ ∃ p, p ∈ ps ∧ pn_id p = i) ∧
  (NoDup (pn_id <$> ps) →
   ∀ p, p ∈ ps → pn_id p = i → member (buildNodeMap ps) i = Entry p) ∧
  ((∀ p, p ∈ ps → pn_id p ≠ i) → (∀ p, p ∈ ps → pn_id p ≠ "__proto__") →
   member (buildNodeMap ps) i
   = if bool_decide (i ∈ objectPrototype) then Inherited else Falsy) ∧
  ((∀ p, p ∈ ps → pn_id p ≠ i) →
   ∀ proto, last (filter (fun p => pn_id p = "__proto__") ps) = Some proto →
     let found (truthy : bool) : Member PositionedNode :=
       if truthy then Inherited else Falsy in
     member (buildNodeMap ps) i
     = if bool_decide (i = "id") then Inherited
       else if bool_decide (i = "type") then
              found (nonEmpty (node_type (pn_node proto)))
       else if bool_decide (i = "label") then
              found (nonEmpty (node_label (pn_node proto)))
       else if bool_decide (i = "x") then found (nonZero (pn_x proto))
       else if bool_decide (i = "y") then found (nonZero (pn_y proto))
       else if bool_decide (i = "width") then found (nonZero (pn_width proto))
       else if bool_decide (i = "height") then found (nonZero (pn_height proto))
       else if bool_decide (i = "style") then Inherited
       else found (bool_decide (i ∈ objectPrototype))).
Proof.
  assert (Hno : (∀ p, p ∈ ps → pn_id p ≠ i) → buildNodeMap ps !! i = None).
  { intros H. apply eq_None_not_Some. rewrite <- buildNodeMap_resolves.
    intros (p & Hp & Hid). by apply (H p). }
  split_and!.
  - intros p. apply nodeMap_member_Entry.
  - split.
    + intros [p Hp%nodeMap_member_Entry%resolvesTo_Some]. by exists p.
    + intros Hres. apply resolvesTo_resolves in Hres as [p Hp].
      exists p. by apply nodeMap_member_Entry.
  - intros Hnd p Hp Hid. apply member_own.
    destruct (buildNodeMap ps !! i) as [q|] eqn:E.
    + apply buildNodeMap_Some in E as [Hq Hqi]. f_equal.
      apply (NoDup_fmap_eq pn_id ps); [done..|congruence].
    + assert (resolves ps i) as Hres by (by exists p).
      apply buildNodeMap_resolves in Hres as [? ?]. congruence.
  - intros Hi Hproto. apply nodeMap_member_other.
    + intros (p & Hp & Hid). by apply (Hproto p).
    + intros (p & Hp & Hid). by apply (Hi p).
  - intros Hi proto Hlast found. subst found. unfold member.
    rewrite (Hno Hi), buildNodeMap_resolvesTo.
    change (resolvesTo ps "__proto__") with
      (last (filter (fun p => pn_id p = "__proto__") ps)).
    rewrite Hlast. cbn [mbind option_bind].
    assert (Hid : pn_id proto = "__proto__").
    { change (last (filter (fun p => pn_id p = "__proto__") ps))
        with (resolvesTo ps "__proto__") in Hlast.
      by apply resolvesTo_Some in Hlast as [_ ?]. }
    unfold ownProperties, PositionedNode_object. rewrite Hid.
    cbn [list_to_map foldr uncurry fst snd].
    repeat (rewrite lookup_insert; case_decide as E;
            [subst i; cbn; by repeat case_match|];
            rewrite (bool_decide_eq_false_2 _ (fun H => E (eq_sym H))); clear E).
    rewrite lookup_empty. by case_bool_decide.
Qed.
